(** * dns.transaction: the transaction core of dnspython, and the
      immutable-attribute mixin it publishes record sets through.

    The development embeds [dns/transaction.py] and [dns/_immutable_attr.py]
    as executable definitions over an explicit Python object heap, and
    proves the behaviour the specification states for them. *)

From stdpp Require Import gmap strings list fin_maps.
From Stdlib Require Import ZArith Lia.

Local Open Scope string_scope.
Local Open Scope list_scope.
Local Open Scope Z_scope.

(* ===================================================================== *)
(** * Values, exceptions and the effect monad *)
(* ===================================================================== *)

(** A domain name: the tuple of its labels.  [dns.name.empty] has none. *)
Abbreviation Name := (list string).

(** References to heap objects. *)
Abbreviation loc := nat.

(** Modelled from the spec: a record-data value, [dns.rdata.Rdata], whose
    class is not among the sources.  It is immutable, hence a plain value,
    and carries its class, type and covers; [rd_serial] is the [serial]
    attribute, which only SOA data has. *)
Record Rdata := mkRdata {
  rd_rdclass : Z;
  rd_rdtype : Z;
  rd_covers : Z;
  rd_serial : option Z;
  rd_text : string
}.

#[global] Instance Rdata_eq_dec : EqDecision Rdata.
Proof. solve_decision. Defined.

(** Attribute values of the objects the core handles. *)
Inductive Val :=
| VNone
| VInt (z : Z)
| VStr (s : string)
| VName (n : Name)
| VItems (l : list Rdata)
| VRef (l : loc).

#[global] Instance Val_eq_dec : EqDecision Val.
Proof. solve_decision. Defined.

(** Modelled from the spec: the classes of the record-set objects, which
    are declared outside the sources at hand: [dns.rdataset.Rdataset], its
    subclass [dns.rrset.RRset] ("rrsets are also rdatasets"), and
    [dns.rdataset.ImmutableRdataset], the subclass that the [immutable]
    decorator gives the [_Immutable] mixin. *)
Inductive Klass := KRdataset | KRRset | KImmutableRdataset.

#[global] Instance Klass_eq_dec : EqDecision Klass.
Proof. solve_decision. Defined.

(** [issubclass k K]. *)
Definition issubclass (k K : Klass) : bool :=
  match K, k with
  | KRdataset, _ => true
  | KRRset, KRRset => true
  | KImmutableRdataset, KImmutableRdataset => true
  | _, _ => false
  end.

(** [_Immutable in cls.__mro__]. *)
Definition has_Immutable_mixin (k : Klass) : bool :=
  match k with KImmutableRdataset => true | _ => false end.

(** An object: its class and its attribute dictionary, in insertion order. *)
Record Object := mkObject {
  cls : Klass;
  attrs : list (string * Val)
}.

Abbreviation Heap := (list Object).

Inductive Exception :=
| ReadOnly
| DeleteNotExact (msg : string)
| TypeError (msg : string)
| ValueError (msg : string)
| KeyError
| IndexError
| AttributeError (msg : string)
| SystemError (msg : string)
| UserError (msg : string).

#[global] Instance Exception_eq_dec : EqDecision Exception.
Proof. solve_decision. Defined.

(** The outcome of a call: an exception raised ([inl]) or a value returned. *)
Abbreviation Res A := (Exception + A)%type.

(** Computations over a state [Σ] that may raise.  State changes made before
    an exception is raised persist, as they do in Python. *)
Definition St (Σ A : Type) : Type := Σ -> Res A * Σ.

Definition ret {Σ A} (a : A) : St Σ A := fun s => (inr a, s).

Definition raise {Σ A} (e : Exception) : St Σ A := fun s => (inl e, s).

Definition bind {Σ A B} (m : St Σ A) (f : A -> St Σ B) : St Σ B :=
  fun s => match m s with
           | (inr a, s') => f a s'
           | (inl e, s') => (inl e, s')
           end.

Definition is_IndexError {A} (r : Res A) : bool :=
  match r with inl IndexError => true | _ => false end.

(** [try: body  except IndexError: handler]. *)
Definition except_IndexError {Σ A} (body handler : St Σ A) : St Σ A :=
  fun s => match body s with
           | (r, s') => if is_IndexError r then handler s' else (r, s')
           end.

(** [try: body  finally: fin].  An exception raised by [fin] replaces the
    outcome of [body]. *)
Definition finally {Σ A} (body : St Σ A) (fin : St Σ unit) : St Σ A :=
  fun s => match body s with
           | (r, s') => match fin s' with
                        | (inr _, s'') => (r, s'')
                        | (inl e, s'') => (inl e, s'')
                        end
           end.

(** A pure fallible step. *)
Definition liftR {Σ A} (r : Res A) : St Σ A := fun s => (r, s).

Declare Scope py_scope.
Delimit Scope py_scope with py.
Notation "x <- m ;; k" := (bind m (fun x => k))
  (at level 100, m at next level, right associativity) : py_scope.
Notation "m ;;; k" := (bind m (fun _ => k))
  (at level 100, right associativity) : py_scope.
Local Open Scope py_scope.

(* ===================================================================== *)
(** * Attribute dictionaries and the heap *)
(* ===================================================================== *)

Fixpoint attr_get (name : string) (d : list (string * Val)) : option Val :=
  match d with
  | [] => None
  | (k, v) :: d' => if String.eqb k name then Some v else attr_get name d'
  end.

(** Assignment keeps the position of an existing key and appends a new one. *)
Fixpoint attr_set (name : string) (v : Val) (d : list (string * Val))
  : list (string * Val) :=
  match d with
  | [] => [(name, v)]
  | (k, v') :: d' =>
      if String.eqb k name then (k, v) :: d' else (k, v') :: attr_set name v d'
  end.

Fixpoint attr_del (name : string) (d : list (string * Val))
  : list (string * Val) :=
  match d with
  | [] => []
  | (k, v) :: d' =>
      if String.eqb k name then d' else (k, v) :: attr_del name d'
  end.

Definition invalid_reference : Exception := SystemError "invalid reference".

(** Dereference.  A reference that is not in the heap cannot arise in a
    Python program; the model reports it as an error of its own. *)
Definition deref (l : loc) : St Heap Object :=
  fun h => match h !! l with
           | Some o => (inr o, h)
           | None => (inl invalid_reference, h)
           end.

(** [cls.__new__(cls)]: a fresh object without attributes. *)
Definition new_object (k : Klass) : St Heap loc :=
  fun h => (inr (length h), h ++ [mkObject k []]).

(** [hasattr(self, name)]. *)
Definition hasattr (o : Object) (name : string) : bool :=
  match attr_get name (attrs o) with Some _ => true | None => false end.

(** [object.__setattr__(self, name, value)]. *)
Definition object_setattr (self : loc) (name : string) (value : Val)
  : St Heap unit :=
  fun h => match h !! self with
           | Some o =>
               (inr tt, <[self := mkObject (cls o) (attr_set name value (attrs o))]> h)
           | None => (inl invalid_reference, h)
           end.

(** [object.__delattr__(self, name)]. *)
Definition object_delattr (self : loc) (name : string) : St Heap unit :=
  fun h => match h !! self with
           | Some o =>
               if hasattr o name
               then (inr tt, <[self := mkObject (cls o) (attr_del name (attrs o))]> h)
               else (inl (AttributeError name), h)
           | None => (inl invalid_reference, h)
           end.

(* ===================================================================== *)
(** * dns/_immutable_attr.py *)
(* ===================================================================== *)

(** The class [_Immutable], the immutable mixin. *)
Module Immutable.

Definition no_assignment : Exception :=
  TypeError "object doesn't support attribute assignment".

(** [not hasattr(self, '_immutable_init') or self._immutable_init is not self]. *)
Definition locked (self : loc) (o : Object) : bool :=
  negb (hasattr o "_immutable_init")
  || negb (bool_decide (attr_get "_immutable_init" (attrs o) = Some (VRef self))).

(** [_Immutable.__setattr__]. *)
Definition __setattr__ (self : loc) (name : string) (value : Val)
  : St Heap unit :=
  o <- deref self ;;
  if locked self o
  then raise no_assignment
  else object_setattr self name value.

(** [_Immutable.__delattr__]. *)
Definition __delattr__ (self : loc) (name : string) : St Heap unit :=
  o <- deref self ;;
  if locked self o
  then raise no_assignment
  else object_delattr self name.

End Immutable.

(** The attribute protocol of an instance: [setattr(self, name, value)] and
    [delattr(self, name)] go to the mixin when the class has it, and to
    [object] otherwise. *)
Definition setattr (self : loc) (name : string) (value : Val) : St Heap unit :=
  o <- deref self ;;
  if has_Immutable_mixin (cls o)
  then Immutable.__setattr__ self name value
  else object_setattr self name value.

Definition delattr (self : loc) (name : string) : St Heap unit :=
  o <- deref self ;;
  if has_Immutable_mixin (cls o)
  then Immutable.__delattr__ self name
  else object_delattr self name.

(** Modelled from the spec: the content of a [dns.rdataset.Rdataset]
    object, a class that is not among the sources: the values of its
    attributes [rdclass], [rdtype], [covers], [ttl] and [items], the
    record-data values it holds. *)
Record Rdataset := mkRdataset {
  rdclass : Z;
  rdtype : Z;
  covers : Z;
  ttl : Z;
  items : list Rdata
}.

#[global] Instance Rdataset_eq_dec : EqDecision Rdataset.
Proof. solve_decision. Defined.

(** Modelled from the spec: [__len__] of a record set, defined by
    [dns.set.Set], which is not among the sources: the number of members.
    It answers [len(rdataset)] and, the class defining no [__bool__], it
    decides the truth value of the record set. *)
Definition len (r : Rdataset) : Z := Z.of_nat (length (items r)).

Definition mk_attrs (r : Rdataset) : list (string * Val) :=
  [("items", VItems (items r)); ("rdclass", VInt (rdclass r));
   ("rdtype", VInt (rdtype r)); ("covers", VInt (covers r));
   ("ttl", VInt (ttl r))].

(** Reading the five attributes of a record-set object. *)
Definition view (o : Object) : option Rdataset :=
  match attr_get "items" (attrs o), attr_get "rdclass" (attrs o),
        attr_get "rdtype" (attrs o), attr_get "covers" (attrs o),
        attr_get "ttl" (attrs o) with
  | Some (VItems l), Some (VInt c), Some (VInt t), Some (VInt v), Some (VInt tl) =>
      Some (mkRdataset c t v tl l)
  | _, _, _, _, _ => None
  end.

Definition load (l : loc) : St Heap Rdataset :=
  o <- deref l ;;
  match view o with
  | Some r => ret r
  | None => raise (AttributeError "rdataset")
  end.

(** The record set a reference denotes in a heap, when it denotes one. *)
Definition view_at (h : Heap) (l : loc) : option Rdataset :=
  o ← h !! l; view o.

Definition class_at (h : Heap) (l : loc) : option Klass :=
  cls <$> h !! l.

(** [isinstance(l, K)]. *)
Definition isinstance (l : loc) (K : Klass) : St Heap bool :=
  o <- deref l ;; ret (issubclass (cls o) K).

Definition alloc (k : Klass) (a : list (string * Val)) : St Heap loc :=
  fun h => (inr (length h), h ++ [mkObject k a]).

(** The truth value of an object in a condition: [None], zero and empty
    containers are false, and an object with a length is true when its
    length is not zero. *)
Definition truthy (v : Val) : St Heap bool :=
  match v with
  | VNone => ret false
  | VInt z => ret (negb (z =? 0))
  | VStr s => ret (negb (String.eqb s ""))
  | VName n => ret (negb (bool_decide (n = [])))
  | VItems l => ret (negb (bool_decide (l = [])))
  | VRef l => r <- load l ;; ret (negb (len r =? 0))
  end.

(** [_immutable_init(f)]: the wrapper [nf] around an [__init__] body [f]. *)
Definition _immutable_init (f : loc -> St Heap unit) (self : loc)
  : St Heap unit :=
  o <- deref self ;;
  previous <- match attr_get "_immutable_init" (attrs o) with
              | Some v => ret v
              | None =>
                  object_setattr self "_immutable_init" (VRef self) ;;;
                  ret VNone
              end ;;
  finally (f self)
          (t <- truthy previous ;;
           if negb t then object_delattr self "_immutable_init" else ret tt).

(* ===================================================================== *)
(** * The record-set algebra *)
(* ===================================================================== *)

(** Modelled from the spec: the record-set algebra of [dns.rdataset] and
    [dns.set], which the transaction core consumes and which is not part of
    the sources at hand.  A record set is an ordered collection of distinct
    record-data values sharing class, type, covers and TTL; union,
    intersection and difference return new values; equality compares class,
    type, covers and membership. *)
Module Algebra.

Definition member (x : Rdata) (l : list Rdata) : bool := bool_decide (x ∈ l).

(** Modelled from the spec: TTL reconciliation, owned by the algebra: an
    empty set takes the other TTL, otherwise the smaller one wins. *)
Definition update_ttl (self : Rdataset) (ttl' : Z) : Z :=
  if len self =? 0 then ttl'
  else if ttl' <? ttl self then ttl' else ttl self.

Definition add_item (l : list Rdata) (x : Rdata) : list Rdata :=
  if member x l then l else l ++ [x].

(** Modelled from the spec: [union(a, b)]; the same record-data merges. *)
Definition union_rds (a b : Rdataset) : Rdataset :=
  mkRdataset (rdclass a) (rdtype a) (covers a) (update_ttl a (ttl b))
             (fold_left add_item (items b) (items a)).

(** Modelled from the spec: [intersection(a, b)]. *)
Definition intersection_rds (a b : Rdataset) : Rdataset :=
  mkRdataset (rdclass a) (rdtype a) (covers a) (update_ttl a (ttl b))
             (List.filter (fun x => member x (items b)) (items a)).

(** Modelled from the spec: [difference(a, b)]. *)
Definition difference_rds (a b : Rdataset) : Rdataset :=
  mkRdataset (rdclass a) (rdtype a) (covers a) (ttl a)
             (List.filter (fun x => negb (member x (items b))) (items a)).

(** Modelled from the spec: [equality(a, b)]: same class, type and covers,
    and the same members.  The TTL does not take part. *)
Definition eq_rds (a b : Rdataset) : bool :=
  (rdclass a =? rdclass b) && (rdtype a =? rdtype b) && (covers a =? covers b)
  && forallb (fun x => member x (items b)) (items a)
  && forallb (fun x => member x (items a)) (items b).

(** Modelled from the spec: [_clone]: a new object with the attributes of
    [self]; the clone of an immutable record set is a plain, mutable one. *)
Definition clone_class (k : Klass) : Klass :=
  match k with KImmutableRdataset => KRdataset | k => k end.

Definition clone (self : loc) : St Heap loc :=
  o <- deref self ;;
  alloc (clone_class (cls o)) (attrs o).

(** Modelled from the spec: the constructor
    [Rdataset(rdclass, rdtype, covers, ttl)] of an empty record set. *)
Definition Rdataset_new (c t v tl : Z) : St Heap loc :=
  alloc KRdataset (mk_attrs (mkRdataset c t v tl [])).

(** Modelled from the spec: the in-place [union_update]; [update] is the
    same operation. *)
Definition union_update (self other : loc) : St Heap unit :=
  a <- load self ;;
  b <- load other ;;
  setattr self "ttl" (VInt (ttl (union_rds a b))) ;;;
  setattr self "items" (VItems (items (union_rds a b))).

Definition update (self other : loc) : St Heap unit := union_update self other.

Definition intersection_update (self other : loc) : St Heap unit :=
  a <- load self ;;
  b <- load other ;;
  setattr self "ttl" (VInt (ttl (intersection_rds a b))) ;;;
  setattr self "items" (VItems (items (intersection_rds a b))).

Definition difference_update (self other : loc) : St Heap unit :=
  a <- load self ;;
  b <- load other ;;
  setattr self "items" (VItems (items (difference_rds a b))).

Definition union (self other : loc) : St Heap loc :=
  obj <- clone self ;; union_update obj other ;;; ret obj.

Definition intersection (self other : loc) : St Heap loc :=
  obj <- clone self ;; intersection_update obj other ;;; ret obj.

Definition difference (self other : loc) : St Heap loc :=
  obj <- clone self ;; difference_update obj other ;;; ret obj.

(** Modelled from the spec: [a != b], the negation of equality. *)
Definition ne (a b : loc) : St Heap bool :=
  x <- load a ;; y <- load b ;; ret (negb (eq_rds x y)).

(** Modelled from the spec: the single-record-data constructor
    [from_rdata(ttl, rdata)]. *)
Definition from_rdata (tl : Z) (rd : Rdata) : St Heap loc :=
  alloc KRdataset
        (mk_attrs (mkRdataset (rd_rdclass rd) (rd_rdtype rd) (rd_covers rd) tl [rd])).

(** Modelled from the spec: [ImmutableRdataset.__init__(self, rdataset)],
    which copies the attributes of [rdataset] into [self]. *)
Definition ImmutableRdataset__init__ (rdataset : loc) (self : loc)
  : St Heap unit :=
  r <- load rdataset ;;
  setattr self "items" (VItems []) ;;;
  setattr self "rdclass" (VInt (rdclass r)) ;;;
  setattr self "rdtype" (VInt (rdtype r)) ;;;
  setattr self "covers" (VInt (covers r)) ;;;
  setattr self "ttl" (VInt (ttl r)) ;;;
  setattr self "items" (VItems (items r)).

(** Modelled from the spec: the constructor [ImmutableRdataset(rdataset)].
    The class is decorated with [immutable], so its [__init__] runs under
    [_immutable_init]; the conversion copies. *)
Definition ImmutableRdataset (rdataset : loc) : St Heap loc :=
  self <- new_object KImmutableRdataset ;;
  _immutable_init (ImmutableRdataset__init__ rdataset) self ;;;
  ret self.

(** Modelled from the spec: [rdataset[0]], the first member. *)
Definition first (r : Rdataset) : Res Rdata :=
  match items r with
  | rd :: _ => inr rd
  | [] => inl IndexError
  end.

(** Modelled from the spec: the attribute [rdata.serial]. *)
Definition serial (rd : Rdata) : Res Z :=
  match rd_serial rd with
  | Some s => inr s
  | None => inl (AttributeError "serial")
  end.

(** Modelled from the spec: [rdata.replace(serial=s)], the same record
    with only the serial changed. *)
Definition replace_serial (rd : Rdata) (s : Z) : Res Rdata :=
  match rd_serial rd with
  | Some _ =>
      inr (mkRdata (rd_rdclass rd) (rd_rdtype rd) (rd_covers rd) (Some s) (rd_text rd))
  | None => inl (AttributeError "serial")
  end.

End Algebra.

(* ===================================================================== *)
(** * dns/transaction.py *)
(* ===================================================================== *)

(** A positional argument of [add], [replace], [delete] or [delete_exact]:
    text, a name, an integer (a TTL, or a class or type code), a record-data
    value, a reference to a record-set object, or anything else. *)
Inductive Arg :=
| AStr (s : string)
| AName (n : Name)
| AInt (z : Z)
| ARdata (rd : Rdata)
| ARef (l : loc)
| ANone.

(** A name argument of [get], [name_exists] and [set_serial]. *)
Inductive NameLike :=
| NText (s : string)
| NName (n : Name).

(** The collaborators the core calls for text and code conversion:
    [dns.name.from_text(text, None)], [dns.rdataclass.RdataClass.make],
    [dns.rdatatype.RdataType.make] and [dns.ttl.MAX_TTL]. *)
Class Externals := {
  from_text : string -> Res Name;
  RdataClass_make : Arg -> Res Z;
  RdataType_make : Arg -> Res Z;
  MAX_TTL : Z
}.

(** Modelled from the spec: the constants [dns.rdatatype.NONE],
    [dns.rdatatype.SOA], [dns.rdataclass.IN] and [dns.name.empty] of modules
    that are not among the sources, with their values in the DNS protocol. *)
Definition rdatatype_NONE : Z := 0.
Definition rdatatype_SOA : Z := 6.
Definition rdataclass_IN : Z := 1.
Definition name_empty : Name := [].

(** The two flags of a transaction, fixed by [__init__]. *)
Record Transaction := mkTransaction {
  replacement : bool;
  read_only : bool
}.

(** The calls the core makes into the low-level API, in the order made.  A
    put records the reference stored and what it denoted at that moment. *)
Inductive Call :=
| CGet (n : Name) (c t v : Z)
| CPut (n : Name) (l : loc) (content : option Rdataset)
| CDeleteName (n : Name)
| CDeleteRdataset (n : Name) (c t v : Z)
| CNameExists (n : Name)
| CEnd (commit : bool).

#[global] Instance Call_eq_dec : EqDecision Call.
Proof. solve_decision. Defined.

(** The low-level API, which subclasses of [Transaction] implement.  An
    implementation owns a state [S], may read the object heap and may
    raise. *)
Class Backend (S : Type) := {
  be_get_rdataset : Transaction -> Heap -> Name -> Z -> Z -> Z -> S -> Res (option loc) * S;
  be_put_rdataset : Transaction -> Heap -> Name -> loc -> S -> Res unit * S;
  be_delete_name : Transaction -> Heap -> Name -> S -> Res unit * S;
  be_delete_rdataset : Transaction -> Heap -> Name -> Z -> Z -> Z -> S -> Res unit * S;
  be_name_exists : Transaction -> Heap -> Name -> S -> Res bool * S;
  be_end_transaction : Transaction -> Heap -> bool -> S -> Res unit * S
}.

Record World (S : Type) := mkWorld {
  heap : Heap;
  store : S;
  log : list Call
}.
Arguments mkWorld {S} _ _ _.
Arguments heap {S} _.
Arguments store {S} _.
Arguments log {S} _.

(** A heap computation, run inside a world. *)
Definition on_heap {S A} (m : St Heap A) : St (World S) A :=
  fun w => match m (heap w) with
           | (r, h') => (r, mkWorld h' (store w) (log w))
           end.

(** A call into the low-level API: logged, then answered by the backend. *)
Definition backend_call {S A} (c : Heap -> Call)
    (f : Heap -> S -> Res A * S) : St (World S) A :=
  fun w => match f (heap w) (store w) with
           | (r, s') => (r, mkWorld (heap w) s' (log w ++ [c (heap w)]))
           end.

Module Transaction.
Section Core.

Context {E : Externals} {S : Type} {B : Backend S}.

Abbreviation M := (St (World S)).

(** ** The low-level API *)

Definition _get_rdataset (self : Transaction) (name : Name) (c t v : Z)
  : M (option loc) :=
  backend_call (fun _ => CGet name c t v)
               (fun h => be_get_rdataset self h name c t v).

Definition _put_rdataset (self : Transaction) (name : Name) (rdataset : loc)
  : M unit :=
  backend_call (fun h => CPut name rdataset (view_at h rdataset))
               (fun h => be_put_rdataset self h name rdataset).

Definition _delete_name (self : Transaction) (name : Name) : M unit :=
  backend_call (fun _ => CDeleteName name)
               (fun h => be_delete_name self h name).

Definition _delete_rdataset (self : Transaction) (name : Name) (c t v : Z)
  : M unit :=
  backend_call (fun _ => CDeleteRdataset name c t v)
               (fun h => be_delete_rdataset self h name c t v).

Definition _name_exists (self : Transaction) (name : Name) : M bool :=
  backend_call (fun _ => CNameExists name)
               (fun h => be_name_exists self h name).

Definition _end_transaction (self : Transaction) (commit : bool) : M unit :=
  backend_call (fun _ => CEnd commit)
               (fun h => be_end_transaction self h commit).

(** ** Helpers *)

(** [if isinstance(name, str): name = dns.name.from_text(name, None)]. *)
Definition as_name (name : NameLike) : M Name :=
  match name with
  | NText s => liftR (from_text s)
  | NName n => ret n
  end.

(** [args.popleft()]. *)
Definition popleft (args : list Arg) : M (Arg * list Arg) :=
  match args with
  | a :: rest => ret (a, rest)
  | [] => raise IndexError
  end.

(** [isinstance(arg, K)] for a record-set class [K]. *)
Definition isinstance_arg (arg : Arg) (K : Klass) : M bool :=
  match arg with
  | ARef l => on_heap (isinstance l K)
  | _ => ret false
  end.

(** The [name] attribute of an RRset. *)
Definition rrset_name (l : loc) : M Name :=
  o <- on_heap (deref l) ;;
  match attr_get "name" (attrs o) with
  | Some (VName n) => ret n
  | _ => raise (AttributeError "name")
  end.

Definition _check_read_only (self : Transaction) : M unit :=
  if read_only self then raise ReadOnly else ret tt.

Definition _raise_if_not_empty (method : string) (args : list Arg) : M unit :=
  if negb (Nat.eqb (length args) 0)
  then raise (TypeError ("extra parameters to " +:+ method))
  else ret tt.

(** Returns the record set and the arguments left.  [IndexError] comes from
    [popleft] on an empty deque only, so the deque is empty in the handler. *)
Definition _rdataset_from_args (method : string) (deleting : bool)
    (args : list Arg) : M (option loc * list Arg) :=
  except_IndexError
    (x <- popleft args ;;
     let '(arg, args) := x in
     isrds <- isinstance_arg arg KRdataset ;;
     match arg, isrds with
     | ARef l, true => ret (Some l, args)
     | _, _ =>
         y <- (if deleting
               then ret (0, arg, args)
               else match arg with
                    | AInt tl =>
                        if tl >? MAX_TTL
                        then raise (ValueError (method +:+ ": TTL value too big"))
                        else z <- popleft args ;;
                             let '(arg, args) := z in ret (tl, arg, args)
                    | _ => raise (TypeError (method +:+ ": expected a TTL"))
                    end) ;;
         let '(tl, arg, args) := y in
         match arg with
         | ARdata rd =>
             rdataset <- on_heap (Algebra.from_rdata tl rd) ;;
             ret (Some rdataset, args)
         | _ => raise (TypeError (method +:+ ": expected an Rdata"))
         end
     end)
    (if deleting
     then ret (None, [])
     else raise (TypeError (method +:+ ": expected more arguments"))).

Definition requires_name_or_RRset (method : string) : Exception :=
  TypeError (method +:+ " requires a name or RRset as the first argument").

Definition not_enough_parameters (method : string) : Exception :=
  TypeError ("not enough parameters to " +:+ method).

(** [if isinstance(arg, str): arg = dns.name.from_text(arg, None)]. *)
Definition text_to_name (arg : Arg) : M Arg :=
  match arg with
  | AStr s => n <- liftR (from_text s) ;; ret (AName n)
  | _ => ret arg
  end.

(** ** [_add] *)

(** Lines 216-232 of [_add]: from the arguments to the name, the record set
    and the arguments left. *)
Definition _add_resolve (method : string) (args : list Arg)
  : M (Name * option loc * list Arg) :=
  x <- popleft args ;;
  let '(arg, args) := x in
  arg <- text_to_name arg ;;
  match arg with
  | AName name =>
      y <- _rdataset_from_args method false args ;;
      let '(rdataset, args) := y in
      ret (name, rdataset, args)
  | _ =>
      isrr <- isinstance_arg arg KRRset ;;
      match arg, isrr with
      | ARef rrset, true =>
          name <- rrset_name rrset ;;
          r <- on_heap (load rrset) ;;
          rdataset <- on_heap (Algebra.Rdataset_new (rdclass r) (rdtype r)
                                                    (covers r) (ttl r)) ;;
          on_heap (Algebra.union_update rdataset rrset) ;;;
          ret (name, Some rdataset, args)
      | _, _ => raise (requires_name_or_RRset method)
      end
  end.

(** An attribute read or a method call on [None]. *)
Definition not_None (rdataset : option loc) : M loc :=
  match rdataset with
  | Some l => ret l
  | None => raise (AttributeError "NoneType")
  end.

(** Lines 233-245 of [_add]. *)
Definition _add_apply (self : Transaction) (replace : bool) (method : string)
    (name : Name) (rdataset : option loc) (args : list Arg) : M unit :=
  _raise_if_not_empty method args ;;;
  rdataset <- not_None rdataset ;;
  rdataset <-
    (if negb replace
     then
       r <- on_heap (load rdataset) ;;
       existing <- _get_rdataset self name (rdclass r) (rdtype r) (covers r) ;;
       match existing with
       | Some existing =>
           imm <- on_heap (isinstance existing KImmutableRdataset) ;;
           existing <-
             (if imm
              then
                e <- on_heap (load existing) ;;
                trds <- on_heap (Algebra.Rdataset_new (rdclass e) (rdtype e)
                                                      (covers e) 0) ;;
                on_heap (Algebra.update trds existing) ;;;
                ret trds
              else ret existing) ;;
           on_heap (Algebra.union existing rdataset)
       | None => ret rdataset
       end
     else ret rdataset) ;;
  _put_rdataset self name rdataset.

Definition _add (self : Transaction) (replace : bool) (args : list Arg)
  : M unit :=
  let method := if replace then "replace()" else "add()" in
  except_IndexError
    (x <- _add_resolve method args ;;
     let '(name, rdataset, args) := x in
     _add_apply self replace method name rdataset args)
    (raise (not_enough_parameters method)).

(** ** [_delete] *)

(** What lines 256-284 of [_delete] leave to the rest of the method: nothing
    after the early [return] of the class-and-type form, or the name, the
    record set ([None] when the arguments name no record data) and the
    arguments left. *)
Definition Resolved : Type := option (Name * option loc * list Arg).

(** Lines 261-276 of [_delete]: deleting by type and class. *)
Definition _delete_by_type (self : Transaction) (exact : bool)
    (method : string) (name : Name) (args : list Arg) : M unit :=
  x <- popleft args ;;
  let '(a, args) := x in
  rdclass <- liftR (RdataClass_make a) ;;
  x <- popleft args ;;
  let '(a, args) := x in
  rdtype <- liftR (RdataType_make a) ;;
  y <- (if Nat.ltb 0 (length args)
        then x <- popleft args ;;
             let '(a, args) := x in
             covers <- liftR (RdataType_make a) ;;
             ret (covers, args)
        else ret (rdatatype_NONE, args)) ;;
  let '(covers, args) := y in
  _raise_if_not_empty method args ;;;
  existing <- _get_rdataset self name rdclass rdtype covers ;;
  match existing with
  | None =>
      if exact
      then raise (DeleteNotExact (method +:+ ": missing rdataset"))
      else ret tt
  | Some _ => _delete_rdataset self name rdclass rdtype covers
  end.

(** Lines 256-284 of [_delete]. *)
Definition _delete_resolve (self : Transaction) (exact : bool)
    (method : string) (args : list Arg) : M Resolved :=
  x <- popleft args ;;
  let '(arg, args) := x in
  arg <- text_to_name arg ;;
  match arg with
  | AName name =>
      match args with
      | AInt _ :: _ =>
          _delete_by_type self exact method name args ;;;
          ret None
      | _ =>
          y <- _rdataset_from_args method true args ;;
          let '(rdataset, args) := y in
          ret (Some (name, rdataset, args))
      end
  | _ =>
      isrr <- isinstance_arg arg KRRset ;;
      match arg, isrr with
      | ARef rdataset, true =>
          name <- rrset_name rdataset ;;
          ret (Some (name, Some rdataset, args))
      | _, _ => raise (requires_name_or_RRset method)
      end
  end.

(** [if rdataset:], the truth value of [None] or of a record-set object. *)
Definition truthy_rdataset (rdataset : option loc) : M bool :=
  match rdataset with
  | None => ret false
  | Some l => on_heap (truthy (VRef l))
  end.

(** Lines 285-305 of [_delete]. *)
Definition _delete_apply (self : Transaction) (exact : bool) (method : string)
    (name : Name) (rdataset : option loc) (args : list Arg) : M unit :=
  _raise_if_not_empty method args ;;;
  t <- truthy_rdataset rdataset ;;
  match rdataset, t with
  | Some rdataset, true =>
      r <- on_heap (load rdataset) ;;
      existing <- _get_rdataset self name (rdclass r) (rdtype r) (covers r) ;;
      match existing with
      | Some existing =>
          (if exact
           then
             intersection <- on_heap (Algebra.intersection existing rdataset) ;;
             differs <- on_heap (Algebra.ne intersection rdataset) ;;
             if differs
             then raise (DeleteNotExact (method +:+ ": missing rdatas"))
             else ret tt
           else ret tt) ;;;
          rdataset <- on_heap (Algebra.difference existing rdataset) ;;
          d <- on_heap (load rdataset) ;;
          if len d =? 0
          then _delete_rdataset self name (rdclass d) (rdtype d) (covers d)
          else _put_rdataset self name rdataset
      | None =>
          if exact
          then raise (DeleteNotExact (method +:+ ": missing rdataset"))
          else ret tt
      end
  | _, _ =>
      (if exact
       then
         known <- _name_exists self name ;;
         if negb known
         then raise (DeleteNotExact (method +:+ ": name not known"))
         else ret tt
       else ret tt) ;;;
      _delete_name self name
  end.

Definition _delete (self : Transaction) (exact : bool) (args : list Arg)
  : M unit :=
  let method := if exact then "delete_exact()" else "delete()" in
  except_IndexError
    (x <- _delete_resolve self exact method args ;;
     match x with
     | None => ret tt
     | Some (name, rdataset, args) =>
         _delete_apply self exact method name rdataset args
     end)
    (raise (not_enough_parameters method)).

(** ** The high-level API *)

Definition get (self : Transaction) (name : NameLike) (rdclass rdtype : Arg)
    (covers : Z) : M (option loc) :=
  name <- as_name name ;;
  rdclass <- liftR (RdataClass_make rdclass) ;;
  rdtype <- liftR (RdataType_make rdtype) ;;
  rdataset <- _get_rdataset self name rdclass rdtype covers ;;
  match rdataset with
  | Some l =>
      imm <- on_heap (isinstance l KImmutableRdataset) ;;
      if negb imm
      then l' <- on_heap (Algebra.ImmutableRdataset l) ;; ret (Some l')
      else ret (Some l)
  | None => ret None
  end.

Definition add (self : Transaction) (args : list Arg) : M unit :=
  _check_read_only self ;;;
  _add self false args.

Definition replace (self : Transaction) (args : list Arg) : M unit :=
  _check_read_only self ;;;
  _add self true args.

Definition delete (self : Transaction) (args : list Arg) : M unit :=
  _check_read_only self ;;;
  _delete self false args.

Definition delete_exact (self : Transaction) (args : list Arg) : M unit :=
  _check_read_only self ;;;
  _delete self true args.

Definition name_exists (self : Transaction) (name : NameLike) : M bool :=
  name <- as_name name ;;
  _name_exists self name.

(** The serial that [set_serial] writes: lines 159-165. *)
Definition new_serial (increment : Z) (value : option Z) (current : Res Z)
  : Res Z :=
  match (match value with Some v => inr v | None => current end) with
  | inr serial =>
      let serial := serial + increment in
      inr (if (serial >? 0xffffffff) || (serial <? 1) then 1 else serial)
  | inl e => inl e
  end.

Definition set_serial (self : Transaction) (increment : Z) (value : option Z)
    (name : NameLike) (rdclass : Z) : M unit :=
  name <- as_name name ;;
  rdataset <- _get_rdataset self name rdclass rdatatype_SOA rdatatype_NONE ;;
  match rdataset with
  | None => raise KeyError
  | Some rdataset =>
      r <- on_heap (load rdataset) ;;
      if len r =? 0
      then raise KeyError
      else
        rd0 <- liftR (Algebra.first r) ;;
        serial <- liftR (new_serial increment value (Algebra.serial rd0)) ;;
        rdata <- liftR (Algebra.replace_serial rd0 serial) ;;
        new_rdataset <- on_heap (Algebra.from_rdata (ttl r) rdata) ;;
        replace self [AName name; ARef new_rdataset]
  end.

(** ** Transactions are context managers *)

Definition __enter__ (self : Transaction) : M Transaction := ret self.

(** [exc_type] is [None] on a normal exit and the exception otherwise.  The
    value returned tells the [with] statement whether to swallow it. *)
Definition __exit__ (self : Transaction) (exc_type : option Exception)
  : M bool :=
  match exc_type with
  | None => _end_transaction self true
  | Some _ => _end_transaction self false
  end ;;;
  ret false.

(** [with txn: body], by the semantics of the statement: [__enter__], the
    body, then [__exit__] with the exception of the body, if any, which is
    raised again unless [__exit__] returns true. *)
Definition with_ (txn : Transaction) (body : Transaction -> M unit) : M unit :=
  self <- __enter__ txn ;;
  fun w => match body self w with
           | (inr _, w1) => (__exit__ txn None ;;; ret tt) w1
           | (inl e, w1) =>
               match __exit__ txn (Some e) w1 with
               | (inr swallow, w2) => if swallow then (inr tt, w2) else (inl e, w2)
               | (inl e', w2) => (inl e', w2)
               end
           end.

End Core.
End Transaction.

(* ===================================================================== *)
(** * A reference in-memory backend *)
(* ===================================================================== *)

(** Modelled from the spec: the backend store, a mapping from a name and a
    selector (class, type, covers) to the record set stored there, with the
    operations of the backend contract: point lookup, point write, delete of
    a selector, delete of a name, existence check and end of transaction.
    The store keeps references to record-set objects; a name exists when
    some selector under it holds a record set. *)
Module MemBackend.

Abbreviation Selector := (Z * Z * Z)%type.
Abbreviation Key := (Name * Selector)%type.

Record State := mkState {
  nodes : gmap Key loc;
  ended : list bool
}.

Definition selector (r : Rdataset) : Selector := (rdclass r, rdtype r, covers r).

Definition under (name : Name) (kv : Key * loc) : Prop := kv.1.1 = name.

#[global] Instance under_dec name kv : Decision (under name kv).
Proof. unfold under. apply _. Defined.

Definition mem_get (name : Name) (c t v : Z) (s : State) : Res (option loc) * State :=
  (inr (nodes s !! (name, (c, t, v))), s).

Definition mem_put (h : Heap) (name : Name) (l : loc) (s : State) : Res unit * State :=
  match view_at h l with
  | Some r => (inr tt, mkState (<[(name, selector r) := l]> (nodes s)) (ended s))
  | None => (inl (AttributeError "rdataset"), s)
  end.

Definition mem_delete_name (name : Name) (s : State) : Res unit * State :=
  (inr tt, mkState (filter (fun kv => ¬ under name kv) (nodes s)) (ended s)).

Definition mem_delete_rdataset (name : Name) (c t v : Z) (s : State)
  : Res unit * State :=
  (inr tt, mkState (base.delete (name, (c, t, v)) (nodes s)) (ended s)).

Definition mem_name_exists (name : Name) (s : State) : Res bool * State :=
  (inr (negb (bool_decide (filter (under name) (nodes s) = ∅))), s).

Definition mem_end (commit : bool) (s : State) : Res unit * State :=
  (inr tt, mkState (nodes s) (ended s ++ [commit])).

#[global] Instance backend : Backend State := {
  be_get_rdataset := fun _ _ => mem_get;
  be_put_rdataset := fun _ => mem_put;
  be_delete_name := fun _ _ => mem_delete_name;
  be_delete_rdataset := fun _ _ => mem_delete_rdataset;
  be_name_exists := fun _ _ => mem_name_exists;
  be_end_transaction := fun _ _ => mem_end
}.

(** The record set visible at a name and selector. *)
Definition stored (w : World State) (k : Key) : option Rdataset :=
  l ← nodes (store w) !! k; view_at (heap w) l.

(** The store after the delete of a selector, and of a name. *)
Definition without (st : State) (k : Key) : State :=
  mkState (base.delete k (nodes st)) (ended st).

Definition without_name (st : State) (n : Name) : State :=
  mkState (filter (fun kv => ¬ under n kv) (nodes st)) (ended st).

(** Whether some selector under the name holds a record set. *)
Definition known (st : State) (n : Name) : bool :=
  negb (bool_decide (filter (under n) (nodes st) = ∅)).

(** The store after a point write of the object [l], which denotes [r]. *)
Definition written (st : State) (n : Name) (r : Rdataset) (l : loc) : State :=
  mkState (<[(n, selector r) := l]> (nodes st)) (ended st).

(** The world after the difference has been computed into the new object
    [l] and applied: the selector is deleted when nothing remains, and the
    remainder is written otherwise. *)
Definition difference_applied (n : Name) (d : Rdataset) (l : loc)
    (h : Heap) (st : State) (lg : list Call) : World State :=
  if len d =? 0
  then mkWorld h (without st (n, selector d))
               (lg ++ [CDeleteRdataset n (rdclass d) (rdtype d) (covers d)])
  else mkWorld h (written st n d l) (lg ++ [CPut n l (Some d)]).

(** Two worlds show the same record set at every name and selector. *)
Definition same_content (w1 w2 : World State) : Prop :=
  forall k, stored w1 k = stored w2 k.

(** Every reference the store holds is a reference into the heap. *)
Definition refs_valid (w : World State) : Prop :=
  forall k l, nodes (store w) !! k = Some l -> (l < length (heap w))%nat.

End MemBackend.

(** Conversions for running examples: text is a single label, class and
    type codes are 16-bit integers, and the largest TTL is [2^31 - 1]. *)
Module Fixture.

Definition make16 (a : Arg) : Res Z :=
  match a with
  | AInt z => if (0 <=? z) && (z <=? 65535) then inr z else inl (ValueError "out of range")
  | _ => inl (ValueError "unknown code")
  end.

#[global] Instance externals : Externals := {
  from_text := fun s => inr [s];
  RdataClass_make := make16;
  RdataType_make := make16;
  MAX_TTL := 2147483647
}.

Definition rw : Transaction := mkTransaction false false.
Definition ro : Transaction := mkTransaction false true.

Definition a1 : Rdata := mkRdata 1 1 0 None "10.0.0.1".
Definition a2 : Rdata := mkRdata 1 1 0 None "10.0.0.2".
Definition a3 : Rdata := mkRdata 1 1 0 None "10.0.0.3".
Definition a9 : Rdata := mkRdata 1 1 0 None "10.0.0.9".
Definition mx1 : Rdata := mkRdata 1 15 0 None "10 mail".
Definition soa (serial : Z) : Rdata := mkRdata 1 6 0 (Some serial) "ns hostmaster".

Definition obj (k : Klass) (r : Rdataset) : Object := mkObject k (mk_attrs r).
Definition rrset_obj (n : Name) (r : Rdataset) : Object :=
  mkObject KRRset (mk_attrs r ++ [("name", VName n)]).

Definition empty_world (h : Heap) : World MemBackend.State :=
  mkWorld h (MemBackend.mkState ∅ []) [].

Definition www : Name := ["www"].

(** The objects of the examples: two address record sets that overlap, a
    SOA record set with serial 10, an empty address record set, a mail
    record set, and an RRset for [www]. *)
Definition h_demo : Heap :=
  [ obj KRdataset (mkRdataset 1 1 0 300 [a1; a2]);
    obj KRdataset (mkRdataset 1 1 0 200 [a2; a3]);
    obj KRdataset (mkRdataset 1 6 0 3600 [soa 10]);
    obj KRdataset (mkRdataset 1 1 0 300 []);
    obj KRdataset (mkRdataset 1 15 0 300 [mx1]);
    rrset_obj www (mkRdataset 1 1 0 300 [a1]) ].

(** A zone with a SOA at the empty name, and addresses and mail at [www]. *)
Definition w_zone : World MemBackend.State :=
  ((Transaction.replace rw [AName name_empty; ARef 2%nat] ;;;
    Transaction.add rw [AName www; ARef 0%nat] ;;;
    Transaction.add rw [AName www; ARef 4%nat]) (empty_world h_demo)).2.

(** The same zone after a caller has read the addresses of [www] and put
    the record set it was given back with [replace]. *)
Definition w_republished : World MemBackend.State :=
  ((x <- Transaction.get rw (NName www) (AInt 1) (AInt 1) 0 ;;
    match x with
    | Some l => Transaction.replace rw [AName www; ARef l]
    | None => ret tt
    end) w_zone).2.

(** A block that adds addresses and then asks for an exact delete of a
    record that is not there. *)
Definition failing_body (self : Transaction) : St (World MemBackend.State) unit :=
  Transaction.add self [AName www; ARef 1%nat] ;;;
  Transaction.delete_exact self [AName www; ARdata a9].

(** A backend that cannot end a transaction: it answers every call of the
    low-level API as the reference backend does, except [_end_transaction],
    which raises. *)
Definition end_fails : Backend MemBackend.State := {|
  be_get_rdataset := fun _ _ => MemBackend.mem_get;
  be_put_rdataset := fun _ => MemBackend.mem_put;
  be_delete_name := fun _ _ => MemBackend.mem_delete_name;
  be_delete_rdataset := fun _ _ => MemBackend.mem_delete_rdataset;
  be_name_exists := fun _ _ => MemBackend.mem_name_exists;
  be_end_transaction := fun _ _ _ s => (inl (UserError "cannot end"), s)
|}.

End Fixture.

(* ===================================================================== *)
(** * Vocabulary of the statements *)
(* ===================================================================== *)

(** The object [union], [intersection] and [difference] return. *)
Definition derived (o : Object) (tl : Z) (its : list Rdata) : Object :=
  mkObject (Algebra.clone_class (cls o))
           (attr_set "items" (VItems its) (attr_set "ttl" (VInt tl) (attrs o))).

Definition derived_items (o : Object) (its : list Rdata) : Object :=
  mkObject (Algebra.clone_class (cls o)) (attr_set "items" (VItems its) (attrs o)).

(** An immutable object whose construction is over: the attribute that
    allows mutation is gone. *)
Definition sealed (o : Object) : Prop :=
  cls o = KImmutableRdataset /\ attr_get "_immutable_init" (attrs o) = None.

(** In a well-formed heap no immutable object is caught in the middle of
    its construction. *)
Definition heap_sealed (h : Heap) : Prop :=
  Forall (fun o => cls o = KImmutableRdataset -> sealed o) h.

(** The commits and rollbacks a log records. *)
Definition ends (lg : list Call) : list bool :=
  omap (fun c => match c with CEnd b => Some b | _ => None end) lg.

(** The record sets a log shows written. *)
Definition puts (lg : list Call) : list (Name * option Rdataset) :=
  omap (fun c => match c with CPut n _ r => Some (n, r) | _ => None end) lg.

Definition returned {A} (r : Res A) : bool :=
  match r with inr _ => true | inl _ => false end.

(** The name a name argument converts to. *)
Definition name_of {E : Externals} (name : NameLike) : Res Name :=
  match name with
  | NText s => from_text s
  | NName n => inr n
  end.

Definition is_DeleteNotExact {A} (r : Res A) : bool :=
  match r with inl (DeleteNotExact _) => true | _ => false end.

(** The covers code that the optional last argument of the class-and-type
    form of [delete] stands for. *)
Definition covers_of {E : Externals} (covs : list Arg) (v : Z) : Prop :=
  match covs with
  | [] => v = rdatatype_NONE
  | [a] => RdataType_make a = inr v
  | _ => False
  end.

(** From the world [w], a computation only appends to the log, and only
    calls that satisfy [P]. *)
Definition appends {S A} (P : Call -> Prop) (m : St (World S) A) (w : World S)
  : Prop :=
  exists lg, log (m w).2 = log w ++ lg /\ Forall P lg.

(** It does so from every world. *)
Definition logs_only {S A} (P : Call -> Prop) (m : St (World S) A) : Prop :=
  forall w, appends P m w.

(** A call that is not the write of an empty record set. *)
Definition no_empty_write (c : Call) : Prop :=
  match c with
  | CPut _ _ (Some r) => items r <> []
  | _ => True
  end.

(** No record-set object among the arguments is empty. *)
Definition no_empty_argument (h : Heap) (args : list Arg) : Prop :=
  forall l r, ARef l ∈ args -> view_at h l = Some r -> items r <> [].

Definition not_end (c : Call) : Prop :=
  match c with CEnd _ => False | _ => True end.

(** Heap computations are run by their equations, not by unfolding. *)
#[global] Arguments deref : simpl never.
#[global] Arguments load : simpl never.
#[global] Arguments isinstance : simpl never.
#[global] Arguments truthy : simpl never.
#[global] Arguments setattr : simpl never.
#[global] Arguments delattr : simpl never.
#[global] Arguments Algebra.clone : simpl never.
#[global] Arguments Algebra.union_update : simpl never.
#[global] Arguments Algebra.update : simpl never.
#[global] Arguments Algebra.union : simpl never.
#[global] Arguments Algebra.intersection : simpl never.
#[global] Arguments Algebra.difference : simpl never.
#[global] Arguments Algebra.ne : simpl never.
#[global] Arguments Algebra.ImmutableRdataset : simpl never.
#[global] Arguments Algebra.union_rds : simpl never.
#[global] Arguments Algebra.intersection_rds : simpl never.
#[global] Arguments Algebra.difference_rds : simpl never.
#[global] Arguments Algebra.eq_rds : simpl never.

(* ===================================================================== *)
(** * Vocabulary of the further statements *)
(* ===================================================================== *)

(** A call that reads: a point lookup or an existence check. *)
Definition is_read (c : Call) : Prop :=
  match c with CGet _ _ _ _ | CNameExists _ => True | _ => False end.

(** A call that changes what is stored. *)
Definition is_write (c : Call) : Prop :=
  match c with
  | CPut _ _ _ | CDeleteName _ | CDeleteRdataset _ _ _ _ => True
  | _ => False
  end.

(** No call at all satisfies this. *)
Definition no_call (c : Call) : Prop := False.

(** A log of reads followed by at most one write. *)
Definition reads_then_write (lg : list Call) : Prop :=
  exists rs ws, lg = rs ++ ws /\ Forall is_read rs /\ Forall is_write ws /\
                (length ws <= 1)%nat.

(** From every world, what a computation appends to the log is some reads
    followed by at most one write. *)
Definition writes_last {S A} (m : St (World S) A) : Prop :=
  forall w, exists lg, log (m w).2 = log w ++ lg /\ reads_then_write lg.

(** An operation runs in two phases.  In the first it stays within the
    relation [Rd] between the world it started from and the current one. *)
Definition reading {S A} (Rd : World S -> World S -> Prop)
    (m : St (World S) A) : Prop :=
  forall w, Rd w (m w).2.

(** At its end, the world it started from, whether it returned, and the
    world it left are related by [Fin]; and when it returns a value on which
    [q] is false, it has not left the first phase. *)
Definition finishing {S A} (Rd : World S -> World S -> Prop)
    (Fin : World S -> bool -> World S -> Prop) (q : A -> bool)
    (m : St (World S) A) : Prop :=
  forall w, Fin w (returned (m w).1) (m w).2 /\
            forall a, (m w).1 = inr a -> q a = false -> Rd w (m w).2.

Definition anything {A} (a : A) : bool := true.

Definition is_None {A} (x : option A) : bool :=
  match x with None => true | Some _ => false end.

(** A backend whose lookups and existence checks leave its state as it is,
    and whose writes and deletes, when they raise, have changed nothing. *)
Record Atomic {S} (B : Backend S) : Prop := {
  get_keeps : forall self h n c t v s, (be_get_rdataset self h n c t v s).2 = s;
  exists_keeps : forall self h n s, (be_name_exists self h n s).2 = s;
  put_atomic : forall self h n l s,
    returned (be_put_rdataset self h n l s).1 = false ->
    (be_put_rdataset self h n l s).2 = s;
  delete_name_atomic : forall self h n s,
    returned (be_delete_name self h n s).1 = false ->
    (be_delete_name self h n s).2 = s;
  delete_rdataset_atomic : forall self h n c t v s,
    returned (be_delete_rdataset self h n c t v s).1 = false ->
    (be_delete_rdataset self h n c t v s).2 = s
}.

(** A heap computation leaves the first [n] objects as they are, does not
    shrink the heap, and returns only values that satisfy [Q]. *)
Definition keeps_heap {A} (n : nat) (Q : A -> Prop) (m : St Heap A) : Prop :=
  forall h, (n <= length h)%nat ->
    take n (m h).2 = take n h /\ (length h <= length (m h).2)%nat /\
    forall a, (m h).1 = inr a -> Q a.

(** The same of a computation in a world. *)
Definition keeps_objects {S A} (n : nat) (m : St (World S) A) : Prop :=
  forall w, (n <= length (heap w))%nat ->
    take n (heap (m w).2) = take n (heap w) /\
    (length (heap w) <= length (heap (m w).2))%nat.

(** Every object that exists before the computation is the same after. *)
Definition untouched {S A} (m : St (World S) A) : Prop :=
  forall w l o, heap w !! l = Some o -> heap (m w).2 !! l = Some o.

Definition fresh_from (n : nat) (l : loc) : Prop := (n <= l)%nat.

Definition whatever {A} (a : A) : Prop := True.

(** A first argument that names a node: a name, or text that converts. *)
Definition names {E : Externals} (a : Arg) : Prop :=
  match a with
  | AName _ => True
  | AStr s => exists n, from_text s = inr n
  | _ => False
  end.

(** What may follow the name in [add] and [replace]: a record-set object,
    or a TTL within bounds and a record-data value. *)
Definition add_tail {E : Externals} (h : Heap) (rest : list Arg) : Prop :=
  match rest with
  | [ARef l] => is_Some (h !! l)
  | [AInt tl; ARdata _] => tl <= MAX_TTL
  | _ => False
  end.

(** The argument lists of [add] and [replace]: an RRset, or a name and
    what may follow it. *)
Definition add_form {E : Externals} (h : Heap) (args : list Arg) : Prop :=
  match args with
  | [ARef l] => class_at h l = Some KRRset
  | a :: rest => names a /\ add_tail h rest
  | [] => False
  end.

(** What may follow the name in [delete] and [delete_exact]: nothing, a
    record-set object, a record-data value, or a class and a type with an
    optional covered type. *)
Definition delete_tail {E : Externals} (h : Heap) (rest : list Arg) : Prop :=
  match rest with
  | [] => True
  | [ARef l] => is_Some (h !! l)
  | [ARdata _] => True
  | [AInt c; t] =>
      (exists c', RdataClass_make (AInt c) = inr c') /\
      (exists t', RdataType_make t = inr t')
  | [AInt c; t; v] =>
      (exists c', RdataClass_make (AInt c) = inr c') /\
      (exists t', RdataType_make t = inr t') /\
      (exists v', RdataType_make v = inr v')
  | _ => False
  end.

Definition delete_form {E : Externals} (h : Heap) (args : list Arg) : Prop :=
  match args with
  | [ARef l] => class_at h l = Some KRRset
  | a :: rest => names a /\ delete_tail h rest
  | [] => False
  end.

(** The computation made a call. *)
Definition called {S A} (m : St (World S) A) (w : World S) : Prop :=
  log (m w).2 <> log w.

(** The error a conversion raises, as it leaves [add], [replace], [delete]
    or [delete_exact]: the handler for [IndexError] is around it. *)
Definition reported (method : string) (e : Exception) : Exception :=
  if is_IndexError (inl (B:=unit) e)
  then Transaction.not_enough_parameters method else e.

(** The calls [set_serial] may make: the lookup of the SOA record set, and
    the write of a record set with one member, whose serial is a number
    from 1 to [0xFFFFFFFF]. *)
Definition serial_call (c : Call) : Prop :=
  match c with
  | CGet _ _ t v => t = rdatatype_SOA /\ v = rdatatype_NONE
  | CPut _ _ content =>
      exists r rd s, content = Some r /\ items r = [rd] /\
                     rd_serial rd = Some s /\ 1 <= s <= 0xffffffff
  | _ => False
  end.

(** An object under construction: its [_immutable_init] attribute is the
    object itself, and its attribute dictionary holds no key twice. *)
Definition under_construction (self : loc) (o : Object) : Prop :=
  attr_get "_immutable_init" (attrs o) = Some (VRef self) /\ NoDup (attrs o).*1.

(** A heap computation that leaves the object [self] under construction,
    and of the same class, when it finds it so. *)
Definition keeps_marker {A} (self : loc) (m : St Heap A) : Prop :=
  forall h o, h !! self = Some o -> under_construction self o ->
    exists o', (m h).2 !! self = Some o' /\ cls o' = cls o /\
               under_construction self o'.

(** The object without its [_immutable_init] attribute. *)
Definition finished (o : Object) : Object :=
  mkObject (cls o) (attr_del "_immutable_init" (attrs o)).

(** The object with its [_immutable_init] attribute set to itself. *)
Definition started (self : loc) (o : Object) : Object :=
  mkObject (cls o) (attr_set "_immutable_init" (VRef self) (attrs o)).

(** Every entry of the reference store refers to a record-set object, filed
    under the selector of its record set, which holds no record twice. *)
Definition consistent (w : World MemBackend.State) : Prop :=
  forall n sel l, MemBackend.nodes (store w) !! (n, sel) = Some l ->
    exists r, view_at (heap w) l = Some r /\ MemBackend.selector r = sel /\
              NoDup (items r).

(** The records a name and selector show: none when nothing is stored. *)
Definition records (w : World MemBackend.State) (k : MemBackend.Key) : list Rdata :=
  match MemBackend.stored w k with
  | Some r => items r
  | None => []
  end.

(** A record set with one member, and the object that holds it, as
    [Algebra.from_rdata] creates them. *)
Definition singleton_rds (tl : Z) (rd : Rdata) : Rdataset :=
  mkRdataset (rd_rdclass rd) (rd_rdtype rd) (rd_covers rd) tl [rd].

Definition singleton_obj (tl : Z) (rd : Rdata) : Object :=
  mkObject KRdataset (mk_attrs (singleton_rds tl rd)).

(** The operations a block can perform on its transaction. *)
Inductive Op :=
| OpGet (name : NameLike) (rdclass rdtype : Arg) (covers : Z)
| OpAdd (args : list Arg)
| OpReplace (args : list Arg)
| OpDelete (args : list Arg)
| OpDeleteExact (args : list Arg)
| OpNameExists (name : NameLike)
| OpSetSerial (increment : Z) (value : option Z) (name : NameLike) (rdclass : Z).

Section Script.

Context {E : Externals} {S : Type} {B : Backend S}.

(** One operation, as a statement: its value, if any, is dropped. *)
Definition perform (self : Transaction) (op : Op) : St (World S) unit :=
  match op with
  | OpGet name c t v => Transaction.get self name c t v ;;; ret tt
  | OpAdd args => Transaction.add self args
  | OpReplace args => Transaction.replace self args
  | OpDelete args => Transaction.delete self args
  | OpDeleteExact args => Transaction.delete_exact self args
  | OpNameExists name => Transaction.name_exists self name ;;; ret tt
  | OpSetSerial i v name c => Transaction.set_serial self i v name c
  end.

(** A block body: the operations in order, up to the first that raises. *)
Fixpoint perform_all (ops : list Op) (self : Transaction) : St (World S) unit :=
  match ops with
  | [] => ret tt
  | op :: ops => perform self op ;;; perform_all ops self
  end.

End Script.

(** Whether an entry of the reference store is as [consistent] wants it. *)
Definition entry_ok (h : Heap) (k : MemBackend.Key) (l : loc) : bool :=
  match view_at h l with
  | Some r =>
      bool_decide (MemBackend.selector r = k.2) && bool_decide (NoDup (items r))
  | None => false
  end.

(* ===================================================================== *)
(** * Running heap computations *)
(* ===================================================================== *)

Section HeapFacts.

Implicit Types (h : Heap) (o : Object) (l : loc) (r : Rdataset).

Lemma attr_get_set name name' v d :
  attr_get name' (attr_set name v d)
  = if String.eqb name name' then Some v else attr_get name' d.
Proof.
  induction d as [|[k v'] d IH]; simpl.
  - destruct (String.eqb_spec name name'); reflexivity.
  - destruct (String.eqb_spec k name) as [->|Hk]; simpl.
    + destruct (String.eqb_spec name name'); reflexivity.
    + destruct (String.eqb_spec k name') as [->|Hk'].
      * destruct (String.eqb_spec name name'); congruence.
      * exact IH.
Qed.

Lemma attr_get_del_ne name name' d :
  name <> name' -> attr_get name' (attr_del name d) = attr_get name' d.
Proof.
  intros Hne. induction d as [|[k v] d IH]; simpl; [reflexivity|].
  destruct (String.eqb_spec k name) as [->|Hk]; simpl.
  - destruct (String.eqb_spec name name'); congruence.
  - destruct (String.eqb_spec k name'); [reflexivity | exact IH].
Qed.

Lemma len_nonempty r : items r <> [] -> (len r =? 0) = false.
Proof.
  intros H. unfold len. destruct (items r); [congruence|].
  apply Z.eqb_neq. cbn [length]. lia.
Qed.

Lemma len_empty r : items r = [] -> (len r =? 0) = true.
Proof. intros H. unfold len. by rewrite H. Qed.

Lemma len_zero_items r : (len r =? 0) = true -> items r = [].
Proof.
  unfold len. destruct (items r); [done|].
  intros H%Z.eqb_eq. cbn [length] in H. lia.
Qed.

Lemma view_mk_attrs k r : view (mkObject k (mk_attrs r)) = Some r.
Proof. destruct r; reflexivity. Qed.

(** Writing [ttl] and [items] changes exactly these two attributes. *)
Lemma view_set_ttl_items k o r tl its :
  view o = Some r ->
  view (mkObject k (attr_set "items" (VItems its)
                      (attr_set "ttl" (VInt tl) (attrs o))))
  = Some (mkRdataset (rdclass r) (rdtype r) (covers r) tl its).
Proof.
  unfold view; simpl. rewrite !attr_get_set; simpl.
  destruct (attr_get "items" (attrs o)) as [[]|]; try discriminate.
  destruct (attr_get "rdclass" (attrs o)) as [[]|]; try discriminate.
  destruct (attr_get "rdtype" (attrs o)) as [[]|]; try discriminate.
  destruct (attr_get "covers" (attrs o)) as [[]|]; try discriminate.
  destruct (attr_get "ttl" (attrs o)) as [[]|]; try discriminate.
  intros [= <-]; reflexivity.
Qed.

Lemma view_set_items k o r its :
  view o = Some r ->
  view (mkObject k (attr_set "items" (VItems its) (attrs o)))
  = Some (mkRdataset (rdclass r) (rdtype r) (covers r) (ttl r) its).
Proof.
  unfold view; simpl. rewrite !attr_get_set; simpl.
  destruct (attr_get "items" (attrs o)) as [[]|]; try discriminate.
  destruct (attr_get "rdclass" (attrs o)) as [[]|]; try discriminate.
  destruct (attr_get "rdtype" (attrs o)) as [[]|]; try discriminate.
  destruct (attr_get "covers" (attrs o)) as [[]|]; try discriminate.
  destruct (attr_get "ttl" (attrs o)) as [[]|]; try discriminate.
  intros [= <-]; reflexivity.
Qed.

Lemma lookup_fresh h o : (h ++ [o]) !! length h = Some o.
Proof. rewrite lookup_app_r by lia. by rewrite Nat.sub_diag. Qed.

Lemma lookup_old h h' l o : h !! l = Some o -> (h ++ h') !! l = Some o.
Proof. apply lookup_app_l_Some. Qed.

Lemma insert_fresh h o o' : <[length h := o']> (h ++ [o]) = h ++ [o'].
Proof.
  rewrite insert_app_r_alt by lia. by rewrite Nat.sub_diag.
Qed.

Lemma view_at_fresh h o : view_at (h ++ [o]) (length h) = view o.
Proof. unfold view_at. by rewrite lookup_fresh. Qed.

Lemma view_at_old h h' l r : view_at h l = Some r -> view_at (h ++ h') l = Some r.
Proof.
  unfold view_at. destruct (h !! l) as [o|] eqn:Ho; [|discriminate].
  by rewrite (lookup_old _ _ _ _ Ho).
Qed.

Lemma view_at_lt h h' l : (l < length h)%nat -> view_at (h ++ h') l = view_at h l.
Proof. intros Hl. unfold view_at. by rewrite lookup_app_l. Qed.

Lemma view_at_Some h l r :
  view_at h l = Some r -> exists o, h !! l = Some o /\ view o = Some r.
Proof.
  unfold view_at. destruct (h !! l) as [o|]; [|discriminate]. eauto.
Qed.

Lemma view_at_valid h l r : view_at h l = Some r -> (l < length h)%nat.
Proof.
  intros (o & Ho & _)%view_at_Some. by eapply lookup_lt_Some.
Qed.

Lemma class_at_old h h' l k : class_at h l = Some k -> class_at (h ++ h') l = Some k.
Proof.
  unfold class_at. destruct (h !! l) as [o|] eqn:Ho; [|discriminate].
  by rewrite (lookup_old _ _ _ _ Ho).
Qed.

Lemma deref_run h l o : h !! l = Some o -> deref l h = (inr o, h).
Proof. intros H. unfold deref. by rewrite H. Qed.

Lemma load_run h l r : view_at h l = Some r -> load l h = (inr r, h).
Proof.
  intros (o & Ho & Hv)%view_at_Some. unfold load, bind.
  rewrite (deref_run _ _ _ Ho), Hv. reflexivity.
Qed.

Lemma isinstance_run h l o K :
  h !! l = Some o -> isinstance l K h = (inr (issubclass (cls o) K), h).
Proof. intros H. unfold isinstance, bind. by rewrite (deref_run _ _ _ H). Qed.

Lemma truthy_ref_run h l r :
  view_at h l = Some r ->
  truthy (VRef l) h = (inr (negb (len r =? 0)), h).
Proof. intros H. unfold truthy, bind. by rewrite (load_run _ _ _ H). Qed.

(** Assignment to an attribute of a mutable object that was just created. *)
Lemma setattr_fresh h o name v :
  has_Immutable_mixin (cls o) = false ->
  setattr (length h) name v (h ++ [o])
  = (inr tt, h ++ [mkObject (cls o) (attr_set name v (attrs o))]).
Proof.
  intros Hm. unfold setattr, bind.
  rewrite (deref_run _ _ _ (lookup_fresh h o)), Hm.
  unfold object_setattr. by rewrite lookup_fresh, insert_fresh.
Qed.

Lemma clone_class_mutable k : has_Immutable_mixin (Algebra.clone_class k) = false.
Proof. by destruct k. Qed.

Lemma clone_run h l o :
  h !! l = Some o ->
  Algebra.clone l h
  = (inr (length h), h ++ [mkObject (Algebra.clone_class (cls o)) (attrs o)]).
Proof.
  intros H. unfold Algebra.clone, bind. by rewrite (deref_run _ _ _ H).
Qed.

Lemma view_derived o r tl its :
  view o = Some r ->
  view (derived o tl its) = Some (mkRdataset (rdclass r) (rdtype r) (covers r) tl its).
Proof. apply view_set_ttl_items. Qed.

Lemma view_derived_items o r its :
  view o = Some r ->
  view (derived_items o its)
  = Some (mkRdataset (rdclass r) (rdtype r) (covers r) (ttl r) its).
Proof. apply view_set_items. Qed.

Lemma union_update_fresh h o a other b :
  has_Immutable_mixin (cls o) = false ->
  view o = Some a -> view_at h other = Some b ->
  Algebra.union_update (length h) other (h ++ [o])
  = (inr tt, h ++ [mkObject (cls o)
                     (attr_set "items" (VItems (items (Algebra.union_rds a b)))
                        (attr_set "ttl" (VInt (ttl (Algebra.union_rds a b))) (attrs o)))]).
Proof.
  intros Hm Ha Hb. unfold Algebra.union_update, bind.
  rewrite (load_run (h ++ [o]) (length h) a) by (by rewrite view_at_fresh).
  rewrite (load_run _ _ _ (view_at_old _ [o] _ _ Hb)).
  rewrite (setattr_fresh _ _ _ _ Hm).
  by rewrite setattr_fresh.
Qed.

Lemma union_run h a b o ra rb :
  h !! a = Some o -> view o = Some ra -> view_at h b = Some rb ->
  Algebra.union a b h
  = (inr (length h),
     h ++ [derived o (ttl (Algebra.union_rds ra rb)) (items (Algebra.union_rds ra rb))]).
Proof.
  intros Ho Ha Hb. unfold Algebra.union, bind.
  rewrite (clone_run _ _ _ Ho).
  rewrite (union_update_fresh h _ ra b rb); [reflexivity| apply clone_class_mutable |assumption..].
Qed.

Lemma intersection_run h a b o ra rb :
  h !! a = Some o -> view o = Some ra -> view_at h b = Some rb ->
  Algebra.intersection a b h
  = (inr (length h),
     h ++ [derived o (ttl (Algebra.intersection_rds ra rb))
                     (items (Algebra.intersection_rds ra rb))]).
Proof.
  intros Ho Ha Hb. unfold Algebra.intersection, Algebra.intersection_update, bind.
  rewrite (clone_run _ _ _ Ho).
  rewrite (load_run (h ++ [_]) (length h) ra) by (by rewrite view_at_fresh).
  rewrite (load_run _ _ _ (view_at_old _ [_] _ _ Hb)).
  rewrite setattr_fresh by apply clone_class_mutable.
  rewrite setattr_fresh by apply clone_class_mutable.
  reflexivity.
Qed.

Lemma difference_run h a b o ra rb :
  h !! a = Some o -> view o = Some ra -> view_at h b = Some rb ->
  Algebra.difference a b h
  = (inr (length h),
     h ++ [derived_items o (items (Algebra.difference_rds ra rb))]).
Proof.
  intros Ho Ha Hb. unfold Algebra.difference, Algebra.difference_update, bind.
  rewrite (clone_run _ _ _ Ho).
  rewrite (load_run (h ++ [_]) (length h) ra) by (by rewrite view_at_fresh).
  rewrite (load_run _ _ _ (view_at_old _ [_] _ _ Hb)).
  rewrite setattr_fresh by apply clone_class_mutable.
  reflexivity.
Qed.

Lemma ne_run h a b ra rb :
  view_at h a = Some ra -> view_at h b = Some rb ->
  Algebra.ne a b h = (inr (negb (Algebra.eq_rds ra rb)), h).
Proof.
  intros Ha Hb. unfold Algebra.ne, bind.
  by rewrite (load_run _ _ _ Ha), (load_run _ _ _ Hb).
Qed.

End HeapFacts.

(* ===================================================================== *)
(** * The immutability guard *)
(* ===================================================================== *)

Section Sealing.

Implicit Types (h : Heap) (o : Object) (l : loc) (r : Rdataset).

Lemma locked_sealed l o : sealed o -> Immutable.locked l o = true.
Proof. intros [_ H]. unfold Immutable.locked, hasattr. by rewrite H. Qed.

Lemma setattr_sealed h l o name v :
  h !! l = Some o -> sealed o ->
  setattr l name v h = (inl Immutable.no_assignment, h).
Proof.
  intros Ho Hs. unfold setattr, Immutable.__setattr__, bind.
  rewrite (deref_run _ _ _ Ho). destruct Hs as [Hc Hs]. rewrite Hc. simpl.
  rewrite (deref_run _ _ _ Ho), (locked_sealed l o); [reflexivity | by split].
Qed.

Lemma delattr_sealed h l o name :
  h !! l = Some o -> sealed o ->
  delattr l name h = (inl Immutable.no_assignment, h).
Proof.
  intros Ho Hs. unfold delattr, Immutable.__delattr__, bind.
  rewrite (deref_run _ _ _ Ho). destruct Hs as [Hc Hs]. rewrite Hc. simpl.
  rewrite (deref_run _ _ _ Ho), (locked_sealed l o); [reflexivity | by split].
Qed.

(** Assignment during construction: the object is new, of the immutable
    class, and its [_immutable_init] attribute is the object itself. *)
Lemma setattr_init h o name v :
  cls o = KImmutableRdataset ->
  attr_get "_immutable_init" (attrs o) = Some (VRef (length h)) ->
  setattr (length h) name v (h ++ [o])
  = (inr tt, h ++ [mkObject KImmutableRdataset (attr_set name v (attrs o))]).
Proof.
  intros Hc Hi. unfold setattr, Immutable.__setattr__, bind.
  rewrite (deref_run _ _ _ (lookup_fresh h o)), Hc. simpl.
  rewrite (deref_run _ _ _ (lookup_fresh h o)).
  unfold Immutable.locked, hasattr. rewrite Hi.
  rewrite bool_decide_eq_true_2 by reflexivity. simpl.
  unfold object_setattr. by rewrite lookup_fresh, insert_fresh, Hc.
Qed.

(** The constructor returns a new object, with the attributes of its
    argument, sealed. *)
Lemma ImmutableRdataset_run h l r :
  view_at h l = Some r ->
  Algebra.ImmutableRdataset l h
  = (inr (length h), h ++ [mkObject KImmutableRdataset (mk_attrs r)]).
Proof.
  intros Hv.
  unfold Algebra.ImmutableRdataset, _immutable_init,
    Algebra.ImmutableRdataset__init__, new_object, bind, finally.
  rewrite (deref_run _ _ _ (lookup_fresh h _)). simpl.
  unfold object_setattr at 1. rewrite lookup_fresh, insert_fresh. simpl.
  rewrite (load_run _ _ _ (view_at_old _ [_] _ _ Hv)).
  do 6 (rewrite setattr_init by reflexivity; simpl).
  unfold object_delattr. rewrite lookup_fresh, insert_fresh. simpl.
  reflexivity.
Qed.

Lemma sealed_mk_attrs r : sealed (mkObject KImmutableRdataset (mk_attrs r)).
Proof. by split. Qed.

Lemma heap_sealed_app h o :
  heap_sealed h -> (cls o = KImmutableRdataset -> sealed o) -> heap_sealed (h ++ [o]).
Proof.
  intros Hh Ho. apply Forall_app. split; [exact Hh|]. by constructor.
Qed.

Lemma heap_sealed_lookup h l o :
  heap_sealed h -> h !! l = Some o -> cls o = KImmutableRdataset -> sealed o.
Proof. intros Hh Hl. by apply (proj1 (Forall_lookup _ h) Hh l o). Qed.

End Sealing.

(* ===================================================================== *)
(** * Running the core *)
(* ===================================================================== *)

Section Guard.

Context {E : Externals} {S : Type} {B : Backend S}.

Import Transaction.

(** The guard of [add], [replace], [delete] and [delete_exact] fires before
    anything else happens: the world, its log included, is untouched. *)
Lemma read_only_guard (self : Transaction) (args : list Arg) (w : World S) :
  read_only self = true ->
  add self args w = (inl ReadOnly, w) /\
  replace self args w = (inl ReadOnly, w) /\
  delete self args w = (inl ReadOnly, w) /\
  delete_exact self args w = (inl ReadOnly, w).
Proof.
  intros H. unfold add, replace, delete, delete_exact, _check_read_only, bind.
  rewrite H. auto.
Qed.

End Guard.

Section Get.

Context {E : Externals} {S : Type} {B : Backend S}.

Import Transaction.

Lemma as_name_run name (w : World S) : as_name name w = (name_of name, w).
Proof. by destruct name. Qed.

(** What [get] does once its arguments are converted: one point lookup,
    then the wrapping of what was found. *)
Lemma get_run self name c t v (w : World S) n c' t' :
  name_of name = inr n -> RdataClass_make c = inr c' -> RdataType_make t = inr t' ->
  get self name c t v w
  = match be_get_rdataset self (heap w) n c' t' v (store w) with
    | (inr (Some l), s') =>
        let w1 := mkWorld (heap w) s' (log w ++ [CGet n c' t' v]) in
        match on_heap (isinstance l KImmutableRdataset) w1 with
        | (inr imm, w2) =>
            if negb imm
            then match on_heap (Algebra.ImmutableRdataset l) w2 with
                 | (inr l', w3) => (inr (Some l'), w3)
                 | (inl e, w3) => (inl e, w3)
                 end
            else (inr (Some l), w2)
        | (inl e, w2) => (inl e, w2)
        end
    | (inr None, s') => (inr None, mkWorld (heap w) s' (log w ++ [CGet n c' t' v]))
    | (inl e, s') => (inl e, mkWorld (heap w) s' (log w ++ [CGet n c' t' v]))
    end.
Proof.
  intros Hn Hc Ht. unfold get, bind. rewrite as_name_run, Hn.
  unfold liftR. rewrite Hc, Ht.
  unfold _get_rdataset, backend_call.
  destruct (be_get_rdataset self (heap w) n c' t' v (store w)) as [[e|[l|]] s'];
    try reflexivity.
  cbn beta iota zeta.
  destruct (on_heap (isinstance l KImmutableRdataset) _) as [[e|imm] w2]; [reflexivity|].
  destruct imm; reflexivity.
Qed.

End Get.

Section GetImmutable.

Context {E : Externals} {S : Type} {B : Backend S}.

Import Transaction.

(** C8, as amended.  When the point lookup finds nothing, [get] returns
    [None] and raises nothing.  When it finds a record set, [get] returns an
    immutable record set with the same content: a new object, distinct from
    the one the backend holds, when the backend's object is mutable, and the
    backend's object itself when that is already immutable.  Every attribute
    assignment and deletion on the returned object raises [TypeError] and
    leaves the heap, hence the backend's object, as it was. *)
Theorem get_immutable_or_none self name c t v (w : World S) n c' t' found s' :
  name_of name = inr n ->
  RdataClass_make c = inr c' ->
  RdataType_make t = inr t' ->
  be_get_rdataset self (heap w) n c' t' v (store w) = (inr found, s') ->
  heap_sealed (heap w) ->
  (forall l, found = Some l -> is_Some (view_at (heap w) l)) ->
  let lg := log w ++ [CGet n c' t' v] in
  match found with
  | None => get self name c t v w = (inr None, mkWorld (heap w) s' lg)
  | Some l =>
      exists l' h',
        get self name c t v w = (inr (Some l'), mkWorld h' s' lg) /\
        (if bool_decide (class_at (heap w) l = Some KImmutableRdataset)
         then l' = l /\ h' = heap w
         else l' = length (heap w) /\ l' <> l /\ exists o, h' = heap w ++ [o]) /\
        class_at h' l' = Some KImmutableRdataset /\
        view_at h' l' = view_at (heap w) l /\
        view_at h' l = view_at (heap w) l /\
        (forall a x, setattr l' a x h' = (inl Immutable.no_assignment, h')) /\
        (forall a, delattr l' a h' = (inl Immutable.no_assignment, h'))
  end.
Proof.
  intros Hn Hc Ht Hget Hseal Hfound lg.
  rewrite (get_run self name c t v w n c' t' Hn Hc Ht), Hget.
  destruct found as [l|]; [|reflexivity].
  destruct (Hfound l eq_refl) as [r Hr].
  destruct (view_at_Some _ _ _ Hr) as (o & Ho & Hv).
  cbn beta iota zeta. unfold on_heap at 1. cbn [heap store log].
  rewrite (isinstance_run _ _ _ _ Ho). cbn [issubclass].
  assert (Hcls : class_at (heap w) l = Some (cls o)) by (unfold class_at; by rewrite Ho).
  rewrite Hcls.
  destruct (decide (cls o = KImmutableRdataset)) as [Hk|Hk].
  - rewrite Hk. cbn [negb].
    rewrite bool_decide_eq_true_2 by congruence.
    pose proof (heap_sealed_lookup _ _ _ Hseal Ho Hk) as Hs.
    exists l, (heap w). repeat split; try congruence.
    + intros a x. by eapply setattr_sealed.
    + intros a. by eapply delattr_sealed.
  - replace (match cls o with KImmutableRdataset => true | _ => false end)
      with false by (by destruct (cls o)).
    cbn [negb].
    rewrite bool_decide_eq_false_2 by congruence.
    unfold on_heap. cbn [heap store log].
    rewrite (ImmutableRdataset_run _ _ _ Hr).
    eexists _, _. split; [reflexivity|].
    pose proof (view_at_valid _ _ _ Hr) as Hlt.
    repeat split.
    + lia.
    + by eexists.
    + unfold class_at. by rewrite lookup_fresh.
    + by rewrite view_at_fresh, view_mk_attrs.
    + by apply view_at_lt.
    + intros a x. eapply setattr_sealed; [apply lookup_fresh | apply sealed_mk_attrs].
    + intros a. eapply delattr_sealed; [apply lookup_fresh | apply sealed_mk_attrs].
Qed.

End GetImmutable.

(* ===================================================================== *)
(** * What a computation adds to the log *)
(* ===================================================================== *)

Section Logs.

Context {S : Type}.
Implicit Types (P : Call -> Prop).

Lemma logs_only_ret {A} P (a : A) : logs_only (S:=S) P (ret a).
Proof. intros w. exists []. cbn. by rewrite app_nil_r. Qed.

Lemma logs_only_raise {A} P e : logs_only (S:=S) (A:=A) P (raise e).
Proof. intros w. exists []. cbn. by rewrite app_nil_r. Qed.

Lemma logs_only_liftR {A} P (r : Res A) : logs_only (S:=S) P (liftR r).
Proof. intros w. exists []. cbn. by rewrite app_nil_r. Qed.

Lemma logs_only_on_heap {A} P (m : St Heap A) : logs_only (S:=S) P (on_heap m).
Proof.
  intros w. unfold appends. exists []. unfold on_heap. destruct (m (heap w)); simpl.
  by rewrite app_nil_r.
Qed.

Lemma logs_only_call {A} P c (f : Heap -> S -> Res A * S) :
  (forall h, P (c h)) -> logs_only P (backend_call c f).
Proof.
  intros Hc w. unfold appends. exists [c (heap w)]. unfold backend_call.
  destruct (f (heap w) (store w)); simpl. split; [reflexivity|]. by constructor.
Qed.

Lemma logs_only_bind {A C} P (m : St (World S) A) (f : A -> St (World S) C) :
  logs_only P m -> (forall a, logs_only P (f a)) -> logs_only P (bind m f).
Proof.
  intros Hm Hf w. unfold appends, bind. destruct (Hm w) as (l1 & E1 & F1).
  destruct (m w) as [[e|a] w1]; simpl in *; [by exists l1|].
  destruct (Hf a w1) as (l2 & E2 & F2).
  exists (l1 ++ l2). rewrite E2, E1, app_assoc. split; [reflexivity|].
  by apply Forall_app.
Qed.

Lemma logs_only_except {A} P (m k : St (World S) A) :
  logs_only P m -> logs_only P k -> logs_only P (except_IndexError m k).
Proof.
  intros Hm Hk w. unfold appends, except_IndexError. destruct (Hm w) as (l1 & E1 & F1).
  destruct (m w) as [r w1]; simpl in *.
  destruct (is_IndexError r); [|by exists l1].
  destruct (Hk w1) as (l2 & E2 & F2).
  exists (l1 ++ l2). rewrite E2, E1, app_assoc. split; [reflexivity|].
  by apply Forall_app.
Qed.

End Logs.

Ltac logs_step :=
  first
    [ apply logs_only_ret
    | apply logs_only_raise
    | apply logs_only_liftR
    | apply logs_only_on_heap
    | apply logs_only_call; intros; exact I
    | apply logs_only_except
    | apply logs_only_bind; [| intros ?]
    | match goal with
      | |- logs_only _ (match ?x with _ => _ end) => destruct x
      end ].

Section NeverEnds.

Context {E : Externals} {S : Type} {B : Backend S}.

Import Transaction.

Lemma _rdataset_from_args_never_ends method deleting args :
  logs_only (S:=S) not_end (_rdataset_from_args method deleting args).
Proof.
  unfold _rdataset_from_args, popleft, isinstance_arg. repeat logs_step.
Qed.

Lemma _add_never_ends self replace args :
  logs_only (S:=S) not_end (_add self replace args).
Proof.
  unfold _add, _add_resolve, _add_apply, popleft, text_to_name, isinstance_arg,
    rrset_name, _raise_if_not_empty, not_None, _get_rdataset, _put_rdataset.
  repeat first [apply _rdataset_from_args_never_ends | logs_step].
Qed.

Lemma _delete_never_ends self exact args :
  logs_only (S:=S) not_end (_delete self exact args).
Proof.
  unfold _delete, _delete_resolve, _delete_by_type, _delete_apply, popleft,
    text_to_name, isinstance_arg, rrset_name, _raise_if_not_empty,
    truthy_rdataset, _get_rdataset, _put_rdataset, _delete_rdataset,
    _delete_name, _name_exists.
  repeat first [apply _rdataset_from_args_never_ends | logs_step].
Qed.

(** No operation of the high-level API ends the transaction. *)
Lemma api_never_ends self :
  (forall name c t v, logs_only (S:=S) not_end (get self name c t v)) /\
  (forall args, logs_only (S:=S) not_end (add self args)) /\
  (forall args, logs_only (S:=S) not_end (replace self args)) /\
  (forall args, logs_only (S:=S) not_end (delete self args)) /\
  (forall args, logs_only (S:=S) not_end (delete_exact self args)) /\
  (forall name, logs_only (S:=S) not_end (name_exists self name)) /\
  (forall inc value name c, logs_only (S:=S) not_end (set_serial self inc value name c)).
Proof.
  repeat split; intros;
    unfold get, add, replace, delete, delete_exact, name_exists, set_serial,
      as_name, _check_read_only, _get_rdataset, _name_exists;
    repeat first [apply _add_never_ends | apply _delete_never_ends | logs_step
                 | progress unfold replace, _check_read_only].
Qed.

Lemma ends_app l1 l2 : ends (l1 ++ l2) = ends l1 ++ ends l2.
Proof. unfold ends. apply omap_app. Qed.

Lemma ends_not_end lg : Forall not_end lg -> ends lg = [].
Proof.
  induction 1 as [|c lg Hc _ IH]; [reflexivity|].
  unfold ends in *. destruct c; simpl in *; solve [assumption | contradiction].
Qed.

(** C7, as amended.  A scoped block whose body does not end the transaction
    itself ends it exactly once, on exit: with [commit = true] when the body
    finished without an error and with [commit = false] when it raised.
    The end call is the last call of the block, and the only end call the
    block adds to those the log already holds.  The outcome of the block is
    the outcome of the body, so the error of the body reaches the caller,
    unless ending the transaction raises in its turn: then that error is
    the outcome. *)
Theorem scoped_block_ends_once txn (body : Transaction -> St (World S) unit)
    (w : World S) :
  logs_only not_end (body txn) ->
  let r1 := (body txn w).1 in
  let w1 := (body txn w).2 in
  let re := (be_end_transaction txn (heap w1) (returned r1) (store w1)).1 in
  let s' := (be_end_transaction txn (heap w1) (returned r1) (store w1)).2 in
  with_ txn body w
  = (match re with inl e' => inl e' | inr _ => r1 end,
     mkWorld (heap w1) s' (log w1 ++ [CEnd (returned r1)])) /\
  ends (log (with_ txn body w).2) = ends (log w) ++ [returned r1].
Proof.
  intros Hbody r1 w1 re s'.
  assert (Hrun : with_ txn body w
    = (match re with inl e' => inl e' | inr _ => r1 end,
       mkWorld (heap w1) s' (log w1 ++ [CEnd (returned r1)]))).
  { subst r1 w1 re s'. unfold with_, __enter__, __exit__, bind, ret,
      _end_transaction, backend_call.
    destruct (body txn w) as [[e|[]] w1]; simpl;
      destruct (be_end_transaction _ _ _ _) as [[e'|[]] s']; reflexivity. }
  split; [exact Hrun|].
  rewrite Hrun. simpl.
  destruct (Hbody w) as (lg & Hlg & Hne). fold w1 in Hlg.
  rewrite Hlg, !ends_app, (ends_not_end _ Hne). simpl. by rewrite app_nil_r.
Qed.

End NeverEnds.

(* ===================================================================== *)
(** * The argument normalizer *)
(* ===================================================================== *)

Ltac unfold_core :=
  unfold Transaction.add, Transaction.replace, Transaction.delete,
    Transaction.delete_exact, Transaction._check_read_only,
    Transaction._add, Transaction._add_resolve, Transaction._add_apply,
    Transaction._delete, Transaction._delete_resolve, Transaction._delete_apply,
    Transaction._delete_by_type, Transaction._rdataset_from_args,
    Transaction._raise_if_not_empty, Transaction.not_None,
    Transaction.text_to_name, Transaction.isinstance_arg,
    Transaction.rrset_name, Transaction.popleft, Transaction.truthy_rdataset,
    Transaction._get_rdataset, Transaction._put_rdataset,
    Transaction._delete_name, Transaction._delete_rdataset,
    Transaction._name_exists, Transaction._end_transaction,
    except_IndexError, bind, ret, raise, liftR, on_heap, backend_call.

Section Normalizer.

Context {E : Externals} {S : Type} {B : Backend S}.

Import Transaction.

Implicit Types (w : World S) (h : Heap) (o : Object).

(** A record-set object is taken as it is. *)
Lemma _rdataset_from_args_ref method deleting b rest h (s : S) lg o :
  h !! b = Some o ->
  _rdataset_from_args method deleting (ARef b :: rest) (mkWorld h s lg)
  = (inr (Some b, rest), mkWorld h s lg).
Proof.
  intros Ho. unfold_core. cbn.
  rewrite (isinstance_run _ _ _ _ Ho). reflexivity.
Qed.

(** When deleting, a record-data value becomes a new one-member record set
    with TTL zero. *)
Lemma _rdataset_from_args_rdata method rd rest h (s : S) lg :
  _rdataset_from_args method true (ARdata rd :: rest) (mkWorld h s lg)
  = (inr (Some (length h), rest),
     mkWorld (h ++ [mkObject KRdataset
                      (mk_attrs (mkRdataset (rd_rdclass rd) (rd_rdtype rd)
                                            (rd_covers rd) 0 [rd]))]) s lg).
Proof. reflexivity. Qed.

(** When adding, a TTL and a record-data value become a new one-member
    record set. *)
Lemma _rdataset_from_args_ttl method tl rd rest h (s : S) lg :
  (tl >? MAX_TTL) = false ->
  _rdataset_from_args method false (AInt tl :: ARdata rd :: rest) (mkWorld h s lg)
  = (inr (Some (length h), rest),
     mkWorld (h ++ [mkObject KRdataset
                      (mk_attrs (mkRdataset (rd_rdclass rd) (rd_rdtype rd)
                                            (rd_covers rd) tl [rd]))]) s lg).
Proof. intros Htl. unfold_core. cbn. rewrite Htl. reflexivity. Qed.

(** When deleting, no further argument means no record set at all. *)
Lemma _rdataset_from_args_none method w :
  _rdataset_from_args method true [] w = (inr (None, []), w).
Proof. reflexivity. Qed.

Lemma union_rds_empty c t v tl r :
  NoDup (items r) -> rdclass r = c -> rdtype r = t -> covers r = v ->
  Algebra.union_rds (mkRdataset c t v tl []) r
  = r.
Proof.
  intros Hnd <- <- <-. destruct r as [c t v tl' its]. unfold Algebra.union_rds.
  cbn. f_equal.
  assert (Hgen : forall acc, NoDup (acc ++ its) ->
            fold_left Algebra.add_item its acc = acc ++ its).
  { clear. induction its as [|x its IH]; intros acc Hnd; simpl.
    - by rewrite app_nil_r.
    - unfold Algebra.add_item at 2. unfold Algebra.member.
      rewrite bool_decide_eq_false_2.
      + rewrite IH; rewrite <- app_assoc; [reflexivity | exact Hnd].
      + apply NoDup_app in Hnd as (_ & Hd & _). intros Hin.
        apply (Hd x Hin). by left. }
  apply (Hgen []). exact Hnd.
Qed.

(** The first argument is an RRset, for [add] and [replace]: its name is
    read, and its members are copied into a new, plain record set. *)
Lemma _add_resolve_rrset method rrset rest h (s : S) lg o n r :
  h !! rrset = Some o -> cls o = KRRset ->
  attr_get "name" (attrs o) = Some (VName n) -> view o = Some r ->
  _add_resolve method (ARef rrset :: rest) (mkWorld h s lg)
  = (inr (n, Some (length h), rest),
     mkWorld (h ++ [mkObject KRdataset
                      (mk_attrs (Algebra.union_rds
                                   (mkRdataset (rdclass r) (rdtype r) (covers r) (ttl r) [])
                                   r))]) s lg).
Proof.
  intros Ho Hc Hn Hv. unfold_core. cbn.
  rewrite (isinstance_run _ _ _ _ Ho), Hc. cbn.
  rewrite (deref_run _ _ _ Ho). cbn. rewrite Hn. cbn.
  assert (Hva : view_at h rrset = Some r) by (unfold view_at; by rewrite Ho).
  rewrite (load_run _ _ _ Hva). cbn.
  erewrite union_update_fresh;
    [reflexivity | reflexivity | apply view_mk_attrs | exact Hva].
Qed.

(** The first argument is an RRset, for [delete] and [delete_exact]: its
    name is read, and the RRset itself is the record set. *)
Lemma _delete_resolve_rrset self exact method rrset rest h (s : S) lg o n :
  h !! rrset = Some o -> cls o = KRRset ->
  attr_get "name" (attrs o) = Some (VName n) ->
  _delete_resolve self exact method (ARef rrset :: rest) (mkWorld h s lg)
  = (inr (Some (n, Some rrset, rest)), mkWorld h s lg).
Proof.
  intros Ho Hc Hn. unfold_core. cbn.
  rewrite (isinstance_run _ _ _ _ Ho), Hc. cbn.
  rewrite (deref_run _ _ _ Ho). cbn. rewrite Hn. reflexivity.
Qed.

(** C10, as amended.  When the first argument is an RRset, [add] and
    [replace] read its name and copy its members into a new plain record
    set, which is what the rest of the method works on; the RRset is left
    as it was.  [delete] and [delete_exact] read its name and work on the
    RRset itself: nothing is copied and no object is created. *)
Theorem rrset_argument_normalized self exact method rrset rest h (s : S) lg o n r :
  h !! rrset = Some o -> cls o = KRRset ->
  attr_get "name" (attrs o) = Some (VName n) -> view o = Some r ->
  NoDup (items r) ->
  (exists h',
     _add_resolve method (ARef rrset :: rest) (mkWorld h s lg)
     = (inr (n, Some (length h), rest), mkWorld h' s lg) /\
     h' = h ++ [mkObject KRdataset (mk_attrs r)] /\
     length h <> rrset /\
     class_at h' (length h) = Some KRdataset /\
     view_at h' (length h) = Some r /\
     h' !! rrset = Some o) /\
  _delete_resolve self exact method (ARef rrset :: rest) (mkWorld h s lg)
  = (inr (Some (n, Some rrset, rest)), mkWorld h s lg).
Proof.
  intros Ho Hc Hn Hv Hnd. split; [|by eapply _delete_resolve_rrset].
  eexists. split; [by eapply _add_resolve_rrset|].
  rewrite union_rds_empty by done.
  pose proof (lookup_lt_Some _ _ _ Ho).
  repeat split.
  - lia.
  - unfold class_at. by rewrite lookup_fresh.
  - by rewrite view_at_fresh, view_mk_attrs.
  - by apply lookup_old.
Qed.

End Normalizer.

(* ===================================================================== *)
(** * [set_serial] *)
(* ===================================================================== *)

Section SetSerial.

Context {E : Externals} {S : Type} {B : Backend S}.

Import Transaction.

(** [replace] with a name and a record-set object is one call of
    [_put_rdataset], inside the handler of [_add]. *)
Lemma replace_name_rdataset_run self n b h (s : S) lg o :
  read_only self = false -> h !! b = Some o ->
  replace self [AName n; ARef b] (mkWorld h s lg)
  = except_IndexError (_put_rdataset self n b)
      (raise (not_enough_parameters "replace()")) (mkWorld h s lg).
Proof.
  intros Hro Ho. unfold replace, _check_read_only, bind at 1. rewrite Hro.
  cbn [ret]. unfold _add, except_IndexError, bind at 1.
  unfold _add_resolve, bind at 1. cbn [popleft ret].
  cbn [text_to_name ret bind]. unfold bind at 1.
  rewrite (_rdataset_from_args_ref _ _ _ _ _ _ _ _ Ho).
  reflexivity.
Qed.

(** C1, as amended.  When the SOA record set at the name is not empty,
    [set_serial] takes [value] when one is given and the current serial
    otherwise, adds [increment] to it in both cases, resets the sum to 1
    when it is outside [1, 0xFFFFFFFF], and writes, through [replace], a
    one-member record set holding the first SOA record with that serial and
    nothing else changed. *)
Theorem set_serial_writes self increment value name c (w : World S)
    n l s1 r rd0 rest cur :
  read_only self = false ->
  name_of name = inr n ->
  be_get_rdataset self (heap w) n c rdatatype_SOA rdatatype_NONE (store w)
  = (inr (Some l), s1) ->
  view_at (heap w) l = Some r ->
  items r = rd0 :: rest ->
  rd_serial rd0 = Some cur ->
  let base := match value with Some v => v | None => cur end in
  let sum := base + increment in
  let serial := if (sum >? 0xffffffff) || (sum <? 1) then 1 else sum in
  let rdata := mkRdata (rd_rdclass rd0) (rd_rdtype rd0) (rd_covers rd0)
                       (Some serial) (rd_text rd0) in
  let new := mkRdataset (rd_rdclass rd0) (rd_rdtype rd0) (rd_covers rd0)
                        (ttl r) [rdata] in
  let fresh := length (heap w) in
  let h' := heap w ++ [mkObject KRdataset (mk_attrs new)] in
  let lg := log w ++ [CGet n c rdatatype_SOA rdatatype_NONE] in
  set_serial self increment value name c w
  = except_IndexError (_put_rdataset self n fresh)
      (raise (not_enough_parameters "replace()")) (mkWorld h' s1 lg) /\
  log (set_serial self increment value name c w).2
  = lg ++ [CPut n fresh (Some new)].
Proof.
  intros Hro Hn Hget Hv Hits Hcur base sum serial rdata new fresh h' lg.
  assert (Hrun : set_serial self increment value name c w
    = except_IndexError (_put_rdataset self n fresh)
        (raise (not_enough_parameters "replace()")) (mkWorld h' s1 lg)).
  { destruct w as [h s lg0]. cbn [heap store log] in *.
    unfold set_serial, bind at 1. rewrite as_name_run, Hn.
    unfold bind at 1. unfold _get_rdataset at 1, backend_call.
    cbn [heap store log]. rewrite Hget.
    unfold bind at 1, on_heap at 1. cbn [heap store log].
    rewrite (load_run _ _ _ Hv).
    assert (Hlen : (len r =? 0) = false).
    { unfold len. rewrite Hits. simpl. lia. }
    rewrite Hlen.
    unfold bind at 1, liftR at 1, Algebra.first. rewrite Hits.
    unfold bind at 1, liftR at 1, new_serial, Algebra.serial. rewrite Hcur.
    replace (match match value with Some v => inr v | None => inr cur end with
             | inr serial0 =>
                 inr (if (serial0 + increment >? 4294967295)
                         || (serial0 + increment <? 1)
                      then 1 else serial0 + increment)
             | inl e => inl e
             end) with (inr (B:=Z) (A:=Exception) serial)
      by (subst serial sum base; by destruct value).
    unfold bind at 1, liftR at 1, Algebra.replace_serial. rewrite Hcur.
    unfold bind at 1, on_heap at 1. cbn [heap store log Algebra.from_rdata alloc].
    cbn [rd_rdclass rd_rdtype rd_covers].
    apply (replace_name_rdataset_run self n (length h) _ s1 _
             (mkObject KRdataset (mk_attrs new)) Hro).
    apply lookup_fresh. }
  split; [exact Hrun|].
  rewrite Hrun. unfold except_IndexError, _put_rdataset, backend_call.
  cbn [heap store log].
  destruct (be_put_rdataset _ _ _ _ _) as [rp s2].
  subst fresh h'. rewrite view_at_fresh, view_mk_attrs.
  by destruct (is_IndexError rp).
Qed.

End SetSerial.

(* ===================================================================== *)
(** * The core over the reference backend *)
(* ===================================================================== *)

Section OverMemBackend.

Context {E : Externals}.

Import Transaction MemBackend.

Implicit Types (h : Heap) (st : State) (lg : list Call) (o : Object).

Lemma _put_rdataset_run self n l r h st lg :
  view_at h l = Some r ->
  _put_rdataset self n l (mkWorld h st lg)
  = (inr tt, mkWorld h (written st n r l) (lg ++ [CPut n l (Some r)])).
Proof.
  intros Hv. unfold _put_rdataset, backend_call. cbn. unfold mem_put.
  rewrite Hv. reflexivity.
Qed.

Lemma union_rds_selector a b : selector (Algebra.union_rds a b) = selector a.
Proof. reflexivity. Qed.

Lemma view_derived_union o a b :
  view o = Some a ->
  view (derived o (ttl (Algebra.union_rds a b)) (items (Algebra.union_rds a b)))
  = Some (Algebra.union_rds a b).
Proof. intros H. by rewrite (view_derived _ _ _ _ H). Qed.

Lemma view_derived_intersection o a b :
  view o = Some a ->
  view (derived o (ttl (Algebra.intersection_rds a b))
                  (items (Algebra.intersection_rds a b)))
  = Some (Algebra.intersection_rds a b).
Proof. intros H. by rewrite (view_derived _ _ _ _ H). Qed.

Lemma view_derived_difference o a b :
  view o = Some a ->
  view (derived_items o (items (Algebra.difference_rds a b)))
  = Some (Algebra.difference_rds a b).
Proof. intros H. by rewrite (view_derived_items _ _ _ H). Qed.

(** [replace] with a name and a record set: one point write, no lookup. *)
Lemma replace_run self n b r h st lg :
  read_only self = false -> view_at h b = Some r ->
  replace self [AName n; ARef b] (mkWorld h st lg)
  = (inr tt, mkWorld h (written st n r b) (lg ++ [CPut n b (Some r)])).
Proof.
  intros Hro Hv. destruct (view_at_Some _ _ _ Hv) as (o & Ho & _).
  rewrite (replace_name_rdataset_run self n b h st lg o Hro Ho).
  unfold except_IndexError. by rewrite (_put_rdataset_run _ _ _ _ _ _ _ Hv).
Qed.

(** [add] with a name and a record set, lines 216-233: the arguments are
    consumed and what remains is [_add_apply]. *)
Lemma add_name_rdataset_run self n b h st lg o :
  read_only self = false -> h !! b = Some o ->
  add self [AName n; ARef b] (mkWorld h st lg)
  = except_IndexError (_add_apply self false "add()" n (Some b) [])
      (raise (not_enough_parameters "add()")) (mkWorld h st lg).
Proof.
  intros Hro Ho. unfold add, _check_read_only, bind at 1. rewrite Hro.
  cbn [ret]. unfold _add, except_IndexError, bind at 1.
  unfold _add_resolve, bind at 1. cbn [popleft ret].
  cbn [text_to_name ret bind]. unfold bind at 1.
  rewrite (_rdataset_from_args_ref _ _ _ _ _ _ _ _ Ho).
  reflexivity.
Qed.

(** Nothing is stored at the selector: the new record set is written. *)
Lemma _add_apply_absent self method n b r h st lg :
  view_at h b = Some r ->
  nodes st !! (n, selector r) = None ->
  _add_apply self false method n (Some b) [] (mkWorld h st lg)
  = (inr tt,
     mkWorld h (written st n r b)
       (lg ++ [CGet n (rdclass r) (rdtype r) (covers r); CPut n b (Some r)])).
Proof.
  intros Hv Hnone. unfold_core. cbn.
  rewrite (load_run _ _ _ Hv). cbn. unfold mem_get.
  unfold selector in Hnone. rewrite Hnone. cbn. unfold mem_put. rewrite Hv.
  by rewrite <- app_assoc.
Qed.

(** A mutable record set is stored at the selector: the union is a new
    object, and it is written. *)
Lemma _add_apply_mutable self method n b r e oe a h st lg :
  view_at h b = Some r ->
  nodes st !! (n, selector r) = Some e ->
  h !! e = Some oe -> view oe = Some a -> cls oe <> KImmutableRdataset ->
  let u := Algebra.union_rds a r in
  _add_apply self false method n (Some b) [] (mkWorld h st lg)
  = (inr tt,
     mkWorld (h ++ [derived oe (ttl u) (items u)])
       (written st n u (length h))
       (lg ++ [CGet n (rdclass r) (rdtype r) (covers r);
               CPut n (length h) (Some u)])).
Proof.
  intros Hv He Hoe Ha Hk u. unfold_core. cbn.
  rewrite (load_run _ _ _ Hv). cbn. unfold mem_get.
  unfold selector in He. rewrite He. cbn.
  rewrite (isinstance_run _ _ _ _ Hoe).
  replace (issubclass (cls oe) KImmutableRdataset) with false
    by (by destruct (cls oe)).
  cbn. rewrite (union_run _ _ _ _ _ _ Hoe Ha Hv). cbn. unfold mem_put.
  rewrite view_at_fresh, (view_derived_union _ _ _ Ha).
  by rewrite <- app_assoc.
Qed.

(** An immutable record set is stored at the selector: it is first copied
    into a new mutable record set, the union is computed from the copy into
    a second new object, and that one is written. *)
Lemma _add_apply_immutable self method n b r e oe a h st lg :
  view_at h b = Some r ->
  nodes st !! (n, selector r) = Some e ->
  h !! e = Some oe -> view oe = Some a -> cls oe = KImmutableRdataset ->
  NoDup (items a) ->
  let u := Algebra.union_rds a r in
  let copy := mkObject KRdataset (mk_attrs a) in
  _add_apply self false method n (Some b) [] (mkWorld h st lg)
  = (inr tt,
     mkWorld (h ++ [copy; derived copy (ttl u) (items u)])
       (written st n u (S (length h)))
       (lg ++ [CGet n (rdclass r) (rdtype r) (covers r);
               CPut n (S (length h)) (Some u)])).
Proof.
  intros Hv He Hoe Ha Hk Hnd u copy. unfold_core. cbn.
  rewrite (load_run _ _ _ Hv). cbn. unfold mem_get.
  unfold selector in He. rewrite He. cbn.
  rewrite (isinstance_run _ _ _ _ Hoe), Hk. cbn.
  assert (Hea : view_at h e = Some a) by (unfold view_at; by rewrite Hoe).
  rewrite (load_run _ _ _ Hea). cbn.
  unfold Algebra.update.
  erewrite union_update_fresh; [| reflexivity | apply view_mk_attrs | exact Hea].
  cbn. rewrite union_rds_empty by done.
  replace (mkObject KRdataset
             [("items", VItems (items a)); ("rdclass", VInt (rdclass a));
              ("rdtype", VInt (rdtype a)); ("covers", VInt (covers a));
              ("ttl", VInt (ttl a))]) with copy by reflexivity.
  rewrite (union_run (h ++ [copy]) (length h) b copy a r);
    [| apply lookup_fresh | apply view_mk_attrs | by apply view_at_old].
  cbn. unfold mem_put.
  rewrite view_at_fresh, (view_derived_union copy a r (view_mk_attrs _ _)).
  rewrite length_app. cbn [length]. rewrite Nat.add_1_r.
  by rewrite <- !app_assoc.
Qed.

Lemma stored_Some h st lg k l :
  nodes st !! k = Some l -> stored (mkWorld h st lg) k = view_at h l.
Proof. intros H. unfold stored. cbn [heap store]. by rewrite H. Qed.

Lemma stored_None h st lg k :
  nodes st !! k = None -> stored (mkWorld h st lg) k = None.
Proof. intros H. unfold stored. cbn [heap store]. by rewrite H. Qed.

(** [get] on a selector that holds a record set. *)
Lemma get_stored_run self name c t v n c' t' l o r h st lg :
  name_of name = inr n -> RdataClass_make c = inr c' -> RdataType_make t = inr t' ->
  nodes st !! (n, (c', t', v)) = Some l -> h !! l = Some o -> view o = Some r ->
  exists l' h',
    get self name c t v (mkWorld h st lg)
    = (inr (Some l'), mkWorld h' st (lg ++ [CGet n c' t' v])) /\
    view_at h' l' = Some r /\
    class_at h' l' = Some KImmutableRdataset.
Proof.
  intros Hn Hc Ht Hl Ho Hv.
  rewrite (get_run self name c t v _ n c' t' Hn Hc Ht). cbn. unfold mem_get.
  rewrite Hl. cbn. unfold on_heap at 1. cbn.
  rewrite (isinstance_run _ _ _ _ Ho).
  assert (Hva : view_at h l = Some r) by (unfold view_at; by rewrite Ho).
  destruct (decide (cls o = KImmutableRdataset)) as [Hk|Hk].
  - rewrite Hk. cbn. exists l, h. repeat split; [exact Hva|].
    unfold class_at. rewrite Ho. cbn. by rewrite Hk.
  - replace (issubclass (cls o) KImmutableRdataset) with false
      by (by destruct (cls o)).
    cbn. unfold on_heap. cbn. rewrite (ImmutableRdataset_run _ _ _ Hva).
    eexists _, _. repeat split.
    + by rewrite view_at_fresh, view_mk_attrs.
    + unfold class_at. by rewrite lookup_fresh.
Qed.

(** ** [delete] and [delete_exact] *)

(** The record-set forms of [delete] and [delete_exact]: the arguments are
    consumed and what remains is [_delete_apply]. *)
Lemma _delete_name_rdataset_run self exact n b h st lg o :
  h !! b = Some o ->
  _delete self exact [AName n; ARef b] (mkWorld h st lg)
  = except_IndexError
      (_delete_apply self exact (if exact then "delete_exact()" else "delete()")
                     n (Some b) [])
      (raise (not_enough_parameters (if exact then "delete_exact()" else "delete()")))
      (mkWorld h st lg).
Proof.
  intros Ho. unfold _delete, except_IndexError, bind at 1.
  unfold _delete_resolve, bind at 1. cbn [popleft ret].
  cbn [text_to_name ret bind]. unfold bind at 1.
  rewrite (_rdataset_from_args_ref _ _ _ _ _ _ _ _ Ho).
  reflexivity.
Qed.

(** The name-only form. *)
Lemma _delete_name_only_run self exact n (w : World State) :
  _delete self exact [AName n] w
  = except_IndexError
      (_delete_apply self exact (if exact then "delete_exact()" else "delete()")
                     n None [])
      (raise (not_enough_parameters (if exact then "delete_exact()" else "delete()")))
      w.
Proof. reflexivity. Qed.

(** No record set, or an empty one: the whole name is deleted, after an
    existence check when the delete is exact. *)
Lemma _delete_apply_falsy self exact method n rdataset h st lg :
  match rdataset with
  | None => True
  | Some b => exists r, view_at h b = Some r /\ items r = []
  end ->
  _delete_apply self exact method n rdataset [] (mkWorld h st lg)
  = if exact
    then if known st n
         then (inr tt, mkWorld h (without_name st n)
                         (lg ++ [CNameExists n; CDeleteName n]))
         else (inl (DeleteNotExact (method +:+ ": name not known")),
               mkWorld h st (lg ++ [CNameExists n]))
    else (inr tt, mkWorld h (without_name st n) (lg ++ [CDeleteName n])).
Proof.
  intros Hfalsy.
  assert (Ht : truthy_rdataset rdataset (mkWorld h st lg)
               = (inr false, mkWorld h st lg)).
  { destruct rdataset as [b|]; [|reflexivity].
    destruct Hfalsy as (r & Hv & Hr). unfold truthy_rdataset, on_heap. cbn.
    rewrite (truthy_ref_run _ _ _ Hv). unfold len. by rewrite Hr. }
  unfold _delete_apply, bind at 1. cbn [_raise_if_not_empty length Nat.eqb negb ret].
  unfold bind at 1. rewrite Ht.
  destruct exact.
  - destruct rdataset; unfold_core; cbn; unfold mem_name_exists;
      fold (known st n); destruct (known st n); cbn;
      by rewrite <- ?app_assoc.
  - destruct rdataset; reflexivity.
Qed.

(** A non-empty record set, and nothing stored at its selector. *)
Lemma _delete_apply_absent self exact method n b r h st lg :
  view_at h b = Some r -> items r <> [] ->
  nodes st !! (n, selector r) = None ->
  _delete_apply self exact method n (Some b) [] (mkWorld h st lg)
  = (if exact
     then inl (DeleteNotExact (method +:+ ": missing rdataset"))
     else inr tt,
     mkWorld h st (lg ++ [CGet n (rdclass r) (rdtype r) (covers r)])).
Proof.
  intros Hv Hne Hnone. unfold_core. cbn.
  rewrite (truthy_ref_run _ _ _ Hv).
  pose proof (len_nonempty r Hne) as Hlen.
  rewrite Hlen. cbn. rewrite (load_run _ _ _ Hv). cbn. unfold mem_get.
  unfold selector in Hnone. rewrite Hnone. by destruct exact.
Qed.

(** A non-empty record set and a stored one, not exact. *)
Lemma _delete_apply_stored self method n b r e oe a h st lg :
  view_at h b = Some r -> items r <> [] ->
  nodes st !! (n, selector r) = Some e ->
  h !! e = Some oe -> view oe = Some a ->
  let d := Algebra.difference_rds a r in
  _delete_apply self false method n (Some b) [] (mkWorld h st lg)
  = (inr tt,
     difference_applied n d (length h) (h ++ [derived_items oe (items d)]) st
       (lg ++ [CGet n (rdclass r) (rdtype r) (covers r)])).
Proof.
  intros Hv Hne He Hoe Ha d. unfold_core. cbn.
  rewrite (truthy_ref_run _ _ _ Hv).
  pose proof (len_nonempty r Hne) as Hlen.
  rewrite Hlen. cbn. rewrite (load_run _ _ _ Hv). cbn. unfold mem_get.
  unfold selector in He. rewrite He. cbn.
  rewrite (difference_run _ _ _ _ _ _ Hoe Ha Hv). cbn. fold d.
  assert (Hd : view_at (h ++ [derived_items oe (items d)]) (length h) = Some d).
  { rewrite view_at_fresh. by apply view_derived_difference. }
  rewrite (load_run _ _ _ Hd). unfold difference_applied.
  destruct (len d =? 0); cbn.
  - reflexivity.
  - unfold mem_put. rewrite Hd. reflexivity.
Qed.

(** A non-empty record set and a stored one, exact: the intersection is
    computed into a new object and compared with the record set first. *)
Lemma _delete_apply_stored_exact self method n b r e oe a h st lg :
  view_at h b = Some r -> items r <> [] ->
  nodes st !! (n, selector r) = Some e ->
  h !! e = Some oe -> view oe = Some a ->
  let i := Algebra.intersection_rds a r in
  let d := Algebra.difference_rds a r in
  let h1 := h ++ [derived oe (ttl i) (items i)] in
  let lg1 := lg ++ [CGet n (rdclass r) (rdtype r) (covers r)] in
  _delete_apply self true method n (Some b) [] (mkWorld h st lg)
  = if Algebra.eq_rds i r
    then (inr tt,
          difference_applied n d (S (length h))
            (h1 ++ [derived_items oe (items d)]) st lg1)
    else (inl (DeleteNotExact (method +:+ ": missing rdatas")),
          mkWorld h1 st lg1).
Proof.
  intros Hv Hne He Hoe Ha i d h1 lg1. unfold_core. cbn.
  rewrite (truthy_ref_run _ _ _ Hv).
  pose proof (len_nonempty r Hne) as Hlen.
  rewrite Hlen. cbn. rewrite (load_run _ _ _ Hv). cbn. unfold mem_get.
  unfold selector in He. rewrite He. cbn.
  rewrite (intersection_run _ _ _ _ _ _ Hoe Ha Hv). cbn.
  fold i. fold h1.
  assert (Hi : view_at h1 (length h) = Some i).
  { unfold h1. rewrite view_at_fresh. by apply view_derived_intersection. }
  rewrite (ne_run h1 (length h) b i r Hi (view_at_old _ _ _ _ Hv)).
  destruct (Algebra.eq_rds i r); cbn; [|reflexivity].
  rewrite (difference_run h1 e b oe a r (lookup_old _ _ _ _ Hoe) Ha
             (view_at_old _ _ _ _ Hv)).
  cbn. fold d.
  assert (Hlen1 : length h1 = S (length h)).
  { unfold h1. rewrite length_app. cbn. lia. }
  rewrite Hlen1.
  assert (Hd : view_at (h1 ++ [derived_items oe (items d)]) (S (length h)) = Some d).
  { rewrite <- Hlen1, view_at_fresh. by apply view_derived_difference. }
  rewrite (load_run _ _ _ Hd). unfold difference_applied.
  destruct (len d =? 0); cbn.
  - reflexivity.
  - unfold mem_put. rewrite Hd. reflexivity.
Qed.

(** The exact check passes when every requested record is stored. *)
Lemma exact_check_passes a r :
  selector a = selector r ->
  Algebra.eq_rds (Algebra.intersection_rds a r) r = true
  <-> forall x, x ∈ items r -> x ∈ items a.
Proof.
  intros Hsel. unfold selector in Hsel. injection Hsel as Hc Ht Hv.
  unfold Algebra.eq_rds, Algebra.intersection_rds. cbn [rdclass rdtype covers items].
  rewrite Hc, Ht, Hv, !Z.eqb_refl. cbn [andb].
  rewrite andb_true_iff, !List.forallb_forall. unfold Algebra.member.
  split.
  - intros [_ H] x Hx. apply list_elem_of_In, H in Hx.
    apply bool_decide_eq_true_1, list_elem_of_In, List.filter_In in Hx.
    by apply list_elem_of_In, Hx.
  - intros H. split.
    + intros x Hx%List.filter_In. apply Hx.
    + intros x Hx. apply bool_decide_eq_true_2, list_elem_of_In, List.filter_In.
      split.
      * by apply list_elem_of_In, H, list_elem_of_In.
      * by apply bool_decide_eq_true_2, list_elem_of_In.
Qed.

(** It fails when some requested record is not stored. *)
Lemma exact_check_fails a r :
  selector a = selector r ->
  Algebra.eq_rds (Algebra.intersection_rds a r) r = false
  <-> exists x, x ∈ items r /\ x ∉ items a.
Proof.
  intros Hsel. rewrite <- not_true_iff_false, (exact_check_passes a r Hsel).
  split.
  - intros Hn.
    destruct (decide (Forall (fun x => x ∈ items a) (items r))) as [Hf|Hf].
    + exfalso. apply Hn. by apply Forall_forall.
    + apply not_Forall_Exists in Hf; [|intros x; apply _].
      apply Exists_exists in Hf as (x & Hx & Hna). by exists x.
  - intros (x & Hx & Hna) Hall. by apply Hna, Hall.
Qed.

Lemma intersection_empty a r :
  selector a = selector r -> items r = [] ->
  Algebra.eq_rds (Algebra.intersection_rds a r) r = true.
Proof.
  intros Hsel Hr. apply exact_check_passes; [done|]. rewrite Hr.
  intros x Hx. by apply not_elem_of_nil in Hx.
Qed.

Lemma known_true st n sel l : nodes st !! (n, sel) = Some l -> known st n = true.
Proof.
  intros H. unfold known. rewrite bool_decide_eq_false_2; [done|].
  intros Hempty.
  assert (Hl : filter (under n) (nodes st) !! (n, sel) = Some l)
    by (by apply map_lookup_filter_Some_2).
  rewrite Hempty in Hl. by rewrite lookup_empty in Hl.
Qed.

Lemma known_false st n : known st n = false <-> forall sel, nodes st !! (n, sel) = None.
Proof.
  unfold known. rewrite negb_false_iff, bool_decide_eq_true. split.
  - intros Hempty sel. destruct (nodes st !! (n, sel)) as [l|] eqn:Hl; [|done].
    assert (Hf : filter (under n) (nodes st) !! (n, sel) = Some l)
      by (by apply map_lookup_filter_Some_2).
    rewrite Hempty in Hf. by rewrite lookup_empty in Hf.
  - intros Hnone. apply map_empty. intros [n' sel].
    apply map_lookup_filter_None. right. intros l Hl Hu.
    unfold under in Hu. cbn in Hu. subst n'. rewrite Hnone in Hl. discriminate.
Qed.

Lemma stored_old h h' st lg k l :
  nodes st !! k = Some l -> (l < length h)%nat ->
  stored (mkWorld (h ++ h') st lg) k = view_at h l.
Proof.
  intros Hk Hl. rewrite (stored_Some _ _ _ _ _ Hk). by apply view_at_lt.
Qed.

(** What the difference leaves is the same whether it was computed right
    away or after the exact check, which only adds an object to the heap. *)
Lemma difference_applied_same n d l1 l2 h x1 x2 o st lg1 lg2 :
  refs_valid (mkWorld h st []) ->
  view o = Some d ->
  l1 = length (h ++ x1) -> l2 = length (h ++ x2) ->
  same_content (difference_applied n d l1 ((h ++ x1) ++ [o]) st lg1)
               (difference_applied n d l2 ((h ++ x2) ++ [o]) st lg2).
Proof.
  intros Hvalid Hd -> -> k. unfold difference_applied.
  destruct (len d =? 0).
  - unfold stored, without. cbn [heap store nodes].
    destruct (decide (k = (n, selector d))) as [->|Hk].
    + by rewrite !lookup_delete_eq.
    + rewrite !lookup_delete_ne by done.
      destruct (nodes st !! k) as [l|] eqn:Hl; [|done]. cbn.
      pose proof (Hvalid k l Hl) as Hlt. cbn in Hlt.
      rewrite <- !app_assoc. by rewrite !view_at_lt.
  - unfold stored, written. cbn [heap store nodes].
    destruct (decide (k = (n, selector d))) as [->|Hk].
    + rewrite !lookup_insert_eq. cbn. by rewrite !view_at_fresh.
    + rewrite !lookup_insert_ne by done.
      destruct (nodes st !! k) as [l|] eqn:Hl; [|done]. cbn.
      pose proof (Hvalid k l Hl) as Hlt. cbn in Hlt.
      rewrite <- !app_assoc. by rewrite !view_at_lt.
Qed.

Lemma same_content_refl (w : World State) : same_content w w.
Proof. by intros k. Qed.

Lemma same_content_grown h h' st lg lg' :
  refs_valid (mkWorld h st lg) ->
  same_content (mkWorld (h ++ h') st lg') (mkWorld h st lg).
Proof.
  intros Hvalid k. unfold stored. cbn [heap store].
  destruct (nodes st !! k) as [l|] eqn:Hl; [|done]. cbn.
  apply view_at_lt. exact (Hvalid k l Hl).
Qed.

Lemma guard_passes_delete self args (w : World State) :
  read_only self = false ->
  delete self args w = _delete self false args w /\
  delete_exact self args w = _delete self true args w.
Proof.
  intros Hro. unfold delete_exact, delete, _check_read_only, bind.
  by rewrite Hro.
Qed.

(** The record-set form of [delete_exact], against [delete]. *)
Lemma delete_exact_rdataset_form self n b B e A (w : World State) :
  read_only self = false -> refs_valid w ->
  view_at (heap w) b = Some B ->
  nodes (store w) !! (n, selector B) = Some e ->
  view_at (heap w) e = Some A -> selector A = selector B ->
  let out := delete_exact self [AName n; ARef b] w in
  let out' := delete self [AName n; ARef b] w in
  (is_DeleteNotExact out.1 = true
   <-> Algebra.eq_rds (Algebra.intersection_rds A B) B = false) /\
  (is_DeleteNotExact out.1 = true -> store out.2 = store w /\ same_content out.2 w) /\
  (is_DeleteNotExact out.1 = false ->
   out.1 = inr tt /\ out'.1 = inr tt /\ same_content out.2 out'.2).
Proof.
  intros Hro Hvalid Hv He HA Hsel out out'.
  destruct w as [h st lg]. cbn [heap store log] in *.
  destruct (view_at_Some _ _ _ Hv) as (ob & Hob & Hvob).
  destruct (view_at_Some _ _ _ HA) as (oe & Hoe & Hvoe).
  subst out out'.
  rewrite (proj1 (guard_passes_delete self _ _ Hro)),
          (proj2 (guard_passes_delete self _ _ Hro)).
  rewrite !(_delete_name_rdataset_run self _ n b h st lg ob Hob).
  unfold except_IndexError.
  destruct (items B) as [|x xs] eqn:HB.
  - rewrite !_delete_apply_falsy by (exists B; by split).
    rewrite (known_true st n _ e He). cbn.
    rewrite (intersection_empty A B Hsel HB).
    repeat split; solve [done | apply same_content_refl].
  - assert (Hne : items B <> []) by (by rewrite HB).
    rewrite (_delete_apply_stored_exact self _ n b B e oe A h st lg
               Hv Hne He Hoe Hvoe).
    rewrite (_delete_apply_stored self _ n b B e oe A h st lg Hv Hne He Hoe Hvoe).
    cbn zeta.
    destruct (Algebra.eq_rds (Algebra.intersection_rds A B) B); cbn.
    + repeat split; try done.
      assert (Hd : view (derived_items oe (items (Algebra.difference_rds A B)))
                   = Some (Algebra.difference_rds A B))
        by (by apply view_derived_difference).
      pose proof (difference_applied_same n (Algebra.difference_rds A B)
                    (S (length h)) (length h) h
                    [derived oe (ttl (Algebra.intersection_rds A B))
                                (items (Algebra.intersection_rds A B))]
                    [] _ st
                    (lg ++ [CGet n (rdclass B) (rdtype B) (covers B)])
                    (lg ++ [CGet n (rdclass B) (rdtype B) (covers B)])
                    Hvalid Hd) as Hsame.
      rewrite app_nil_r in Hsame. apply Hsame.
      * rewrite length_app. cbn. lia.
      * reflexivity.
    + repeat split; try done.
      by eapply same_content_grown.
Qed.

(** The name-only form of [delete_exact], against [delete]. *)
Lemma delete_exact_name_form self n (w : World State) :
  read_only self = false ->
  let out := delete_exact self [AName n] w in
  let out' := delete self [AName n] w in
  (is_DeleteNotExact out.1 = true
   <-> forall sel, nodes (store w) !! (n, sel) = None) /\
  (is_DeleteNotExact out.1 = true -> store out.2 = store w /\ same_content out.2 w) /\
  (is_DeleteNotExact out.1 = false ->
   out.1 = inr tt /\ out'.1 = inr tt /\ same_content out.2 out'.2).
Proof.
  intros Hro out out'. destruct w as [h st lg]. cbn [heap store log] in *.
  subst out out'.
  rewrite (proj1 (guard_passes_delete self _ _ Hro)),
          (proj2 (guard_passes_delete self _ _ Hro)).
  rewrite !_delete_name_only_run. unfold except_IndexError.
  rewrite !_delete_apply_falsy by done.
  rewrite <- known_false.
  destruct (known st n); cbn.
  - repeat split; solve [done | apply same_content_refl].
  - repeat split; solve [done | apply same_content_refl].
Qed.

(** The class-and-type form of [delete] and [delete_exact]. *)
Lemma _delete_by_type_form_run self exact n c ta covs c' t' v' h st lg :
  RdataClass_make (AInt c) = inr c' -> RdataType_make ta = inr t' ->
  covers_of covs v' ->
  _delete self exact (AName n :: AInt c :: ta :: covs) (mkWorld h st lg)
  = match nodes st !! (n, (c', t', v')) with
    | None =>
        (if exact
         then inl (DeleteNotExact ((if exact then "delete_exact()" else "delete()")
                                   +:+ ": missing rdataset"))
         else inr tt,
         mkWorld h st (lg ++ [CGet n c' t' v']))
    | Some _ =>
        (inr tt,
         mkWorld h (without st (n, (c', t', v')))
           (lg ++ [CGet n c' t' v'; CDeleteRdataset n c' t' v']))
    end.
Proof.
  intros Hc Ht Hv. unfold_core. cbn. rewrite Hc. cbn. rewrite Ht. cbn.
  destruct covs as [|va [|]]; cbn in Hv; [subst v' | | done].
  - cbn. unfold mem_get.
    destruct (nodes st !! (n, (c', t', rdatatype_NONE))); cbn.
    + by rewrite <- app_assoc.
    + by destruct exact.
  - cbn. rewrite Hv. cbn. unfold mem_get.
    destruct (nodes st !! (n, (c', t', v'))); cbn.
    + by rewrite <- app_assoc.
    + by destruct exact.
Qed.

(** The class-and-type form of [delete_exact], against [delete]. *)
Lemma delete_exact_type_form self n c ta covs c' t' v' (w : World State) :
  read_only self = false ->
  RdataClass_make (AInt c) = inr c' -> RdataType_make ta = inr t' ->
  covers_of covs v' ->
  let out := delete_exact self (AName n :: AInt c :: ta :: covs) w in
  let out' := delete self (AName n :: AInt c :: ta :: covs) w in
  (is_DeleteNotExact out.1 = true <-> nodes (store w) !! (n, (c', t', v')) = None) /\
  (is_DeleteNotExact out.1 = true -> store out.2 = store w /\ same_content out.2 w) /\
  (is_DeleteNotExact out.1 = false ->
   out.1 = inr tt /\ out'.1 = inr tt /\ same_content out.2 out'.2).
Proof.
  intros Hro Hc Ht Hv out out'. destruct w as [h st lg]. cbn [heap store log] in *.
  subst out out'.
  rewrite (proj1 (guard_passes_delete self _ _ Hro)),
          (proj2 (guard_passes_delete self _ _ Hro)).
  rewrite !(_delete_by_type_form_run self _ n c ta covs c' t' v' h st lg Hc Ht Hv).
  destruct (nodes st !! (n, (c', t', v'))); cbn;
    repeat split; solve [done | apply same_content_refl].
Qed.

(** C3.  [delete_exact] fails with [DeleteNotExact] exactly when its check
    fails: in the record-set form, when the intersection of the stored
    record set with the requested one is not the requested one, which is
    when some requested record is not stored; in the class-and-type form,
    when nothing is stored at the selector; in the name-only form, when
    nothing is stored under the name.  Whenever it fails the store is what
    it was and every name and selector shows what it showed.  Whenever it
    does not fail it returns as [delete] does with the same arguments, and
    the two leave the same record set at every name and selector.  In the
    record-set form with nothing stored at the selector, a request for some
    record fails too, and changes nothing. *)
Theorem delete_exact_checks_then_deletes self n (w : World State) :
  read_only self = false -> refs_valid w ->
  (forall b B e A,
     view_at (heap w) b = Some B ->
     nodes (store w) !! (n, selector B) = Some e ->
     view_at (heap w) e = Some A -> selector A = selector B ->
     let out := delete_exact self [AName n; ARef b] w in
     let out' := delete self [AName n; ARef b] w in
     (is_DeleteNotExact out.1 = true
      <-> Algebra.eq_rds (Algebra.intersection_rds A B) B = false) /\
     (Algebra.eq_rds (Algebra.intersection_rds A B) B = false
      <-> exists x, x ∈ items B /\ x ∉ items A) /\
     (is_DeleteNotExact out.1 = true ->
      store out.2 = store w /\ same_content out.2 w) /\
     (is_DeleteNotExact out.1 = false ->
      out.1 = inr tt /\ out'.1 = inr tt /\ same_content out.2 out'.2)) /\
  (forall b B,
     view_at (heap w) b = Some B -> items B <> [] ->
     nodes (store w) !! (n, selector B) = None ->
     let out := delete_exact self [AName n; ARef b] w in
     is_DeleteNotExact out.1 = true /\ out.2 = mkWorld (heap w) (store w) (log out.2)) /\
  (forall c ta covs c' t' v',
     RdataClass_make (AInt c) = inr c' -> RdataType_make ta = inr t' ->
     covers_of covs v' ->
     let out := delete_exact self (AName n :: AInt c :: ta :: covs) w in
     let out' := delete self (AName n :: AInt c :: ta :: covs) w in
     (is_DeleteNotExact out.1 = true
      <-> nodes (store w) !! (n, (c', t', v')) = None) /\
     (is_DeleteNotExact out.1 = true ->
      store out.2 = store w /\ same_content out.2 w) /\
     (is_DeleteNotExact out.1 = false ->
      out.1 = inr tt /\ out'.1 = inr tt /\ same_content out.2 out'.2)) /\
  (let out := delete_exact self [AName n] w in
   let out' := delete self [AName n] w in
   (is_DeleteNotExact out.1 = true
    <-> forall sel, nodes (store w) !! (n, sel) = None) /\
   (is_DeleteNotExact out.1 = true ->
    store out.2 = store w /\ same_content out.2 w) /\
   (is_DeleteNotExact out.1 = false ->
    out.1 = inr tt /\ out'.1 = inr tt /\ same_content out.2 out'.2)).
Proof.
  intros Hro Hvalid. split; [|split; [|split]].
  - intros b B e A Hv He HA Hsel.
    destruct (delete_exact_rdataset_form self n b B e A w Hro Hvalid Hv He HA Hsel)
      as (H1 & H2 & H3).
    split; [exact H1|]. split; [by apply exact_check_fails|]. by split.
  - intros b B Hv Hne Hnone out. subst out. destruct w as [h st lg].
    cbn [heap store log] in *.
    destruct (view_at_Some _ _ _ Hv) as (ob & Hob & _).
    rewrite (proj2 (guard_passes_delete self _ _ Hro)).
    rewrite (_delete_name_rdataset_run self _ n b h st lg ob Hob).
    unfold except_IndexError.
    by rewrite (_delete_apply_absent self true _ n b B h st lg Hv Hne Hnone).
  - intros c ta covs c' t' v' Hc Ht Hv.
    exact (delete_exact_type_form self n c ta covs c' t' v' w Hro Hc Ht Hv).
  - exact (delete_exact_name_form self n w Hro).
Qed.

(** [delete] of a record set that is not empty: the stored record set
    loses the requested members; the selector is deleted when none remains;
    nothing happens when the selector holds nothing; no other selector is
    touched. *)
Lemma delete_removes_members self n b B (w : World State) :
  read_only self = false -> refs_valid w ->
  view_at (heap w) b = Some B -> items B <> [] ->
  (forall e, nodes (store w) !! (n, selector B) = Some e ->
     exists A, view_at (heap w) e = Some A /\ selector A = selector B) ->
  let out := delete self [AName n; ARef b] w in
  out.1 = inr tt /\
  stored out.2 (n, selector B)
  = match stored w (n, selector B) with
    | Some A =>
        let d := Algebra.difference_rds A B in
        if len d =? 0 then None else Some d
    | None => None
    end /\
  (forall k, k <> (n, selector B) -> stored out.2 k = stored w k) /\
  (nodes (store w) !! (n, selector B) = None -> out.2 = mkWorld (heap w) (store w) (log out.2)).
Proof.
  intros Hro Hvalid Hv Hne Hwf out. subst out. destruct w as [h st lg].
  cbn [heap store log] in *.
  destruct (view_at_Some _ _ _ Hv) as (ob & Hob & _).
  rewrite (proj1 (guard_passes_delete self _ _ Hro)).
  rewrite (_delete_name_rdataset_run self _ n b h st lg ob Hob).
  unfold except_IndexError.
  destruct (nodes st !! (n, selector B)) as [e|] eqn:He.
  - destruct (Hwf e eq_refl) as (A & HA & Hsel).
    destruct (view_at_Some _ _ _ HA) as (oe & Hoe & Hvoe).
    rewrite (_delete_apply_stored self _ n b B e oe A h st lg Hv Hne He Hoe Hvoe).
    cbn [fst snd is_IndexError]. rewrite (stored_Some _ _ _ _ _ He), HA.
    assert (Hseld : selector (Algebra.difference_rds A B) = selector B)
      by exact Hsel.
    cbn zeta. unfold difference_applied.
    destruct (len (Algebra.difference_rds A B) =? 0); repeat split; try done.
    + apply stored_None. unfold without. cbn [nodes].
      rewrite Hseld. apply lookup_delete_eq.
    + intros k Hk. unfold stored, without. cbn [heap store nodes].
      rewrite Hseld, lookup_delete_ne by done.
      destruct (nodes st !! k) as [l|] eqn:Hl; [|done]. cbn.
      apply view_at_lt. exact (Hvalid k l Hl).
    + erewrite stored_Some
        by (unfold written; cbn [nodes]; rewrite Hseld; apply lookup_insert_eq).
      rewrite view_at_fresh. by apply view_derived_difference.
    + intros k Hk. unfold stored, written. cbn [heap store nodes].
      rewrite Hseld, lookup_insert_ne by done.
      destruct (nodes st !! k) as [l|] eqn:Hl; [|done]. cbn.
      apply view_at_lt. exact (Hvalid k l Hl).
  - rewrite (_delete_apply_absent self false _ n b B h st lg Hv Hne He).
    cbn [fst snd is_IndexError]. rewrite !stored_None by done.
    repeat split; done.
Qed.

(** C5.  [replace] with a name and a record set [B] succeeds with a single
    point write of [B] itself: no lookup of a prior value is made and no
    union is computed, whatever was stored.  Afterwards the selector holds
    [B], every other selector and name holds what it held, and [get]
    returns a record set with exactly the content of [B]. *)
Theorem replace_overwrites self n b B c t (w : World State) :
  read_only self = false ->
  view_at (heap w) b = Some B ->
  RdataClass_make c = inr (rdclass B) ->
  RdataType_make t = inr (rdtype B) ->
  let out := replace self [AName n; ARef b] w in
  out.1 = inr tt /\
  log out.2 = log w ++ [CPut n b (Some B)] /\
  heap out.2 = heap w /\
  stored out.2 (n, selector B) = Some B /\
  (forall k, k <> (n, selector B) ->
             nodes (store out.2) !! k = nodes (store w) !! k) /\
  exists l w2,
    get self (NName n) c t (covers B) out.2 = (inr (Some l), w2) /\
    view_at (heap w2) l = Some B.
Proof.
  intros Hro Hv Hc Ht out. destruct w as [h st lg]. cbn [heap store log] in *.
  subst out. rewrite (replace_run self n b B h st lg Hro Hv).
  cbn [fst snd heap store log]. repeat split.
  - erewrite stored_Some by (unfold written; cbn; apply lookup_insert_eq).
    exact Hv.
  - intros k Hk. unfold written. cbn. by rewrite lookup_insert_ne.
  - destruct (view_at_Some _ _ _ Hv) as (o & Ho & Hvo).
    destruct (get_stored_run self (NName n) c t (covers B) n (rdclass B) (rdtype B)
                b o B h (written st n B b) (lg ++ [CPut n b (Some B)])
                eq_refl Hc Ht) as (l' & h' & Hrun & Hview & _);
      [unfold written; cbn; apply lookup_insert_eq | exact Ho | exact Hvo |].
    eexists _, _. split; [exact Hrun | exact Hview].
Qed.

(** C4.  [add] with a name and a record set [B] succeeds.  Afterwards the
    selector holds [A] union [B] when a record set [A] was stored there, and
    [B] alone when nothing was; [get] returns an immutable record set with
    that content.  No object that existed before the call is changed: the
    heap only grows.  When the stored [A] is immutable, the call first
    creates a mutable copy of [A], computes the union from the copy into a
    second new object, and stores that one; the immutable object is as it
    was. *)
Theorem add_unions self n b B c t (w : World State) :
  read_only self = false ->
  view_at (heap w) b = Some B ->
  RdataClass_make c = inr (rdclass B) ->
  RdataType_make t = inr (rdtype B) ->
  (forall e, nodes (store w) !! (n, selector B) = Some e ->
     exists A, view_at (heap w) e = Some A /\ selector A = selector B /\
               NoDup (items A)) ->
  let out := add self [AName n; ARef b] w in
  let result := match stored w (n, selector B) with
                | Some A => Algebra.union_rds A B
                | None => B
                end in
  out.1 = inr tt /\
  (exists h', heap out.2 = heap w ++ h') /\
  stored out.2 (n, selector B) = Some result /\
  (forall e, nodes (store w) !! (n, selector B) = Some e ->
     class_at (heap w) e = Some KImmutableRdataset ->
     exists A, view_at (heap w) e = Some A /\
       let copy := mkObject KRdataset (mk_attrs A) in
       heap out.2
       = heap w ++ [copy; derived copy (ttl (Algebra.union_rds A B))
                                       (items (Algebra.union_rds A B))] /\
       nodes (store out.2) !! (n, selector B) = Some (S (length (heap w))) /\
       heap out.2 !! e = heap w !! e) /\
  exists l w2,
    get self (NName n) c t (covers B) out.2 = (inr (Some l), w2) /\
    view_at (heap w2) l = Some result /\
    class_at (heap w2) l = Some KImmutableRdataset.
Proof.
  intros Hro Hv Hc Ht Hstored out result.
  destruct w as [h st lg]. cbn [heap store log] in *.
  destruct (view_at_Some _ _ _ Hv) as (ob & Hob & Hvob).
  subst out. rewrite (add_name_rdataset_run self n b h st lg ob Hro Hob).
  unfold except_IndexError.
  destruct (nodes st !! (n, selector B)) as [e|] eqn:He.
  - destruct (Hstored e eq_refl) as (A & HA & Hsel & Hnd).
    destruct (view_at_Some _ _ _ HA) as (oe & Hoe & Hvoe).
    assert (Hres : result = Algebra.union_rds A B).
    { subst result. by rewrite (stored_Some _ _ _ _ _ He), HA. }
    rewrite Hres. clear Hres result.
    assert (Hkey : selector (Algebra.union_rds A B) = selector B)
      by (by rewrite union_rds_selector).
    destruct (decide (cls oe = KImmutableRdataset)) as [Hk|Hk].
    + rewrite (_add_apply_immutable self "add()" n b B e oe A h st lg
                 Hv He Hoe Hvoe Hk Hnd).
      cbn [fst snd heap store log is_IndexError].
      set (copy := mkObject KRdataset (mk_attrs A)).
      set (u := Algebra.union_rds A B) in *.
      assert (Hlook : (h ++ [copy; derived copy (ttl u) (items u)]) !! S (length h)
                      = Some (derived copy (ttl u) (items u))).
      { change [copy; derived copy (ttl u) (items u)]
          with ([copy] ++ [derived copy (ttl u) (items u)]).
        rewrite app_assoc.
        replace (S (length h)) with (length (h ++ [copy]))
          by (rewrite length_app; cbn; lia).
        apply lookup_fresh. }
      assert (Hvu : view (derived copy (ttl u) (items u)) = Some u)
        by apply (view_derived_union copy A B (view_mk_attrs _ _)).
      repeat split.
      * by eexists.
      * erewrite stored_Some
          by (unfold written; cbn; rewrite Hkey; apply lookup_insert_eq).
        unfold view_at. by rewrite Hlook.
      * intros e' [= <-] _. exists A. split; [exact HA|]. cbn.
        repeat split.
        -- unfold written. cbn. by rewrite Hkey, lookup_insert_eq.
        -- rewrite Hoe. by apply lookup_old.
      * destruct (get_stored_run self (NName n) c t (covers B) n (rdclass B)
                    (rdtype B) (S (length h))
                    (derived copy (ttl u) (items u)) u
                    (h ++ [copy; derived copy (ttl u) (items u)])
                    (written st n u (S (length h)))
                    (lg ++ [CGet n (rdclass B) (rdtype B) (covers B);
                            CPut n (S (length h)) (Some u)])
                    eq_refl Hc Ht) as (l' & h' & Hrun & Hview & Hcls);
          [unfold written; cbn; rewrite Hkey; apply lookup_insert_eq
          | exact Hlook | exact Hvu |].
        eexists _, _. split; [exact Hrun|]. split; assumption.
    + rewrite (_add_apply_mutable self "add()" n b B e oe A h st lg
                 Hv He Hoe Hvoe Hk).
      cbn [fst snd heap store log is_IndexError].
      set (u := Algebra.union_rds A B) in *.
      assert (Hvu : view (derived oe (ttl u) (items u)) = Some u)
        by apply (view_derived_union oe A B Hvoe).
      repeat split.
      * by eexists.
      * erewrite stored_Some
          by (unfold written; cbn; rewrite Hkey; apply lookup_insert_eq).
        by rewrite view_at_fresh.
      * intros e' [= <-] Hcls. exfalso. apply Hk.
        unfold class_at in Hcls. rewrite Hoe in Hcls. by injection Hcls.
      * destruct (get_stored_run self (NName n) c t (covers B) n (rdclass B)
                    (rdtype B) (length h) (derived oe (ttl u) (items u)) u
                    (h ++ [derived oe (ttl u) (items u)])
                    (written st n u (length h))
                    (lg ++ [CGet n (rdclass B) (rdtype B) (covers B);
                            CPut n (length h) (Some u)])
                    eq_refl Hc Ht) as (l' & h' & Hrun & Hview & Hcls);
          [unfold written; cbn; rewrite Hkey; apply lookup_insert_eq
          | apply lookup_fresh | exact Hvu |].
        eexists _, _. split; [exact Hrun|]. split; assumption.
  - assert (Hres : result = B).
    { subst result. by rewrite (stored_None _ _ _ _ He). }
    rewrite Hres. clear Hres result.
    rewrite (_add_apply_absent self "add()" n b B h st lg Hv He).
    cbn [fst snd heap store log is_IndexError].
    repeat split.
    + exists []. by rewrite app_nil_r.
    + erewrite stored_Some by (unfold written; cbn; apply lookup_insert_eq).
      exact Hv.
    + intros e' [=].
    + destruct (get_stored_run self (NName n) c t (covers B) n (rdclass B)
                  (rdtype B) b ob B h (written st n B b)
                  (lg ++ [CGet n (rdclass B) (rdtype B) (covers B);
                          CPut n b (Some B)])
                  eq_refl Hc Ht) as (l' & h' & Hrun & Hview & Hcls);
        [unfold written; cbn; apply lookup_insert_eq | exact Hob | exact Hvob |].
      eexists _, _. split; [exact Hrun|]. split; assumption.
Qed.

End OverMemBackend.

Lemma MemBackend_known_false (m : gmap (Name * (Z * Z * Z)) loc) (n : Name) :
  negb (bool_decide (filter (MemBackend.under n) m = ∅)) = false
  <-> forall sel, m !! (n, sel) = None.
Proof. exact (known_false (MemBackend.mkState m []) n). Qed.

(* ===================================================================== *)
(** * No empty record set is written *)
(* ===================================================================== *)

Section HeapInversion.

Implicit Types (h : Heap) (o : Object) (l : loc) (r : Rdataset).

Lemma deref_inv l h x h' : deref l h = (x, h') -> h' = h.
Proof. unfold deref. destruct (h !! l); by intros [= _ <-]. Qed.

Lemma load_inv l h x h' :
  load l h = (x, h') -> h' = h /\ forall r, x = inr r -> view_at h l = Some r.
Proof.
  unfold load, bind, deref, view_at. destruct (h !! l) as [o|]; cbn.
  - destruct (view o); intros [= <- <-]; split; try done; by intros ? [= <-].
  - intros [= <- <-]. split; [done|]. by intros ? [=].
Qed.

Lemma isinstance_inv l K h x h' : isinstance l K h = (x, h') -> h' = h.
Proof.
  unfold isinstance, bind, deref. destruct (h !! l); by intros [= _ <-].
Qed.

Lemma truthy_ref_inv l h x h' :
  truthy (VRef l) h = (x, h') ->
  h' = h /\ forall b, x = inr b ->
              exists r, view_at h l = Some r /\ b = negb (len r =? 0).
Proof.
  unfold truthy, bind. destruct (load l h) as [[e|r] h1] eqn:Hl.
  - apply load_inv in Hl as [-> _]. intros [= <- <-]. split; [done|]. by intros ? [=].
  - apply load_inv in Hl as [-> Hl]. intros [= <- <-]. split; [done|].
    intros b [= <-]. exists r. split; [by apply Hl | done].
Qed.

Lemma fold_add_item_nonempty its acc :
  acc <> [] \/ its <> [] -> fold_left Algebra.add_item its acc <> [].
Proof.
  revert acc. induction its as [|x its IH]; intros acc H; cbn.
  - by destruct H.
  - apply IH. left. unfold Algebra.add_item.
    destruct (Algebra.member x acc) eqn:Hm.
    + intros ->. unfold Algebra.member in Hm.
      apply bool_decide_eq_true_1 in Hm. by apply not_elem_of_nil in Hm.
    + by destruct acc.
Qed.

Lemma union_items_nonempty a b :
  items b <> [] -> items (Algebra.union_rds a b) <> [].
Proof. intros H. unfold Algebra.union_rds. cbn. apply fold_add_item_nonempty. by right. Qed.

(** A union that returns, returns a new record set that holds the members
    of its second operand. *)
Lemma union_inv h a b rb l' h' :
  view_at h b = Some rb ->
  Algebra.union a b h = (inr l', h') ->
  exists ra, view_at h' l' = Some (Algebra.union_rds ra rb).
Proof.
  intros Hb. destruct (h !! a) as [o|] eqn:Ho.
  - destruct (view o) as [ra|] eqn:Hv.
    + rewrite (union_run _ _ _ _ _ _ Ho Hv Hb). intros [= <- <-].
      exists ra. rewrite view_at_fresh. by rewrite (view_derived _ _ _ _ Hv).
    + unfold Algebra.union, bind. rewrite (clone_run _ _ _ Ho).
      unfold Algebra.union_update, bind, load, bind.
      rewrite (deref_run _ _ _ (lookup_fresh _ _)).
      unfold view in *. cbn [attrs]. rewrite Hv. discriminate.
  - unfold Algebra.union, bind, Algebra.clone, bind, deref. rewrite Ho. discriminate.
Qed.

(** [update] on an object that was just created touches that object only. *)
Lemma update_fresh_inv h o e x h' :
  has_Immutable_mixin (cls o) = false ->
  Algebra.update (length h) e (h ++ [o]) = (x, h') ->
  exists o', h' = h ++ [o'].
Proof.
  intros Hm. unfold Algebra.update, Algebra.union_update, bind.
  destruct (load (length h) (h ++ [o])) as [[err|a] h1] eqn:H1;
    apply load_inv in H1 as [-> _]; [intros [= _ <-]; by eexists|].
  destruct (load e (h ++ [o])) as [[err|b] h2] eqn:H2;
    apply load_inv in H2 as [-> _]; [intros [= _ <-]; by eexists|].
  rewrite (setattr_fresh _ _ _ _ Hm).
  rewrite setattr_fresh by exact Hm. intros [= _ <-]. by eexists.
Qed.

End HeapInversion.

Ltac log_done :=
  cbn [fst snd log heap store];
  first
    [ exists []; split; [by rewrite app_nil_r | by constructor]
    | rewrite <- ?app_assoc; eexists; split; [reflexivity|];
      repeat constructor ].

Section NoEmptyWrite.

Context {E : Externals} {S : Type} {B : Backend S}.

Import Transaction.

Implicit Types (w : World S) (h : Heap).

(** Lines 294-299 of [_delete]: the difference is written only when it is
    not empty. *)
Lemma difference_written_when_not_empty self n l :
  logs_only (S:=S) no_empty_write
    (d <- on_heap (load l) ;;
     if len d =? 0
     then _delete_rdataset self n (rdclass d) (rdtype d) (covers d)
     else _put_rdataset self n l).
Proof.
  intros [h s lg]. unfold appends. unfold_core. cbn.
  destruct (load l h) as [[e|d] h1] eqn:Hl; cbn; [log_done|].
  apply load_inv in Hl as [-> Hl]. specialize (Hl d eq_refl).
  destruct (len d =? 0) eqn:Hlen; cbn.
  - destruct (be_delete_rdataset _ _ _ _ _ _ _). log_done.
  - destruct (be_put_rdataset _ _ _ _ _). rewrite Hl. log_done.
    cbn. intros Hd. by rewrite (len_empty d Hd) in Hlen.
Qed.

Lemma _rdataset_from_args_writes_nothing method deleting args :
  logs_only (S:=S) no_empty_write (_rdataset_from_args method deleting args).
Proof.
  unfold _rdataset_from_args, popleft, isinstance_arg. repeat logs_step.
Qed.

Lemma _delete_no_empty_write self exact args :
  logs_only (S:=S) no_empty_write (_delete self exact args).
Proof.
  unfold _delete, _delete_resolve, _delete_by_type, _delete_apply, popleft,
    text_to_name, isinstance_arg, rrset_name, _raise_if_not_empty,
    truthy_rdataset, _get_rdataset, _delete_rdataset,
    _delete_name, _name_exists.
  repeat first [ apply _rdataset_from_args_writes_nothing
               | apply difference_written_when_not_empty
               | logs_step ].
Qed.

(** The record-set form of [delete] and [delete_exact] on a selector that
    holds a record set: after the lookup, the selector is deleted when the
    difference is empty, and the difference is written otherwise. *)
Lemma _delete_difference_log self (exact : bool) n b rB e A s1 h (s : S) lg :
  view_at h b = Some rB -> items rB <> [] ->
  be_get_rdataset self h n (rdclass rB) (rdtype rB) (covers rB) s = (inr (Some e), s1) ->
  view_at h e = Some A ->
  (exact = true -> Algebra.eq_rds (Algebra.intersection_rds A rB) rB = true) ->
  let d := Algebra.difference_rds A rB in
  let fresh := ((if exact then 1 else 0) + length h)%nat in
  log (_delete self exact [AName n; ARef b] (mkWorld h s lg)).2
  = lg ++ [CGet n (rdclass rB) (rdtype rB) (covers rB);
           if len d =? 0
           then CDeleteRdataset n (rdclass d) (rdtype d) (covers d)
           else CPut n fresh (Some d)].
Proof.
  intros Hv Hne Hget HA Hpass d fresh.
  destruct (view_at_Some _ _ _ Hv) as (ob & Hob & Hvob).
  destruct (view_at_Some _ _ _ HA) as (oe & Hoe & Hvoe).
  unfold_core. cbn.
  rewrite (isinstance_run _ _ _ _ Hob).
  replace (issubclass (cls ob) KRdataset) with true by (by destruct (cls ob)).
  cbn. rewrite (truthy_ref_run _ _ _ Hv), (len_nonempty rB Hne). cbn.
  rewrite (load_run _ _ _ Hv). cbn. rewrite Hget. cbn.
  destruct exact; cbn.
  - rewrite (intersection_run _ _ _ _ _ _ Hoe Hvoe Hv). cbn.
    set (i := Algebra.intersection_rds A rB).
    set (h1 := h ++ [derived oe (ttl i) (items i)]).
    assert (Hi : view_at h1 (length h) = Some i).
    { unfold h1. rewrite view_at_fresh. by apply view_derived. }
    rewrite (ne_run h1 (length h) b i rB Hi (view_at_old _ _ _ _ Hv)).
    unfold i at 1. rewrite (Hpass eq_refl). cbn.
    rewrite (difference_run h1 e b oe A rB (lookup_old _ _ _ _ Hoe) Hvoe
               (view_at_old _ _ _ _ Hv)).
    cbn. fold d.
    assert (Hlen1 : length h1 = Datatypes.S (length h)).
    { unfold h1. rewrite length_app. cbn. lia. }
    rewrite Hlen1.
    assert (Hd : view_at (h1 ++ [derived_items oe (items d)]) (Datatypes.S (length h)) = Some d).
    { rewrite <- Hlen1, view_at_fresh. by apply view_derived_items. }
    rewrite (load_run _ _ _ Hd).
    destruct (len d =? 0); cbn.
    + destruct (be_delete_rdataset _ _ _ _ _ _ _) as [r s2]. cbn.
      destruct (is_IndexError r); cbn; by rewrite <- app_assoc.
    + destruct (be_put_rdataset _ _ _ _ _) as [r s2]. cbn. rewrite Hd.
      destruct (is_IndexError r); cbn; by rewrite <- app_assoc.
  - rewrite (difference_run _ _ _ _ _ _ Hoe Hvoe Hv). cbn. fold d.
    assert (Hd : view_at (h ++ [derived_items oe (items d)]) (length h) = Some d).
    { rewrite view_at_fresh. by apply view_derived_items. }
    rewrite (load_run _ _ _ Hd).
    destruct (len d =? 0); cbn.
    + destruct (be_delete_rdataset _ _ _ _ _ _ _) as [r s2]. cbn.
      destruct (is_IndexError r); cbn; by rewrite <- app_assoc.
    + destruct (be_put_rdataset _ _ _ _ _) as [r s2]. cbn. rewrite Hd.
      destruct (is_IndexError r); cbn; by rewrite <- app_assoc.
Qed.

(** Lines 167-168 of [set_serial]: the record set written has one member. *)
Lemma serial_written_not_empty self n tl rd :
  logs_only (S:=S) no_empty_write
    (new_rdataset <- on_heap (Algebra.from_rdata tl rd) ;;
     replace self [AName n; ARef new_rdataset]).
Proof.
  intros [h s lg]. unfold appends, bind at 1, on_heap at 1.
  cbn [heap store log Algebra.from_rdata alloc].
  destruct (read_only self) eqn:Hro.
  - destruct (read_only_guard (B:=B) self [AName n; ARef (length h)]
                (mkWorld (h ++ [mkObject KRdataset
                                  (mk_attrs (mkRdataset (rd_rdclass rd) (rd_rdtype rd)
                                                        (rd_covers rd) tl [rd]))]) s lg) Hro)
      as (_ & -> & _).
    log_done.
  - rewrite (replace_name_rdataset_run self n (length h) _ s lg _ Hro (lookup_fresh _ _)).
    unfold except_IndexError, _put_rdataset, backend_call. cbn [heap store log].
    destruct (be_put_rdataset _ _ _ _ _) as [rp s2].
    rewrite view_at_fresh, view_mk_attrs.
    destruct (is_IndexError rp); log_done; cbn; discriminate.
Qed.

Lemma set_serial_no_empty_write self increment value name c :
  logs_only (S:=S) no_empty_write (set_serial self increment value name c).
Proof.
  unfold set_serial, as_name, _get_rdataset.
  repeat first [ apply serial_written_not_empty | logs_step ].
Qed.

End NoEmptyWrite.

Ltac no_result :=
  intros [= <- <-]; repeat split;
  solve [done | by intros ? ? [=] | by intros ? ? ? [=]].

Section NoEmptyWriteAdd.

Context {E : Externals} {S : Type} {B : Backend S}.

Import Transaction.

Implicit Types (w : World S) (h : Heap).

(** The record set the arguments resolve to is not empty when no record-set
    argument is; resolving makes no call. *)
Lemma _rdataset_from_args_inv method deleting args h (s : S) lg x w' :
  no_empty_argument h args ->
  _rdataset_from_args method deleting args (mkWorld h s lg) = (x, w') ->
  store w' = s /\ log w' = lg /\
  forall l rest, x = inr (Some l, rest) ->
    forall r, view_at (heap w') l = Some r -> items r <> [].
Proof.
  intros Hne. unfold_core. cbn.
  destruct args as [|a rest]; cbn.
  { destruct deleting; no_result. }
  destruct a as [t|nm|z|rd|l|]; cbn.
  1,2,6: destruct deleting; cbn; no_result.
  - (* an integer *)
    destruct deleting; cbn; [no_result|].
    destruct (z >? MAX_TTL); cbn;
      [no_result|].
    destruct rest as [|a' rest']; cbn;
      [no_result|].
    destruct a'; cbn; intros [= <- <-]; repeat split; try done;
      try (by intros ? ? [=]).
    intros l0 rest0 [= <- <-] r. cbn [heap]. rewrite view_at_fresh, view_mk_attrs.
    by intros [= <-].
  - (* a record-data value *)
    destruct deleting; cbn; intros [= <- <-]; repeat split; try done;
      try (by intros ? ? [=]).
    intros l0 rest0 [= <- <-] r. cbn [heap]. rewrite view_at_fresh, view_mk_attrs.
    by intros [= <-].
  - (* a reference *)
    destruct (isinstance l KRdataset h) as [[e|b] h1] eqn:Hi;
      apply isinstance_inv in Hi as ->; cbn.
    + destruct e; destruct deleting; cbn; no_result.
    + destruct b; cbn.
      * intros [= <- <-]. repeat split; try done.
        intros l0 rest0 [= <- <-] r Hr. eapply Hne; [|exact Hr]. by left.
      * destruct deleting; cbn; no_result.
Qed.

Lemma _add_resolve_inv method args h (s : S) lg x w' :
  no_empty_argument h args ->
  _add_resolve method args (mkWorld h s lg) = (x, w') ->
  store w' = s /\ log w' = lg /\
  forall n l rest, x = inr (n, Some l, rest) ->
    forall r, view_at (heap w') l = Some r -> items r <> [].
Proof.
  intros Hne. unfold _add_resolve, bind at 1.
  destruct args as [|a rest]; cbn [popleft raise ret].
  { no_result. }
  assert (Hrest : no_empty_argument h rest).
  { intros l r Hin. apply Hne. by right. }
  assert (Hname : forall nm,
    (y <- _rdataset_from_args method false rest ;;
     let '(rdataset, args) := y in ret (nm, rdataset, args)) (mkWorld h s lg)
    = (x, w') ->
    store w' = s /\ log w' = lg /\
    forall n l rest0, x = inr (n, Some l, rest0) ->
      forall r, view_at (heap w') l = Some r -> items r <> []).
  { intros nm. unfold bind.
    destruct (_rdataset_from_args method false rest (mkWorld h s lg))
      as [[e|[ol rest1]] w1] eqn:Hr;
      destruct (_rdataset_from_args_inv _ _ _ _ _ _ _ _ Hrest Hr) as (Hs & Hl & Hv).
    - no_result.
    - cbn. intros [= <- <-]. repeat split; try done.
      intros n l rest0 [= -> -> ->]. by eapply Hv. }
  unfold bind at 1.
  destruct a as [t|nm|z|rd|l|]; cbn [text_to_name ret].
  - (* text *)
    unfold bind at 1, liftR. destruct (from_text t) as [e|nm]; cbn.
    + no_result.
    + apply Hname.
  - apply Hname.
  - cbn. no_result.
  - cbn. no_result.
  - (* a reference: an RRset or nothing *)
    unfold_core. cbn.
    destruct (isinstance l KRRset h) as [[e|b] h1] eqn:Hi;
      apply isinstance_inv in Hi as ->; cbn.
    { no_result. }
    destruct b; cbn;
      [|no_result].
    destruct (deref l h) as [[e|o] h1] eqn:Hd; apply deref_inv in Hd as ->; cbn.
    { no_result. }
    destruct (attr_get "name" (attrs o)) as [[| | |nm| |]|]; cbn;
      try (no_result).
    destruct (load l h) as [[e|r] h1] eqn:Hl; apply load_inv in Hl as [-> Hl]; cbn.
    { no_result. }
    specialize (Hl r eq_refl).
    erewrite union_update_fresh;
      [| reflexivity | apply view_mk_attrs | exact Hl].
    cbn. intros [= <- <-]. repeat split; try done.
    intros n l0 rest0 [= <- <- <-] r0. cbn [heap].
    rewrite view_at_fresh.
    change (mkObject KRdataset _)
      with (mkObject KRdataset (mk_attrs (Algebra.union_rds
              (mkRdataset (rdclass r) (rdtype r) (covers r) (ttl r) []) r))).
    rewrite view_mk_attrs. intros [= <-].
    apply union_items_nonempty. eapply Hne; [|exact Hl]. by left.
  - cbn. no_result.
Qed.

(** Lines 233-245 of [_add]: what is written holds the members of the
    record set resolved from the arguments. *)
Lemma _add_apply_no_empty_write self replace method n ol rest w :
  (forall l r, ol = Some l -> view_at (heap w) l = Some r -> items r <> []) ->
  appends no_empty_write (_add_apply self replace method n ol rest) w.
Proof.
  intros Hne. destruct w as [h s lg]. cbn [heap] in Hne.
  unfold appends. unfold_core. cbn.
  destruct (negb (length rest =? 0)%nat); cbn; [log_done|].
  destruct ol as [l|]; cbn; [|log_done].
  specialize (Hne l).
  destruct replace; cbn.
  { destruct (be_put_rdataset _ _ _ _ _). cbn.
    destruct (view_at h l) as [r|] eqn:Hv; log_done. cbn. by eapply Hne. }
  destruct (load l h) as [[e|r] h1] eqn:Hl; apply load_inv in Hl as [-> Hl]; cbn;
    [log_done|].
  specialize (Hl r eq_refl). pose proof (Hne r eq_refl Hl) as Hr.
  destruct (be_get_rdataset _ _ _ _ _ _ _) as [[e|[ex|]] s1]; cbn; [log_done| |].
  2:{ destruct (be_put_rdataset _ _ _ _ _). cbn. rewrite Hl. by log_done. }
  destruct (isinstance ex KImmutableRdataset h) as [[e|imm] h1] eqn:Hi;
    apply isinstance_inv in Hi as ->; cbn; [log_done|].
  destruct imm; cbn.
  - destruct (load ex h) as [[e|ea] h1] eqn:Hle; apply load_inv in Hle as [-> _];
      cbn; [log_done|].
    destruct (Algebra.update _ _ _) as [[e|[]] h2] eqn:Hu;
      apply update_fresh_inv in Hu as [o' ->]; try reflexivity; cbn; [log_done|].
    destruct (Algebra.union (length h) l (h ++ [o'])) as [[e|lu] h3] eqn:Hun; cbn;
      [log_done|].
    destruct (union_inv _ _ _ _ _ _ (view_at_old _ [o'] _ _ Hl) Hun) as [ra Hvu].
    destruct (be_put_rdataset _ _ _ _ _). cbn. rewrite Hvu. log_done.
    cbn. by apply union_items_nonempty.
  - destruct (Algebra.union ex l h) as [[e|lu] h3] eqn:Hun; cbn; [log_done|].
    destruct (union_inv _ _ _ _ _ _ Hl Hun) as [ra Hvu].
    destruct (be_put_rdataset _ _ _ _ _). cbn. rewrite Hvu. log_done.
    cbn. by apply union_items_nonempty.
Qed.

Lemma _add_no_empty_write self replace args w :
  no_empty_argument (heap w) args ->
  appends no_empty_write (_add self replace args) w.
Proof.
  intros Hne. destruct w as [h s lg]. cbn [heap] in Hne.
  unfold appends, _add, except_IndexError, bind.
  set (method := if replace then "replace()" else "add()").
  destruct (_add_resolve method args (mkWorld h s lg)) as [[e|[[n ol] rest]] w1] eqn:Hr;
    destruct (_add_resolve_inv _ _ _ _ _ _ _ Hne Hr) as (Hs & Hl & Hv).
  - destruct e; cbn [is_IndexError raise fst snd];
      exists []; (split; [by rewrite Hl, app_nil_r | by constructor]).
  - assert (Happ : appends no_empty_write
                     (_add_apply self replace method n ol rest) w1).
    { apply _add_apply_no_empty_write. intros l r ->. by eapply Hv. }
    destruct Happ as (lg1 & Hlog & Hall).
    destruct (_add_apply self replace method n ol rest w1) as [r2 w2].
    cbn in Hlog. rewrite Hl in Hlog.
    destruct (is_IndexError r2); cbn; exists lg1; by split.
Qed.

(** C9, as amended.  [delete], [delete_exact] and [set_serial], whatever
    their arguments, and [add] and [replace], when no record-set object
    among their arguments is empty, never write an empty record set: every
    call they append to the log is a lookup, a delete, an existence check,
    or the write of a record set that has a member.  In the record-set form
    of [delete] and [delete_exact], on a writable transaction, when the
    lookup finds a record set (which, for [delete_exact], holds every
    requested record), exactly one call follows the lookup: the delete of
    the selector when the difference is empty, in the place of a write, and
    the write of the difference, a new object, when it is not. *)
Theorem no_empty_record_set_written self w :
  (forall args, appends no_empty_write (delete self args) w) /\
  (forall args, appends no_empty_write (delete_exact self args) w) /\
  (forall increment value name c,
     appends no_empty_write (set_serial self increment value name c) w) /\
  (forall args, no_empty_argument (heap w) args ->
     appends no_empty_write (add self args) w) /\
  (forall args, no_empty_argument (heap w) args ->
     appends no_empty_write (replace self args) w) /\
  (forall (exact : bool) n b rB e A s1,
     read_only self = false ->
     view_at (heap w) b = Some rB -> items rB <> [] ->
     be_get_rdataset self (heap w) n (rdclass rB) (rdtype rB) (covers rB) (store w)
     = (inr (Some e), s1) ->
     view_at (heap w) e = Some A ->
     (exact = true -> Algebra.eq_rds (Algebra.intersection_rds A rB) rB = true) ->
     let d := Algebra.difference_rds A rB in
     let fresh := ((if exact then 1 else 0) + length (heap w))%nat in
     log ((if exact then delete_exact self else delete self) [AName n; ARef b] w).2
     = log w ++ [CGet n (rdclass rB) (rdtype rB) (covers rB);
                 if len d =? 0
                 then CDeleteRdataset n (rdclass d) (rdtype d) (covers d)
                 else CPut n fresh (Some d)]).
Proof.
  assert (Hguard : forall m : St (World S) unit,
            appends no_empty_write m w ->
            appends no_empty_write (_check_read_only self ;;; m) w).
  { intros m Hm. unfold _check_read_only, bind.
    destruct (read_only self); cbn; [|exact Hm].
    exists []. cbn. by rewrite app_nil_r. }
  split; [|split; [|split; [|split; [|split]]]].
  - intros args. apply Hguard, _delete_no_empty_write.
  - intros args. apply Hguard, _delete_no_empty_write.
  - intros. apply set_serial_no_empty_write.
  - intros args Hne. by apply Hguard, _add_no_empty_write.
  - intros args Hne. by apply Hguard, _add_no_empty_write.
  - intros exact n b rB e A s1 Hro Hv Hne Hget HA Hpass d fresh.
    destruct w as [h s lg]. cbn [heap store log] in *.
    assert (Hrun : (if exact then delete_exact self else delete self)
                     [AName n; ARef b] (mkWorld h s lg)
                   = _delete self exact [AName n; ARef b] (mkWorld h s lg)).
    { unfold delete, delete_exact, _check_read_only, bind. rewrite Hro.
      by destruct exact. }
    rewrite Hrun.
    exact (_delete_difference_log self exact n b rB e A s1 h s lg
             Hv Hne Hget HA Hpass).
Qed.

End NoEmptyWriteAdd.

(* ===================================================================== *)
(** * The statements at concrete inputs *)
(* ===================================================================== *)

Section Examples.

Import Transaction Fixture.

Example new_serial_wraps : new_serial 1 None (inr 0xffffffff) = inr 1.
Proof. reflexivity. Qed.

Example new_serial_value_without_increment : new_serial 0 (Some 5) (inr 10) = inr 5.
Proof. reflexivity. Qed.

Example new_serial_value_with_increment : new_serial 1 (Some 5) (inr 10) = inr 6.
Proof. reflexivity. Qed.

(** C1, the claim as stated fails: on a zone whose SOA serial is 10,
    [set_serial] with the explicit value 5 and the default increment 1
    writes serial 6, not 5. *)
Lemma set_serial_value_5_writes_6 :
  puts (log (set_serial rw 1 (Some 5) (NName name_empty) rdataclass_IN w_zone).2)
  = puts (log w_zone) ++ [(name_empty, Some (mkRdataset 1 6 0 3600 [soa 6]))]
  /\ soa 6 <> soa 5.
Proof. split; [vm_compute; reflexivity | discriminate]. Qed.

Lemma set_serial_writes_witness :
  log (set_serial rw 0 (Some 5) (NName name_empty) rdataclass_IN w_zone).2
  = (log w_zone ++ [CGet name_empty 1 6 0])
    ++ [CPut name_empty (length (heap w_zone))
             (Some (mkRdataset 1 6 0 3600 [soa 5]))].
Proof.
  exact (proj2 (set_serial_writes rw 0 (Some 5) (NName name_empty) rdataclass_IN
                  w_zone name_empty 2%nat (store w_zone)
                  (mkRdataset 1 6 0 3600 [soa 10]) (soa 10) [] 10
                  eq_refl eq_refl eq_refl eq_refl eq_refl eq_refl)).
Defined.

(** C2, the failing input: [set_serial] on a read-only transaction.  With
    a SOA in the zone the point lookup is made, and recorded in the log,
    before [ReadOnly] is raised by [replace]; without one the call fails
    with [KeyError], not with [ReadOnly]. *)
Theorem set_serial_read_only_reaches_backend :
  (let out := set_serial ro 1 None (NName name_empty) rdataclass_IN w_zone in
   out.1 = inl ReadOnly /\
   log out.2 = log w_zone ++ [CGet name_empty 1 6 0]) /\
  (let out := set_serial ro 1 None (NName name_empty) rdataclass_IN
                         (empty_world h_demo) in
   out.1 = inl KeyError /\
   log out.2 = [CGet name_empty 1 6 0]).
Proof. repeat split; vm_compute; reflexivity. Qed.

(** C8, the claim as stated fails: the backend holds an immutable record
    set, and [get] returns that very object, not a copy of it; no object
    is created. *)
Lemma get_returns_backend_object :
  let out := get rw (NName www) (AInt 1) (AInt 1) 0 w_republished in
  exists l,
    MemBackend.nodes (store w_republished) !! (www, (1, 1, 0)) = Some l /\
    out.1 = inr (Some l) /\
    heap out.2 = heap w_republished.
Proof. exists 6%nat. repeat split; vm_compute; reflexivity. Qed.

Lemma scoped_block_ends_once_witness :
  (with_ rw failing_body w_zone).1
  = inl (DeleteNotExact "delete_exact(): missing rdatas") /\
  ends (log (with_ rw failing_body w_zone).2) = ends (log w_zone) ++ [false].
Proof.
  assert (Hb : logs_only not_end (failing_body rw)).
  { unfold failing_body.
    apply logs_only_bind; [apply api_never_ends | intros _; apply api_never_ends]. }
  destruct (scoped_block_ends_once rw failing_body w_zone Hb) as [H1 H2].
  split.
  - rewrite H1. vm_compute. reflexivity.
  - rewrite H2. vm_compute. reflexivity.
Defined.

(** C7, the claim as stated fails.  Nothing keeps a transaction from being
    ended twice: [__exit__] ends it whenever a block is left, so a block
    inside a block on the same transaction, or a second block after the
    first, ends it again.  And when ending the transaction raises, it is
    that error which reaches the caller, not the error of the body. *)
Lemma transaction_ended_twice :
  (let out := with_ rw (fun self => with_ self (fun _ => ret tt)) w_zone in
   out.1 = inr tt /\
   ends (log w_zone) = [] /\
   ends (log out.2) = [true; true] /\
   MemBackend.ended (store out.2) = [true; true]) /\
  (let out := (with_ rw (fun _ => ret tt) ;;; with_ rw (fun _ => ret tt)) w_zone in
   out.1 = inr tt /\
   ends (log out.2) = [true; true] /\
   MemBackend.ended (store out.2) = [true; true]) /\
  (let out := with_ (B:=end_fails) rw (fun _ => raise KeyError) w_zone in
   out.1 = inl (UserError "cannot end") /\
   ends (log out.2) = [false]).
Proof. repeat split; vm_compute; reflexivity. Qed.

Lemma get_immutable_or_none_witness :
  exists l' h',
    get rw (NName www) (AInt 1) (AInt 1) 0 w_zone
    = (inr (Some l'), mkWorld h' (store w_zone) (log w_zone ++ [CGet www 1 1 0])) /\
    l' <> 0%nat /\
    view_at h' l' = Some (mkRdataset 1 1 0 300 [a1; a2]) /\
    setattr l' "ttl" (VInt 0) h' = (inl Immutable.no_assignment, h') /\
    delattr l' "items" h' = (inl Immutable.no_assignment, h').
Proof.
  assert (Hs : heap_sealed (heap w_zone)).
  { vm_compute. repeat constructor; discriminate. }
  assert (Hf : forall l, Some 0%nat = Some l -> is_Some (view_at (heap w_zone) l)).
  { intros l [= <-]. eexists. vm_compute. reflexivity. }
  destruct (get_immutable_or_none (E:=externals) (B:=MemBackend.backend)
              rw (NName www) (AInt 1) (AInt 1) 0 w_zone
              www 1 1 (Some 0%nat) (store w_zone)
              eq_refl eq_refl eq_refl eq_refl Hs Hf)
    as (l' & h' & Hrun & Hl & _ & Hv & _ & Hset & Hdel).
  exists l', h'. split; [exact Hrun|].
  destruct Hl as (Hl & Hne & _). repeat split.
  - exact Hne.
  - rewrite Hv. vm_compute. reflexivity.
  - apply Hset.
  - apply Hdel.
Defined.

(** C10, the claim as stated fails: handed an RRset, [delete] works on the
    RRset itself.  The record set its normalizer yields is the reference it
    was given, an object of class RRset; nothing is copied, and the only
    object the whole call creates is the difference. *)
Lemma delete_works_on_the_rrset :
  _delete_resolve rw false "delete()" [ARef 5%nat] w_zone
  = (inr (Some (www, Some 5%nat, [])), w_zone) /\
  class_at (heap w_zone) 5%nat = Some KRRset /\
  length (heap (delete rw [ARef 5%nat] w_zone).2) = S (length (heap w_zone)).
Proof. repeat split; vm_compute; reflexivity. Qed.

Lemma rrset_argument_normalized_witness :
  (exists h',
     _add_resolve "add()" [ARef 5%nat] w_zone
     = (inr (www, Some 6%nat, []), mkWorld h' (store w_zone) (log w_zone)) /\
     class_at h' 6%nat = Some KRdataset /\
     view_at h' 6%nat = Some (mkRdataset 1 1 0 300 [a1])) /\
  _delete_resolve rw true "delete_exact()" [ARef 5%nat] w_zone
  = (inr (Some (www, Some 5%nat, [])), w_zone).
Proof.
  assert (Hnd : NoDup (items (mkRdataset 1 1 0 300 [a1]))).
  { apply NoDup_singleton. }
  destruct (rrset_argument_normalized (E:=externals) (B:=MemBackend.backend)
              rw true "add()" 5%nat [] (heap w_zone)
              (store w_zone) (log w_zone)
              (rrset_obj www (mkRdataset 1 1 0 300 [a1])) www
              (mkRdataset 1 1 0 300 [a1])
              eq_refl eq_refl eq_refl eq_refl Hnd)
    as [(h' & Hrun & _ & _ & Hc & Hv & _) Hdel].
  split; [|exact Hdel].
  exists h'. repeat split; [exact Hrun | exact Hc | exact Hv].
Defined.

Lemma refs_valid_decided (w : World MemBackend.State) :
  map_Forall (fun _ l => (l < length (heap w))%nat) (MemBackend.nodes (store w)) ->
  MemBackend.refs_valid w.
Proof. intros H k l Hk. exact (H k l Hk). Qed.

Lemma w_zone_valid : MemBackend.refs_valid w_zone.
Proof.
  apply refs_valid_decided.
  refine (bool_decide_unpack _ _). vm_compute. exact I.
Qed.

Lemma w_republished_valid : MemBackend.refs_valid w_republished.
Proof.
  apply refs_valid_decided.
  refine (bool_decide_unpack _ _). vm_compute. exact I.
Qed.

Lemma delete_exact_checks_then_deletes_witness :
  (* a record that is not stored is requested: the call fails, nothing changes *)
  (is_DeleteNotExact (delete_exact rw [AName www; ARef 1%nat] w_zone).1 = true /\
   store (delete_exact rw [AName www; ARef 1%nat] w_zone).2 = store w_zone) /\
  (* the class-and-type form on a selector that holds data: as [delete] *)
  ((delete_exact rw [AName www; AInt 1; AInt 15] w_zone).1 = inr tt /\
   MemBackend.same_content (delete_exact rw [AName www; AInt 1; AInt 15] w_zone).2
                           (delete rw [AName www; AInt 1; AInt 15] w_zone).2) /\
  (* the name-only form on a name that does not exist: the call fails *)
  is_DeleteNotExact (delete_exact rw [AName ["nowhere"]] w_zone).1 = true.
Proof.
  destruct (delete_exact_checks_then_deletes (E:=externals) rw www w_zone
              eq_refl w_zone_valid) as (HA & _ & HB & _).
  destruct (delete_exact_checks_then_deletes (E:=externals) rw ["nowhere"] w_zone
              eq_refl w_zone_valid) as (_ & _ & _ & HC).
  specialize (HA 1%nat (mkRdataset 1 1 0 200 [a2; a3]) 0%nat
                 (mkRdataset 1 1 0 300 [a1; a2]) eq_refl eq_refl eq_refl eq_refl).
  specialize (HB 1 (AInt 15) [] 1 15 0 eq_refl eq_refl eq_refl).
  cbv zeta in HA, HB, HC.
  destruct HA as (Hfail & _ & Hsame & _).
  destruct HB as (HBfail & _ & HBok).
  destruct HC as (HCfail & _).
  assert (Hf : is_DeleteNotExact (delete_exact rw [AName www; ARef 1%nat] w_zone).1 = true).
  { apply Hfail. vm_compute. reflexivity. }
  split; [split | split; [split|]].
  - exact Hf.
  - exact (proj1 (Hsame Hf)).
  - apply HBok. vm_compute. reflexivity.
  - apply HBok. vm_compute. reflexivity.
  - apply HCfail. intros sel.
    apply (proj1 (MemBackend_known_false (MemBackend.nodes (store w_zone)) ["nowhere"])).
    vm_compute. reflexivity.
Defined.

Lemma add_unions_witness :
  let out := add rw [AName www; ARef 1%nat] w_republished in
  out.1 = inr tt /\
  MemBackend.stored out.2 (www, (1, 1, 0)) = Some (mkRdataset 1 1 0 200 [a1; a2; a3]) /\
  (* the stored record set was immutable: a mutable copy, then the union *)
  heap out.2 !! 6%nat = heap w_republished !! 6%nat /\
  class_at (heap out.2) 6%nat = Some KImmutableRdataset /\
  class_at (heap out.2) 7%nat = Some KRdataset /\
  view_at (heap out.2) 7%nat = Some (mkRdataset 1 1 0 300 [a1; a2]) /\
  MemBackend.nodes (store out.2) !! (www, (1, 1, 0)) = Some 8%nat.
Proof.
  assert (Hst : forall e,
            MemBackend.nodes (store w_republished)
              !! (www, MemBackend.selector (mkRdataset 1 1 0 200 [a2; a3])) = Some e ->
            exists A, view_at (heap w_republished) e = Some A /\
                      MemBackend.selector A
                      = MemBackend.selector (mkRdataset 1 1 0 200 [a2; a3]) /\
                      NoDup (items A)).
  { intros e He. vm_compute in He. injection He as <-.
    exists (mkRdataset 1 1 0 300 [a1; a2]). split; [vm_compute; reflexivity|].
    split; [reflexivity|]. refine (bool_decide_unpack _ _). vm_compute. exact I. }
  destruct (add_unions (E:=externals) rw www 1%nat (mkRdataset 1 1 0 200 [a2; a3])
              (AInt 1) (AInt 1) w_republished eq_refl eq_refl eq_refl eq_refl Hst)
    as (Hok & _ & Hstored & Himm & _).
  destruct (Himm 6%nat eq_refl eq_refl) as (A & HA & Hheap & Hnode & Hsame).
  assert (A = mkRdataset 1 1 0 300 [a1; a2]) as ->.
  { vm_compute in HA. by injection HA. }
  cbv zeta in Hheap.
  split; [exact Hok|].
  split; [refine (eq_trans Hstored _); vm_compute; reflexivity|].
  split; [exact Hsame|].
  split; [rewrite Hheap; vm_compute; reflexivity|].
  split; [rewrite Hheap; vm_compute; reflexivity|].
  split; [rewrite Hheap; vm_compute; reflexivity|].
  exact Hnode.
Defined.

Lemma replace_overwrites_witness :
  let out := replace rw [AName www; ARef 1%nat] w_zone in
  MemBackend.stored w_zone (www, (1, 1, 0)) = Some (mkRdataset 1 1 0 300 [a1; a2]) /\
  out.1 = inr tt /\
  MemBackend.stored out.2 (www, (1, 1, 0)) = Some (mkRdataset 1 1 0 200 [a2; a3]) /\
  MemBackend.nodes (store out.2) !! (www, (1, 15, 0))
  = MemBackend.nodes (store w_zone) !! (www, (1, 15, 0)).
Proof.
  destruct (replace_overwrites (E:=externals) rw www 1%nat
              (mkRdataset 1 1 0 200 [a2; a3]) (AInt 1) (AInt 1) w_zone
              eq_refl eq_refl eq_refl eq_refl)
    as (Hok & _ & _ & Hstored & Hother & _).
  split; [vm_compute; reflexivity|].
  split; [exact Hok|]. split; [exact Hstored|].
  apply Hother. discriminate.
Defined.

(** C6, the failing input: [delete] with a name and an empty record set.
    The difference between what is stored and nothing is what is stored,
    but the call deletes the whole name: the addresses of [www], which the
    empty record set selects, and its mail records too. *)
Theorem delete_empty_record_set_deletes_name :
  let out := delete rw [AName www; ARef 3%nat] w_zone in
  view_at (heap w_zone) 3%nat = Some (mkRdataset 1 1 0 300 []) /\
  MemBackend.stored w_zone (www, (1, 1, 0)) = Some (mkRdataset 1 1 0 300 [a1; a2]) /\
  MemBackend.stored w_zone (www, (1, 15, 0)) = Some (mkRdataset 1 15 0 300 [mx1]) /\
  out.1 = inr tt /\
  log out.2 = log w_zone ++ [CDeleteName www] /\
  MemBackend.stored out.2 (www, (1, 1, 0)) = None /\
  MemBackend.stored out.2 (www, (1, 15, 0)) = None.
Proof. repeat split; vm_compute; reflexivity. Qed.

(** C9, the claim as stated fails: [add] with an empty record set, at a
    selector that holds nothing, writes the empty record set; no delete is
    issued in its place. *)
Lemma add_writes_empty_record_set :
  let out := add rw [AName ["new"]; ARef 3%nat] w_zone in
  out.1 = inr tt /\
  log out.2
  = log w_zone ++ [CGet ["new"] 1 1 0;
                   CPut ["new"] 3%nat (Some (mkRdataset 1 1 0 300 []))] /\
  MemBackend.stored out.2 (["new"], (1, 1, 0)) = Some (mkRdataset 1 1 0 300 []) /\
  ~ no_empty_write (CPut ["new"] 3%nat (Some (mkRdataset 1 1 0 300 []))).
Proof.
  split; [vm_compute; reflexivity|]. split; [vm_compute; reflexivity|].
  split; [vm_compute; reflexivity|]. intros H. by apply H.
Qed.

Lemma no_empty_record_set_written_witness :
  appends no_empty_write (add rw [AName www; ARef 1%nat]) w_zone /\
  appends no_empty_write (delete rw [AName www; ARef 0%nat]) w_zone /\
  (* every stored address is requested: the selector is deleted *)
  log (delete rw [AName www; ARef 0%nat] w_zone).2
  = log w_zone ++ [CGet www 1 1 0; CDeleteRdataset www 1 1 0] /\
  (* one stored address remains: it is written, in a new object *)
  log (delete rw [AName www; ARef 1%nat] w_zone).2
  = log w_zone ++ [CGet www 1 1 0;
                   CPut www (length (heap w_zone))
                        (Some (mkRdataset 1 1 0 300 [a1]))].
Proof.
  destruct (no_empty_record_set_written (E:=externals) (B:=MemBackend.backend)
              rw w_zone) as (Hdel & _ & _ & Hadd & _ & Hdiff).
  split; [|split; [apply Hdel|split]].
  - apply Hadd. intros l r Hin Hv.
    apply list_elem_of_In in Hin. cbn in Hin.
    destruct Hin as [Hin|[Hin|[]]]; [discriminate|]. injection Hin as <-.
    vm_compute in Hv. injection Hv as <-. discriminate.
  - exact (Hdiff false www 0%nat (mkRdataset 1 1 0 300 [a1; a2]) 0%nat
             (mkRdataset 1 1 0 300 [a1; a2]) (store w_zone)
             eq_refl eq_refl ltac:(discriminate) eq_refl eq_refl
             ltac:(discriminate)).
  - exact (Hdiff false www 1%nat (mkRdataset 1 1 0 200 [a2; a3]) 0%nat
             (mkRdataset 1 1 0 300 [a1; a2]) (store w_zone)
             eq_refl eq_refl ltac:(discriminate) eq_refl eq_refl
             ltac:(discriminate)).
Defined.

End Examples.

(* ===================================================================== *)
(** * Reads and read-only transactions *)
(* ===================================================================== *)

Section Reads.

Context {E : Externals} {S : Type} {B : Backend S}.

Import Transaction.

(** X1.  [get] and [name_exists] only read: whatever their arguments and
    whatever the transaction, the only calls they make into the backend are
    point lookups and existence checks. *)
Theorem reads_never_write self :
  (forall name c t v, logs_only (S:=S) is_read (get self name c t v)) /\
  (forall name, logs_only (S:=S) is_read (name_exists self name)).
Proof.
  split; intros; unfold get, name_exists, as_name, _get_rdataset, _name_exists;
    repeat logs_step.
Qed.



End Reads.

(* ===================================================================== *)
(** * The two phases of an operation *)
(* ===================================================================== *)

Section Phases.

Context {E : Externals} {S : Type} {B : Backend S}.

Import Transaction.

Variable Rd : World S -> World S -> Prop.
Variable Fin : World S -> bool -> World S -> Prop.

Hypothesis Rd_refl : forall w, Rd w w.
Hypothesis Rd_trans : forall w1 w2 w3, Rd w1 w2 -> Rd w2 w3 -> Rd w1 w3.
Hypothesis Rd_heap : forall w h, Rd w (mkWorld h (store w) (log w)).
Hypothesis Rd_Fin : forall w1 w2 b, Rd w1 w2 -> Fin w1 b w2.
Hypothesis Rd_then_Fin : forall w1 w2 w3 b, Rd w1 w2 -> Fin w2 b w3 -> Fin w1 b w3.

Hypothesis Rd_get : forall self n c t v, reading Rd (_get_rdataset self n c t v).
Hypothesis Rd_exists : forall self n, reading Rd (_name_exists self n).
Hypothesis Fin_put : forall self n l w,
  Fin w (returned (_put_rdataset self n l w).1) (_put_rdataset self n l w).2.
Hypothesis Fin_delete_name : forall self n w,
  Fin w (returned (_delete_name self n w).1) (_delete_name self n w).2.
Hypothesis Fin_delete_rdataset : forall self n c t v w,
  Fin w (returned (_delete_rdataset self n c t v w).1)
        (_delete_rdataset self n c t v w).2.

Lemma reading_ret {A} (a : A) : reading Rd (ret a).
Proof. intros w. apply Rd_refl. Qed.

Lemma reading_raise {A} e : reading (A:=A) Rd (raise e).
Proof. intros w. apply Rd_refl. Qed.

Lemma reading_liftR {A} (r : Res A) : reading Rd (liftR r).
Proof. intros w. apply Rd_refl. Qed.

Lemma reading_on_heap {A} (m : St Heap A) : reading Rd (on_heap m).
Proof. intros w. unfold on_heap. destruct (m (heap w)). apply Rd_heap. Qed.

Lemma reading_bind {A C} (m : St (World S) A) (f : A -> St (World S) C) :
  reading Rd m -> (forall a, reading Rd (f a)) -> reading Rd (bind m f).
Proof.
  intros Hm Hf w. unfold bind. specialize (Hm w).
  destruct (m w) as [[e|a] w1]; simpl in *; [exact Hm|].
  eapply Rd_trans; [exact Hm | apply Hf].
Qed.

Lemma reading_except {A} (m k : St (World S) A) :
  reading Rd m -> reading Rd k -> reading Rd (except_IndexError m k).
Proof.
  intros Hm Hk w. unfold except_IndexError. specialize (Hm w).
  destruct (m w) as [r w1]; simpl in *.
  destruct (is_IndexError r); [|exact Hm].
  eapply Rd_trans; [exact Hm | apply Hk].
Qed.

Lemma finishing_reading {A} q (m : St (World S) A) :
  reading Rd m -> finishing Rd Fin q m.
Proof. intros Hm w. split; [apply Rd_Fin, Hm | intros; apply Hm]. Qed.

Lemma finishing_bind {A C} q (m : St (World S) A) (f : A -> St (World S) C) :
  reading Rd m -> (forall a, finishing Rd Fin q (f a)) ->
  finishing Rd Fin q (bind m f).
Proof.
  intros Hm Hf w. unfold bind. specialize (Hm w).
  destruct (m w) as [[e|a] w1]; simpl in *.
  - split; [by apply Rd_Fin | intros; discriminate].
  - destruct (Hf a w1) as [H1 H2]. split.
    + eapply Rd_then_Fin; eauto.
    + intros b Hb Hq. eapply Rd_trans; eauto.
Qed.

Lemma finishing_write {A} (m : St (World S) A) :
  (forall w, Fin w (returned (m w).1) (m w).2) -> finishing Rd Fin anything m.
Proof. intros Hm w. split; [apply Hm | intros; discriminate]. Qed.

Lemma finishing_then_ret {A C} q (m : St (World S) A) (b : C) :
  finishing Rd Fin anything m -> q b = true ->
  finishing Rd Fin q (m ;;; ret b).
Proof.
  intros Hm Hq w. destruct (Hm w) as [H1 _]. unfold bind.
  destruct (m w) as [[e|a] w1]; simpl in *.
  - split; [exact H1 | intros; discriminate].
  - split; [exact H1 | intros b' [= <-] Hq'; congruence].
Qed.

Lemma finishing_resume {A C} q (m : St (World S) A) (f : A -> St (World S) C) :
  finishing Rd Fin q m ->
  (forall a, q a = true -> exists b, f a = ret b) ->
  (forall a, q a = false -> finishing Rd Fin anything (f a)) ->
  finishing Rd Fin anything (bind m f).
Proof.
  intros Hm Hquiet Hf w. destruct (Hm w) as [H1 H2]. unfold bind.
  destruct (m w) as [[e|a] w1]; simpl in *.
  - split; [exact H1 | intros; discriminate].
  - destruct (q a) eqn:Hq.
    + destruct (Hquiet a Hq) as [b ->]. split; [exact H1 | intros; discriminate].
    + specialize (H2 a eq_refl Hq). destruct (Hf a Hq w1) as [H3 _].
      split; [eapply Rd_then_Fin; eauto | intros; discriminate].
Qed.

Lemma finishing_except {A} q (m : St (World S) A) e :
  finishing Rd Fin q m -> finishing Rd Fin q (except_IndexError m (raise e)).
Proof.
  intros Hm w. destruct (Hm w) as [H1 H2]. unfold except_IndexError.
  destruct (m w) as [[x|a] w1]; simpl in *.
  - destruct x; simpl; (split; [exact H1 | intros; discriminate]).
  - split; [exact H1 | exact H2].
Qed.

Ltac read_step :=
  first
    [ apply reading_ret
    | apply reading_raise
    | apply reading_liftR
    | apply reading_on_heap
    | apply Rd_get
    | apply Rd_exists
    | apply reading_except
    | apply reading_bind; [| intros ?]
    | match goal with
      | |- reading _ (match ?x with _ => _ end) => destruct x
      end ].

Ltac fin_step :=
  first
    [ apply finishing_reading; solve [repeat read_step]
    | apply finishing_bind; [solve [repeat read_step] | intros ?]
    | apply finishing_write; intros; first [apply Fin_put | apply Fin_delete_name | apply Fin_delete_rdataset]
    | apply finishing_except
    | match goal with
      | |- finishing _ _ _ (match ?x with _ => _ end) => destruct x
      end ].

Lemma _rdataset_from_args_reading method deleting args :
  reading Rd (_rdataset_from_args method deleting args).
Proof. unfold _rdataset_from_args, popleft, isinstance_arg. repeat read_step. Qed.

Lemma _add_resolve_reading method args : reading Rd (_add_resolve method args).
Proof.
  unfold _add_resolve, popleft, text_to_name, isinstance_arg, rrset_name.
  repeat first [apply _rdataset_from_args_reading | read_step].
Qed.

Lemma _add_finishing self replace args :
  finishing Rd Fin anything (_add self replace args).
Proof.
  unfold _add. apply finishing_except.
  apply finishing_bind; [apply _add_resolve_reading|].
  intros [[name rdataset] rest].
  unfold _add_apply, _raise_if_not_empty, not_None. repeat fin_step.
Qed.

Lemma _delete_by_type_finishing self exact method name args :
  finishing Rd Fin anything (_delete_by_type self exact method name args).
Proof.
  unfold _delete_by_type, popleft, _raise_if_not_empty. repeat fin_step.
Qed.

Lemma _delete_resolve_finishing self exact method args :
  finishing Rd Fin is_None (_delete_resolve self exact method args).
Proof.
  unfold _delete_resolve, popleft, text_to_name, isinstance_arg, rrset_name.
  repeat first
    [ apply finishing_then_ret; [apply _delete_by_type_finishing | reflexivity]
    | apply finishing_reading;
      solve [repeat first [apply _rdataset_from_args_reading | read_step]]
    | fin_step ].
Qed.

Lemma _delete_apply_finishing self exact method name rdataset args :
  finishing Rd Fin anything (_delete_apply self exact method name rdataset args).
Proof.
  unfold _delete_apply, _raise_if_not_empty, truthy_rdataset. repeat fin_step.
Qed.

Lemma _delete_finishing self exact args :
  finishing Rd Fin anything (_delete self exact args).
Proof.
  unfold _delete. apply finishing_except.
  eapply finishing_resume; [apply _delete_resolve_finishing | |].
  - intros [x|] Hq; [discriminate|]. by exists tt.
  - intros [[[name rdataset] rest]|] Hq; [|discriminate].
    apply _delete_apply_finishing.
Qed.

(** Every operation that can write goes through its first phase and then
    finishes. *)
Lemma api_finishing self :
  (forall args, finishing Rd Fin anything (add self args)) /\
  (forall args, finishing Rd Fin anything (replace self args)) /\
  (forall args, finishing Rd Fin anything (delete self args)) /\
  (forall args, finishing Rd Fin anything (delete_exact self args)) /\
  (forall increment value name c,
     finishing Rd Fin anything (set_serial self increment value name c)).
Proof.
  assert (Hg : reading Rd (_check_read_only self)).
  { unfold _check_read_only. repeat read_step. }
  assert (Hreplace : forall args, finishing Rd Fin anything (replace self args)).
  { intros args. apply finishing_bind; [exact Hg | intros _; apply _add_finishing]. }
  split; [|split; [exact Hreplace|split; [|split]]]; intros.
  - apply finishing_bind; [exact Hg | intros _; apply _add_finishing].
  - apply finishing_bind; [exact Hg | intros _; apply _delete_finishing].
  - apply finishing_bind; [exact Hg | intros _; apply _delete_finishing].
  - unfold set_serial, as_name.
    repeat first [apply Hreplace | fin_step].
Qed.

End Phases.

Section WritesLast.

Context {E : Externals} {S : Type} {B : Backend S}.

Import Transaction.

Lemma reads_then_write_reads lg : Forall is_read lg -> reads_then_write lg.
Proof.
  intros H. exists lg, []. rewrite app_nil_r. repeat split; [done|constructor|simpl; lia].
Qed.

Lemma reads_then_write_one c : is_write c -> reads_then_write [c].
Proof.
  intros H. exists [], [c]. repeat split; [constructor|by constructor|simpl; lia].
Qed.

Lemma reads_then_write_after rs lg :
  Forall is_read rs -> reads_then_write lg -> reads_then_write (rs ++ lg).
Proof.
  intros Hrs (rs' & ws & -> & Hrs' & Hws & Hlen).
  exists (rs ++ rs'), ws. rewrite app_assoc. repeat split; try done.
  by apply Forall_app.
Qed.

(** X3.  Every operation that can write makes its calls in this order:
    lookups and existence checks first, then at most one write or delete,
    after which it makes no further call.  This holds for every backend,
    whatever it answers, and for every list of arguments. *)
Theorem writes_come_last self :
  (forall args, writes_last (S:=S) (add self args)) /\
  (forall args, writes_last (S:=S) (replace self args)) /\
  (forall args, writes_last (S:=S) (delete self args)) /\
  (forall args, writes_last (S:=S) (delete_exact self args)) /\
  (forall increment value name c,
     writes_last (S:=S) (set_serial self increment value name c)).
Proof.
  pose (Rd := fun w w' : World S =>
                exists lg, log w' = log w ++ lg /\ Forall is_read lg).
  pose (Fin := fun (w : World S) (_ : bool) (w' : World S) =>
                 exists lg, log w' = log w ++ lg /\ reads_then_write lg).
  assert (Hcall : forall A c (f : Heap -> S -> Res A * S) w,
            log (backend_call c f w).2 = log w ++ [c (heap w)]).
  { intros A c f w. unfold backend_call. by destruct (f (heap w) (store w)). }
  destruct (api_finishing (E:=E) (B:=B) Rd Fin) with (self := self)
    as (Hadd & Hreplace & Hdelete & Hexact & Hserial).
  - intros w. exists []. by rewrite app_nil_r.
  - intros w1 w2 w3 (l1 & E1 & F1) (l2 & E2 & F2). exists (l1 ++ l2).
    rewrite E2, E1, app_assoc. split; [done|]. by apply Forall_app.
  - intros w h. exists []. cbn. by rewrite app_nil_r.
  - intros w1 w2 b (lg & Hlg & Hr). exists lg. split; [done|].
    by apply reads_then_write_reads.
  - intros w1 w2 w3 b (l1 & E1 & F1) (l2 & E2 & F2). exists (l1 ++ l2).
    rewrite E2, E1, app_assoc. split; [done|]. by apply reads_then_write_after.
  - intros self' n c t v w. eexists. split; [apply Hcall|]. by repeat constructor.
  - intros self' n w. eexists. split; [apply Hcall|]. by repeat constructor.
  - intros self' n l w. eexists. split; [apply Hcall|]. by apply reads_then_write_one.
  - intros self' n w. eexists. split; [apply Hcall|]. by apply reads_then_write_one.
  - intros self' n c t v w. eexists. split; [apply Hcall|]. by apply reads_then_write_one.
  - repeat split; intros; intros w;
      [apply (Hadd args w) | apply (Hreplace args w) | apply (Hdelete args w)
      | apply (Hexact args w) | apply (Hserial increment value name c w)].
Qed.

(** X4.  Over a backend whose lookups leave its state alone and whose
    writes and deletes change nothing when they raise, an operation that
    raises, for whatever reason, leaves the state of the backend exactly as
    it found it. *)
Theorem failure_changes_nothing self :
  Atomic B ->
  (forall args w, returned (add self args w).1 = false ->
                  store (add self args w).2 = store w) /\
  (forall args w, returned (replace self args w).1 = false ->
                  store (replace self args w).2 = store w) /\
  (forall args w, returned (delete self args w).1 = false ->
                  store (delete self args w).2 = store w) /\
  (forall args w, returned (delete_exact self args w).1 = false ->
                  store (delete_exact self args w).2 = store w) /\
  (forall increment value name c w,
     returned (set_serial self increment value name c w).1 = false ->
     store (set_serial self increment value name c w).2 = store w).
Proof.
  intros HB.
  pose (Rd := fun w w' : World S => store w' = store w).
  pose (Fin := fun (w : World S) (b : bool) (w' : World S) =>
                 b = false -> store w' = store w).
  destruct (api_finishing (E:=E) (B:=B) Rd Fin) with (self := self)
    as (Hadd & Hreplace & Hdelete & Hexact & Hserial).
  - by intros w.
  - intros w1 w2 w3 H1 H2. unfold Rd in *. congruence.
  - by intros w h.
  - by intros w1 w2 b H _.
  - intros w1 w2 w3 b H1 H2 Hb. unfold Rd in *. rewrite (H2 Hb). exact H1.
  - intros self' n c t v w. unfold Rd, _get_rdataset, backend_call.
    pose proof (get_keeps B HB self' (heap w) n c t v (store w)) as Hk.
    by destruct (be_get_rdataset _ _ _ _ _ _ _).
  - intros self' n w. unfold Rd, _name_exists, backend_call.
    pose proof (exists_keeps B HB self' (heap w) n (store w)) as Hk.
    by destruct (be_name_exists _ _ _ _).
  - intros self' n l w. unfold Fin, _put_rdataset, backend_call.
    pose proof (put_atomic B HB self' (heap w) n l (store w)) as Hk.
    by destruct (be_put_rdataset _ _ _ _ _).
  - intros self' n w. unfold Fin, _delete_name, backend_call.
    pose proof (delete_name_atomic B HB self' (heap w) n (store w)) as Hk.
    by destruct (be_delete_name _ _ _ _).
  - intros self' n c t v w. unfold Fin, _delete_rdataset, backend_call.
    pose proof (delete_rdataset_atomic B HB self' (heap w) n c t v (store w)) as Hk.
    by destruct (be_delete_rdataset _ _ _ _ _ _ _).
  - repeat split; intros;
      [apply (Hadd args w) | apply (Hreplace args w) | apply (Hdelete args w)
      | apply (Hexact args w) | apply (Hserial increment value name c w)];
      assumption.
Qed.

End WritesLast.

Lemma MemBackend_Atomic : Atomic MemBackend.backend.
Proof.
  split; try done.
  intros self h n l s. cbn. unfold MemBackend.mem_put.
  by destruct (view_at h l).
Qed.

(* ===================================================================== *)
(** * Objects that exist are left alone *)
(* ===================================================================== *)

Section KeepsHeap.

Implicit Types (h : Heap) (l : loc) (n : nat).

Lemma keeps_heap_pure {A} n (m : St Heap A) :
  (forall h, (m h).2 = h) -> keeps_heap n whatever m.
Proof. intros Hm h Hn. rewrite Hm. by repeat split. Qed.

Lemma keeps_heap_ret {A} n (Q : A -> Prop) (a : A) : Q a -> keeps_heap n Q (ret a).
Proof. intros Ha h Hn. cbn. repeat split; [lia|]. by intros a' [= <-]. Qed.

Lemma keeps_heap_raise {A} n (Q : A -> Prop) e : keeps_heap n Q (raise e).
Proof. intros h Hn. cbn. repeat split; [lia|]. intros a' [=]. Qed.

Lemma keeps_heap_bind {A C} n (Q : A -> Prop) (R : C -> Prop)
    (m : St Heap A) (f : A -> St Heap C) :
  keeps_heap n Q m -> (forall a, Q a -> keeps_heap n R (f a)) ->
  keeps_heap n R (bind m f).
Proof.
  intros Hm Hf h Hn. unfold bind. destruct (Hm h Hn) as (H1 & H2 & H3).
  destruct (m h) as [[e|a] h1]; simpl in *.
  - repeat split; [done..|]. intros a' [=].
  - destruct (Hf a (H3 a eq_refl) h1) as (H4 & H5 & H6); [lia|].
    repeat split; [congruence | lia | exact H6].
Qed.

Lemma keeps_heap_finally {A} n (Q : A -> Prop) (m : St Heap A) (fin : St Heap unit) :
  keeps_heap n Q m -> keeps_heap n whatever fin -> keeps_heap n Q (finally m fin).
Proof.
  intros Hm Hf h Hn. unfold finally. destruct (Hm h Hn) as (H1 & H2 & H3).
  destruct (m h) as [r h1]; simpl in *.
  destruct (Hf h1) as (H4 & H5 & _); [lia|].
  destruct (fin h1) as [[e|[]] h2]; simpl in *.
  - repeat split; [congruence | lia |]. intros a' [=].
  - repeat split; [congruence | lia | exact H3].
Qed.

Lemma deref_pure l h : (deref l h).2 = h.
Proof. unfold deref. by destruct (h !! l). Qed.

Lemma load_pure l h : (load l h).2 = h.
Proof.
  unfold load, bind. pose proof (deref_pure l h) as Hd.
  destruct (deref l h) as [[e|o] h1]; simpl in *; [done|].
  by destruct (view o).
Qed.

Lemma isinstance_pure l K h : (isinstance l K h).2 = h.
Proof.
  unfold isinstance, bind. pose proof (deref_pure l h) as Hd.
  by destruct (deref l h) as [[e|o] h1].
Qed.

Lemma truthy_pure v h : (truthy v h).2 = h.
Proof.
  destruct v; try reflexivity. unfold truthy, bind.
  pose proof (load_pure l h) as Hd. by destruct (load l h) as [[e|o] h1].
Qed.

Lemma ne_pure a b h : (Algebra.ne a b h).2 = h.
Proof.
  unfold Algebra.ne, bind. pose proof (load_pure a h) as Ha.
  destruct (load a h) as [[e|x] h1]; simpl in *; [done|]. subst h1.
  pose proof (load_pure b h) as Hb. by destruct (load b h) as [[e|y] h1].
Qed.

Lemma keeps_heap_alloc n k a : keeps_heap n (fresh_from n) (alloc k a).
Proof.
  intros h Hn. unfold alloc. cbn. rewrite length_app. cbn.
  repeat split; [by rewrite take_app_le | lia |].
  intros l [= <-]. exact Hn.
Qed.

Lemma keeps_heap_object_setattr n l name v :
  fresh_from n l -> keeps_heap n whatever (object_setattr l name v).
Proof.
  intros Hl h Hn. unfold object_setattr. destruct (h !! l) as [o|]; cbn.
  - rewrite length_insert. by rewrite take_insert_ge.
  - by repeat split.
Qed.

Lemma keeps_heap_object_delattr n l name :
  fresh_from n l -> keeps_heap n whatever (object_delattr l name).
Proof.
  intros Hl h Hn. unfold object_delattr. destruct (h !! l) as [o|]; cbn.
  - destruct (hasattr o name); cbn; [|by repeat split].
    rewrite length_insert. by rewrite take_insert_ge.
  - by repeat split.
Qed.

Lemma keeps_heap_deref n l : keeps_heap n whatever (deref l).
Proof. apply keeps_heap_pure, deref_pure. Qed.

Lemma keeps_heap_load n l : keeps_heap n whatever (load l).
Proof. apply keeps_heap_pure, load_pure. Qed.

Lemma keeps_heap_setattr n l name v :
  fresh_from n l -> keeps_heap n whatever (setattr l name v).
Proof.
  intros Hl. unfold setattr, Immutable.__setattr__.
  eapply keeps_heap_bind; [apply keeps_heap_deref|]. intros o _.
  destruct (has_Immutable_mixin (cls o)); [|by apply keeps_heap_object_setattr].
  eapply keeps_heap_bind; [apply keeps_heap_deref|]. intros o' _.
  destruct (Immutable.locked l o'); [apply keeps_heap_raise|].
  by apply keeps_heap_object_setattr.
Qed.

Ltac heap_step :=
  first
    [ apply keeps_heap_load
    | apply keeps_heap_deref
    | apply keeps_heap_setattr; assumption
    | apply keeps_heap_object_setattr; assumption
    | apply keeps_heap_object_delattr; assumption
    | apply keeps_heap_raise
    | apply keeps_heap_ret; done
    | eapply keeps_heap_bind; [| intros ? ?] ].

Lemma keeps_heap_union_update n l other :
  fresh_from n l -> keeps_heap n whatever (Algebra.union_update l other).
Proof. intros Hl. unfold Algebra.union_update. repeat heap_step. Qed.

Lemma keeps_heap_intersection_update n l other :
  fresh_from n l -> keeps_heap n whatever (Algebra.intersection_update l other).
Proof. intros Hl. unfold Algebra.intersection_update. repeat heap_step. Qed.

Lemma keeps_heap_difference_update n l other :
  fresh_from n l -> keeps_heap n whatever (Algebra.difference_update l other).
Proof. intros Hl. unfold Algebra.difference_update. repeat heap_step. Qed.

Lemma keeps_heap_clone n l : keeps_heap n (fresh_from n) (Algebra.clone l).
Proof.
  unfold Algebra.clone. eapply keeps_heap_bind; [apply keeps_heap_deref|].
  intros o _. apply keeps_heap_alloc.
Qed.

Lemma keeps_heap_union n a b : keeps_heap n whatever (Algebra.union a b).
Proof.
  unfold Algebra.union. eapply keeps_heap_bind; [apply keeps_heap_clone|].
  intros l Hl. eapply keeps_heap_bind; [by apply keeps_heap_union_update|].
  intros _ _. by apply keeps_heap_ret.
Qed.

Lemma keeps_heap_intersection n a b : keeps_heap n whatever (Algebra.intersection a b).
Proof.
  unfold Algebra.intersection. eapply keeps_heap_bind; [apply keeps_heap_clone|].
  intros l Hl. eapply keeps_heap_bind; [by apply keeps_heap_intersection_update|].
  intros _ _. by apply keeps_heap_ret.
Qed.

Lemma keeps_heap_difference n a b : keeps_heap n whatever (Algebra.difference a b).
Proof.
  unfold Algebra.difference. eapply keeps_heap_bind; [apply keeps_heap_clone|].
  intros l Hl. eapply keeps_heap_bind; [by apply keeps_heap_difference_update|].
  intros _ _. by apply keeps_heap_ret.
Qed.

(** The wrapper of [_immutable_init] touches the object under construction
    only, when the body does. *)
Lemma keeps_heap_immutable_init n (f : loc -> St Heap unit) l :
  fresh_from n l -> keeps_heap n whatever (f l) ->
  keeps_heap n whatever (_immutable_init f l).
Proof.
  intros Hl Hf. unfold _immutable_init.
  eapply keeps_heap_bind; [apply keeps_heap_deref|]. intros o _.
  eapply keeps_heap_bind with (Q := whatever).
  - destruct (attr_get "_immutable_init" (attrs o)); repeat heap_step.
  - intros previous _. apply keeps_heap_finally; [exact Hf|].
    eapply keeps_heap_bind; [apply keeps_heap_pure, truthy_pure|].
    intros t _. destruct (negb t); repeat heap_step.
Qed.

Lemma keeps_heap_ImmutableRdataset n l :
  keeps_heap n whatever (Algebra.ImmutableRdataset l).
Proof.
  unfold Algebra.ImmutableRdataset, new_object.
  eapply keeps_heap_bind; [apply (keeps_heap_alloc n KImmutableRdataset [])|].
  intros self Hself. eapply keeps_heap_bind with (Q := whatever).
  - apply keeps_heap_immutable_init; [done|].
    unfold Algebra.ImmutableRdataset__init__. repeat heap_step.
  - intros _ _. by apply keeps_heap_ret.
Qed.

End KeepsHeap.

Section KeepsObjects.

Context {E : Externals} {S : Type} {B : Backend S}.

Import Transaction.

Implicit Types (n : nat).

Lemma keeps_objects_ret {A} n (a : A) : keeps_objects (S:=S) n (ret a).
Proof. by intros w Hn. Qed.

Lemma keeps_objects_raise {A} n e : keeps_objects (S:=S) (A:=A) n (raise e).
Proof. by intros w Hn. Qed.

Lemma keeps_objects_liftR {A} n (r : Res A) : keeps_objects (S:=S) n (liftR r).
Proof. by intros w Hn. Qed.

Lemma keeps_objects_call {A} n c (f : Heap -> S -> Res A * S) :
  keeps_objects n (backend_call c f).
Proof. intros w Hn. unfold backend_call. by destruct (f (heap w) (store w)). Qed.

Lemma keeps_objects_on_heap {A} n (Q : A -> Prop) (m : St Heap A) :
  keeps_heap n Q m -> keeps_objects (S:=S) n (on_heap m).
Proof.
  intros Hm w Hn. unfold on_heap. destruct (Hm (heap w) Hn) as (H1 & H2 & _).
  by destruct (m (heap w)).
Qed.

Lemma keeps_objects_bind {A C} n (m : St (World S) A) (f : A -> St (World S) C) :
  keeps_objects n m -> (forall a, keeps_objects n (f a)) ->
  keeps_objects n (bind m f).
Proof.
  intros Hm Hf w Hn. unfold bind. destruct (Hm w Hn) as (H1 & H2).
  destruct (m w) as [[e|a] w1]; simpl in *; [done|].
  destruct (Hf a w1) as (H3 & H4); [lia|]. split; [congruence | lia].
Qed.

Lemma keeps_objects_except {A} n (m k : St (World S) A) :
  keeps_objects n m -> keeps_objects n k -> keeps_objects n (except_IndexError m k).
Proof.
  intros Hm Hk w Hn. unfold except_IndexError. destruct (Hm w Hn) as (H1 & H2).
  destruct (m w) as [r w1]; simpl in *.
  destruct (is_IndexError r); [|done].
  destruct (Hk w1) as (H3 & H4); [lia|]. split; [congruence | lia].
Qed.

(** A new object is created, filled in, and only then handed on. *)
Lemma keeps_objects_fresh {A C} n (m : St Heap loc) (g : loc -> St Heap A)
    (k : loc -> St (World S) C) :
  keeps_heap n (fresh_from n) m ->
  (forall l, fresh_from n l -> keeps_heap n whatever (g l)) ->
  (forall l, keeps_objects n (k l)) ->
  keeps_objects n (x <- on_heap m ;; on_heap (g x) ;;; k x).
Proof.
  intros Hm Hg Hk w Hn.
  assert (Hrun : (x <- on_heap m ;; on_heap (g x) ;;; k x) w
                 = match m (heap w) with
                   | (inr l, h1) =>
                       (on_heap (g l) ;;; k l) (mkWorld h1 (store w) (log w))
                   | (inl e, h1) => (inl e, mkWorld h1 (store w) (log w))
                   end).
  { unfold bind at 1, on_heap at 1. by destruct (m (heap w)) as [[e|l] h1]. }
  rewrite Hrun. clear Hrun.
  destruct (Hm (heap w) Hn) as (H1 & H2 & H3).
  destruct (m (heap w)) as [[e|l] h1]; simpl in *; [split; assumption|].
  specialize (H3 l eq_refl).
  destruct (keeps_objects_bind n (on_heap (g l)) (fun _ => k l)
              (keeps_objects_on_heap n _ _ (Hg l H3)) (fun _ => Hk l)
              (mkWorld h1 (store w) (log w))) as (H4 & H5); [simpl; lia|].
  simpl in *. split; [congruence | lia].
Qed.

Ltac keep_step :=
  first
    [ apply keeps_objects_ret
    | apply keeps_objects_raise
    | apply keeps_objects_liftR
    | apply keeps_objects_call
    | apply keeps_objects_fresh;
        [ apply keeps_heap_alloc
        | intros ? ?; apply keeps_heap_union_update; assumption
        | intros ? ]
    | eapply keeps_objects_on_heap;
        first [ apply keeps_heap_load | apply keeps_heap_deref
              | apply keeps_heap_pure, isinstance_pure
              | apply keeps_heap_pure, truthy_pure
              | apply keeps_heap_pure, ne_pure
              | apply keeps_heap_alloc
              | apply keeps_heap_union | apply keeps_heap_intersection
              | apply keeps_heap_difference | apply keeps_heap_ImmutableRdataset ]
    | apply keeps_objects_except
    | apply keeps_objects_bind; [| intros ?]
    | match goal with
      | |- keeps_objects _ (match ?x with _ => _ end) => destruct x
      end ].

Lemma _rdataset_from_args_keeps n method deleting args :
  keeps_objects (S:=S) n (_rdataset_from_args method deleting args).
Proof.
  unfold _rdataset_from_args, popleft, isinstance_arg, Algebra.from_rdata.
  repeat keep_step.
Qed.

Lemma _add_keeps n self replace args : keeps_objects n (_add self replace args).
Proof.
  unfold _add, _add_resolve, _add_apply, popleft, text_to_name, isinstance_arg,
    rrset_name, _raise_if_not_empty, not_None, _get_rdataset, _put_rdataset,
    Algebra.Rdataset_new, Algebra.update.
  repeat first [apply _rdataset_from_args_keeps | keep_step].
Qed.

Lemma _delete_keeps n self exact args : keeps_objects n (_delete self exact args).
Proof.
  unfold _delete, _delete_resolve, _delete_by_type, _delete_apply, popleft,
    text_to_name, isinstance_arg, rrset_name, _raise_if_not_empty,
    truthy_rdataset, _get_rdataset, _put_rdataset, _delete_rdataset,
    _delete_name, _name_exists.
  repeat first [apply _rdataset_from_args_keeps | keep_step].
Qed.

Lemma keeps_objects_untouched {A} (m : St (World S) A) :
  (forall n, keeps_objects n m) -> untouched m.
Proof.
  intros Hm w l o Hl. destruct (Hm (length (heap w)) w) as (H1 & H2); [lia|].
  pose proof (lookup_lt_Some _ _ _ Hl) as Hlt.
  rewrite <- (lookup_take_lt (heap (m w).2) (length (heap w)) l Hlt), H1.
  by rewrite lookup_take_lt.
Qed.

(** X5.  No operation of the core changes an object that exists when it
    is called: neither a record set passed as an argument nor one the
    backend holds or hands out.  Whatever an operation computes, it computes
    into objects it has created itself.  This holds for every backend, which
    by its contract reads the heap only, for every list of arguments, and
    whether the operation returns or raises. *)
Theorem existing_objects_untouched self :
  (forall name c t v, untouched (S:=S) (get self name c t v)) /\
  (forall args, untouched (S:=S) (add self args)) /\
  (forall args, untouched (S:=S) (replace self args)) /\
  (forall args, untouched (S:=S) (delete self args)) /\
  (forall args, untouched (S:=S) (delete_exact self args)) /\
  (forall name, untouched (S:=S) (name_exists self name)) /\
  (forall increment value name c,
     untouched (S:=S) (set_serial self increment value name c)).
Proof.
  repeat split; intros; apply keeps_objects_untouched; intros n;
    unfold get, add, replace, delete, delete_exact, name_exists, set_serial,
      as_name, _check_read_only, _get_rdataset, _name_exists,
      Algebra.from_rdata;
    repeat first [apply _add_keeps | apply _delete_keeps | keep_step
                 | progress unfold replace, _check_read_only].
Qed.

End KeepsObjects.

(* ===================================================================== *)
(** * Calls are made for well-formed argument lists only *)
(* ===================================================================== *)

Section Forms.

Context {E : Externals} {S : Type} {B : Backend S}.

Import Transaction.

Implicit Types (w : World S) (h : Heap).

Lemma _rdataset_from_args_form method deleting rest h (s : S) lg ol w' :
  _rdataset_from_args method deleting rest (mkWorld h s lg) = (inr (ol, []), w') ->
  match rest with
  | [] => deleting = true
  | [ARef l'] => is_Some (h !! l')
  | [AInt tl; ARdata _] => deleting = false /\ tl <= MAX_TTL
  | [ARdata _] => deleting = true
  | _ => False
  end.
Proof.
  unfold_core. unfold isinstance, bind, deref, ret. cbn.
  destruct rest as [|a rest]; cbn.
  { by destruct deleting. }
  destruct a as [t|nm|z|rd|l'|]; cbn.
  1,2,6: by destruct deleting.
  - destruct deleting; cbn; [done|].
    destruct (z >? MAX_TTL) eqn:Hz; cbn; [done|].
    destruct rest as [|a' rest']; cbn; [done|].
    destruct a'; cbn; try done.
    intros [= <- -> <-]. split; [done|]. lia.
  - destruct deleting; cbn; [|done]. by intros [= <- -> <-].
  - destruct (h !! l') as [o|] eqn:Ho; cbn.
    + replace (issubclass (cls o) KRdataset) with true by (by destruct (cls o)).
      by intros [= <- -> <-].
    + by destruct deleting.
Qed.

Lemma add_tail_intro h rest :
  match rest with
  | [] => false = true
  | [ARef l'] => is_Some (h !! l')
  | [AInt tl; ARdata _] => false = false /\ tl <= MAX_TTL
  | [ARdata _] => false = true
  | _ => False
  end -> add_tail h rest.
Proof.
  destruct rest as [|[] [|[] [|]]]; cbn; try done. by intros [_ ?].
Qed.

Lemma delete_tail_intro h rest :
  match rest with
  | [] => true = true
  | [ARef l'] => is_Some (h !! l')
  | [AInt tl; ARdata _] => true = false /\ tl <= MAX_TTL
  | [ARdata _] => true = true
  | _ => False
  end -> delete_tail h rest.
Proof.
  destruct rest as [|[] [|[] [|]]]; cbn; try done. by intros [? _].
Qed.

Lemma isinstance_RRset_inv l h b h' :
  isinstance l KRRset h = (inr b, h') ->
  h' = h /\ (b = true -> class_at h l = Some KRRset).
Proof.
  unfold isinstance, bind, deref, class_at. destruct (h !! l) as [o|]; cbn; [|done].
  intros [= <- <-]. split; [done|]. by destruct (cls o).
Qed.

(** The arguments [add] and [replace] go on with have one of the forms. *)
Lemma _add_resolve_form method args h (s : S) lg n ol w' :
  _add_resolve method args (mkWorld h s lg) = (inr (n, ol, []), w') ->
  add_form h args.
Proof.
  unfold _add_resolve, bind at 1.
  destruct args as [|a rest]; cbn [popleft raise ret]; [done|].
  assert (Hname : forall nm,
    (y <- _rdataset_from_args method false rest ;;
     let '(rdataset, args) := y in ret (nm, rdataset, args)) (mkWorld h s lg)
    = (inr (n, ol, []), w') -> add_tail h rest).
  { intros nm. unfold bind.
    destruct (_rdataset_from_args method false rest (mkWorld h s lg))
      as [[e|[ol' rest1]] w1] eqn:Hr; cbn; [done|].
    intros [= <- <- -> <-]. apply add_tail_intro.
    exact (_rdataset_from_args_form _ _ _ _ _ _ _ _ Hr). }
  unfold bind at 1.
  destruct a as [t|nm|z|rd|l|]; cbn [text_to_name ret].
  - unfold bind at 1, liftR. destruct (from_text t) as [e|nm] eqn:Ht; cbn; [done|].
    intros H. split; [by exists nm | by eapply Hname].
  - intros H. split; [done | by eapply Hname].
  - cbn. done.
  - cbn. done.
  - unfold isinstance_arg, bind at 1, on_heap at 1. cbn [heap store log].
    destruct (isinstance l KRRset h) as [[e|b] h1] eqn:Hi; [done|].
    apply isinstance_RRset_inv in Hi as [-> Hk].
    destruct b; cbn; [|done]. specialize (Hk eq_refl).
    unfold rrset_name, bind at 1, bind at 1, on_heap at 1. cbn [heap store log].
    destruct (deref l h) as [[e|o] h1] eqn:Hd; apply deref_inv in Hd as ->; [done|].
    destruct (attr_get "name" (attrs o)) as [[| | |nm| |]|]; cbn; try done.
    unfold bind at 1, on_heap at 1. cbn [heap store log].
    destruct (load l h) as [[e|r] h1] eqn:Hl; apply load_inv in Hl as [-> _];
      [done|].
    unfold bind at 1, on_heap at 1. cbn [heap store log Algebra.Rdataset_new alloc].
    unfold bind at 1, on_heap at 1. cbn [heap store log].
    destruct (Algebra.union_update _ _ _) as [[e|[]] h2]; cbn; [done|].
    by intros [= <- <- -> <-].
  - cbn. done.
Qed.

Lemma _add_resolve_silent method args : logs_only (S:=S) no_call (_add_resolve method args).
Proof.
  unfold _add_resolve, _rdataset_from_args, popleft, text_to_name, isinstance_arg,
    rrset_name.
  repeat logs_step.
Qed.

Lemma no_call_nil (lg : list Call) : Forall no_call lg -> lg = [].
Proof. destruct 1 as [|c lg Hc _]; [done | destruct Hc]. Qed.

Lemma silent_log {A} (m : St (World S) A) w :
  logs_only no_call m -> log (m w).2 = log w.
Proof.
  intros Hm. destruct (Hm w) as (lg & Hlg & Hnone).
  rewrite Hlg, (no_call_nil _ Hnone). apply app_nil_r.
Qed.

Lemma _add_called self replace args w :
  called (_add self replace args) w -> add_form (heap w) args.
Proof.
  unfold called, _add, except_IndexError, bind.
  set (method := if replace then "replace()" else "add()").
  pose proof (silent_log _ w (_add_resolve_silent method args)) as Hlog.
  destruct w as [h s lg].
  destruct (_add_resolve method args (mkWorld h s lg))
    as [[e|[[n ol] rest]] w1] eqn:Hr; cbn [fst snd] in *.
  - by destruct e.
  - destruct rest as [|a rest].
    + intros _. exact (_add_resolve_form _ _ _ _ _ _ _ _ Hr).
    + unfold _add_apply, _raise_if_not_empty, bind at 1. cbn. done.
Qed.

Lemma _rdataset_from_args_silent method deleting args :
  logs_only (S:=S) no_call (_rdataset_from_args method deleting args).
Proof. unfold _rdataset_from_args, popleft, isinstance_arg. repeat logs_step. Qed.

(** Deleting by class and type makes a call only when it is given a class
    and a type that convert, and at most a covered type that converts. *)
Lemma _delete_by_type_called self exact method n args w :
  called (_delete_by_type self exact method n args) w ->
  match args with
  | [c; t] =>
      (exists c', RdataClass_make c = inr c') /\
      (exists t', RdataType_make t = inr t')
  | [c; t; v] =>
      (exists c', RdataClass_make c = inr c') /\
      (exists t', RdataType_make t = inr t') /\
      (exists v', RdataType_make v = inr v')
  | _ => False
  end.
Proof.
  unfold called. destruct w as [h s lg]. unfold_core. cbn.
  destruct args as [|c [|t rest]]; cbn; [done| |].
  { by destruct (RdataClass_make c). }
  destruct (RdataClass_make c) as [e|c'] eqn:Hc; cbn; [done|].
  destruct (RdataType_make t) as [e|t'] eqn:Ht; cbn; [done|].
  destruct rest as [|v [|x rest]]; cbn.
  - intros _. eauto.
  - destruct (RdataType_make v) as [e|v'] eqn:Hv; cbn; [done|]. intros _. eauto 6.
  - by destruct (RdataType_make v).
Qed.

Lemma _delete_resolve_form self exact method args h (s : S) lg x w' :
  _delete_resolve self exact method args (mkWorld h s lg) = (x, w') ->
  (log w' <> lg -> delete_form h args) /\
  (forall n ol rest, x = inr (Some (n, ol, rest)) ->
     log w' = lg /\ (rest = [] -> delete_form h args)).
Proof.
  unfold _delete_resolve, bind at 1.
  destruct args as [|a rest]; cbn [popleft raise ret].
  { intros [= <- <-]. by split. }
  assert (Hname : forall nm,
    match rest with
    | AInt _ :: _ =>
        _delete_by_type self exact method nm rest ;;; ret None
    | _ =>
        y <- _rdataset_from_args method true rest ;;
        let '(rdataset, args) := y in ret (Some (nm, rdataset, args))
    end (mkWorld h s lg) = (x, w') ->
    (log w' <> lg -> delete_tail h rest) /\
    (forall n ol rest0, x = inr (Some (n, ol, rest0)) ->
       log w' = lg /\ (rest0 = [] -> delete_tail h rest))).
  { intros nm.
    assert (Hargs :
      (y <- _rdataset_from_args method true rest ;;
       let '(rdataset, args) := y in ret (Some (nm, rdataset, args)))
        (mkWorld h s lg) = (x, w') ->
      (log w' <> lg -> delete_tail h rest) /\
      (forall n ol rest0, x = inr (Some (n, ol, rest0)) ->
         log w' = lg /\ (rest0 = [] -> delete_tail h rest))).
    { unfold bind.
      pose proof (silent_log _ (mkWorld h s lg)
                    (_rdataset_from_args_silent method true rest)) as Hlog.
      destruct (_rdataset_from_args method true rest (mkWorld h s lg))
        as [[e|[ol' rest1]] w1] eqn:Hr; cbn in *.
      - intros [= <- <-]. by split.
      - intros [= <- <-]. split; [done|].
        intros n ol rest0 [= <- <- <-]. split; [done|]. intros ->.
        apply delete_tail_intro.
        exact (_rdataset_from_args_form _ _ _ _ _ _ _ _ Hr). }
    destruct rest as [|a' rest']; [exact Hargs|].
    destruct a' as [t|nm'|z|rd|l|]; try exact Hargs.
    unfold bind.
    pose proof (_delete_by_type_called self exact method nm (AInt z :: rest')
                  (mkWorld h s lg)) as Hcalled.
    unfold called in Hcalled.
    destruct (_delete_by_type self exact method nm (AInt z :: rest')
                (mkWorld h s lg)) as [[e|[]] w1]; cbn in *.
    - intros [= <- <-]. split; [|done]. intros Hne.
      specialize (Hcalled Hne). by destruct rest' as [|t [|v [|]]].
    - intros [= <- <-]. split; [|done]. intros Hne.
      specialize (Hcalled Hne). by destruct rest' as [|t [|v [|]]]. }
  unfold bind at 1.
  destruct a as [t|nm|z|rd|l|]; cbn [text_to_name ret].
  - unfold bind at 1, liftR. destruct (from_text t) as [e|nm] eqn:Ht; cbn.
    + intros [= <- <-]. by split.
    + intros H. destruct (Hname nm H) as [H1 H2]. split.
      * intros Hne. split; [by exists nm | by apply H1].
      * intros n ol rest0 Hx. destruct (H2 n ol rest0 Hx) as [H3 H4].
        split; [done|]. intros ->. split; [by exists nm | by apply H4].
  - intros H. destruct (Hname nm H) as [H1 H2]. split.
    + intros Hne. split; [done | by apply H1].
    + intros n ol rest0 Hx. destruct (H2 n ol rest0 Hx) as [H3 H4].
      split; [done|]. intros ->. split; [done | by apply H4].
  - cbn. intros [= <- <-]. by split.
  - cbn. intros [= <- <-]. by split.
  - unfold isinstance_arg, bind at 1, on_heap at 1. cbn [heap store log].
    destruct (isinstance l KRRset h) as [[e|b] h1] eqn:Hi.
    { intros [= <- <-]. by split. }
    apply isinstance_RRset_inv in Hi as [-> Hk].
    destruct b; cbn; [|intros [= <- <-]; by split]. specialize (Hk eq_refl).
    unfold rrset_name, bind at 1, bind at 1, on_heap at 1. cbn [heap store log].
    destruct (deref l h) as [[e|o] h1] eqn:Hd; apply deref_inv in Hd as ->.
    { intros [= <- <-]. by split. }
    destruct (attr_get "name" (attrs o)) as [[| | |nm| |]|]; cbn;
      try (intros [= <- <-]; by split).
    intros [= <- <-]. split; [done|].
    intros n ol rest0 [= <- <- <-]. split; [done|]. by intros ->.
  - cbn. intros [= <- <-]. by split.
Qed.

Lemma _delete_called self exact args w :
  called (_delete self exact args) w -> delete_form (heap w) args.
Proof.
  unfold called, _delete, except_IndexError, bind.
  set (method := if exact then "delete_exact()" else "delete()").
  destruct w as [h s lg].
  destruct (_delete_resolve self exact method args (mkWorld h s lg))
    as [[e|[[[n ol] rest]|]] w1] eqn:Hr;
    destruct (_delete_resolve_form _ _ _ _ _ _ _ _ _ Hr) as [H1 H2];
    cbn [fst snd heap log] in *.
  - by destruct e.
  - destruct (H2 n ol rest eq_refl) as [Hlog Hform].
    destruct rest as [|a rest].
    + intros _. by apply Hform.
    + unfold _delete_apply, _raise_if_not_empty, bind at 1. cbn. done.
  - exact H1.
Qed.

(** X6.  An operation reaches the backend only when the transaction is
    writable and its arguments have one of the forms it documents.  For
    [add] and [replace]: an RRset; or a name, or text that converts to one,
    followed by a record-set object, or by a TTL that is not above the
    largest one and a record-data value.  For [delete] and [delete_exact]:
    an RRset; or a name, or text that converts to one, followed by nothing,
    by a record-set object, by a record-data value, or by a class and a
    type, and possibly a covered type, that all convert.  For every other
    list of arguments the operation makes no call at all. *)
Theorem calls_need_well_formed_arguments self args w :
  (called (add self args) w -> read_only self = false /\ add_form (heap w) args) /\
  (called (replace self args) w -> read_only self = false /\ add_form (heap w) args) /\
  (called (delete self args) w ->
   read_only self = false /\ delete_form (heap w) args) /\
  (called (delete_exact self args) w ->
   read_only self = false /\ delete_form (heap w) args).
Proof.
  unfold called, add, replace, delete, delete_exact, _check_read_only, bind.
  destruct (read_only self); cbn.
  { split; [|split; [|split]]; intros H; by destruct H. }
  split; [|split; [|split]]; (intros H; split; [done|]);
    first [exact (_add_called _ _ _ _ H) | exact (_delete_called _ _ _ _ H)].
Qed.

End Forms.

(* ===================================================================== *)
(** * Text for a name, and errors that do not escape *)
(* ===================================================================== *)

Section Names.

Context {E : Externals} {S : Type} {B : Backend S}.

Import Transaction.

Implicit Types (w : World S).

Lemma _add_resolve_text method s rest w :
  _add_resolve method (AStr s :: rest) w
  = match from_text s with
    | inr n => _add_resolve method (AName n :: rest) w
    | inl e => (inl e, w)
    end.
Proof.
  unfold _add_resolve, bind, popleft, text_to_name, liftR, ret.
  by destruct (from_text s).
Qed.

Lemma _delete_resolve_text self exact method s rest w :
  _delete_resolve self exact method (AStr s :: rest) w
  = match from_text s with
    | inr n => _delete_resolve self exact method (AName n :: rest) w
    | inl e => (inl e, w)
    end.
Proof.
  unfold _delete_resolve, bind, popleft, text_to_name, liftR, ret.
  by destruct (from_text s).
Qed.

Lemma _add_text self replace s rest w :
  _add self replace (AStr s :: rest) w
  = match from_text s with
    | inr n => _add self replace (AName n :: rest) w
    | inl e => (inl (reported (if replace then "replace()" else "add()") e), w)
    end.
Proof.
  unfold _add, except_IndexError, bind. rewrite _add_resolve_text.
  destruct (from_text s) as [e|n]; [|reflexivity]. by destruct e.
Qed.

Lemma _delete_text self exact s rest w :
  _delete self exact (AStr s :: rest) w
  = match from_text s with
    | inr n => _delete self exact (AName n :: rest) w
    | inl e =>
        (inl (reported (if exact then "delete_exact()" else "delete()") e), w)
    end.
Proof.
  unfold _delete, except_IndexError, bind. rewrite _delete_resolve_text.
  destruct (from_text s) as [e|n]; [|reflexivity]. by destruct e.
Qed.

(** X7.  Text given where a name is expected is converted first, and the
    operation then goes on exactly as if it had been given the name.  When
    the conversion raises, the operation raises the same error and leaves
    the world as it was; from [add], [replace], [delete] and [delete_exact]
    the read-only check still comes first, and an [IndexError] of the
    conversion is reported as the [TypeError] for missing parameters. *)
Theorem text_is_converted_first self s w :
  (forall rest,
     add self (AStr s :: rest) w
     = match from_text s with
       | inr n => add self (AName n :: rest) w
       | inl e => (inl (if read_only self then ReadOnly else reported "add()" e), w)
       end) /\
  (forall rest,
     replace self (AStr s :: rest) w
     = match from_text s with
       | inr n => replace self (AName n :: rest) w
       | inl e => (inl (if read_only self then ReadOnly else reported "replace()" e), w)
       end) /\
  (forall rest,
     delete self (AStr s :: rest) w
     = match from_text s with
       | inr n => delete self (AName n :: rest) w
       | inl e => (inl (if read_only self then ReadOnly else reported "delete()" e), w)
       end) /\
  (forall rest,
     delete_exact self (AStr s :: rest) w
     = match from_text s with
       | inr n => delete_exact self (AName n :: rest) w
       | inl e =>
           (inl (if read_only self then ReadOnly else reported "delete_exact()" e), w)
       end) /\
  (forall c t v,
     get self (NText s) c t v w
     = match from_text s with
       | inr n => get self (NName n) c t v w
       | inl e => (inl e, w)
       end) /\
  name_exists self (NText s) w
  = match from_text s with
    | inr n => name_exists self (NName n) w
    | inl e => (inl e, w)
    end /\
  (forall increment value c,
     set_serial self increment value (NText s) c w
     = match from_text s with
       | inr n => set_serial self increment value (NName n) c w
       | inl e => (inl e, w)
       end).
Proof.
  split; [|split; [|split; [|split; [|split; [|split]]]]]; intros.
  - unfold add, _check_read_only, bind.
    destruct (read_only self); cbn; [by destruct (from_text s)|]. apply _add_text.
  - unfold replace, _check_read_only, bind.
    destruct (read_only self); cbn; [by destruct (from_text s)|]. apply _add_text.
  - unfold delete, _check_read_only, bind.
    destruct (read_only self); cbn; [by destruct (from_text s)|]. apply _delete_text.
  - unfold delete_exact, _check_read_only, bind.
    destruct (read_only self); cbn; [by destruct (from_text s)|]. apply _delete_text.
  - unfold get, bind at 1 4. cbn [as_name]. unfold liftR at 1, ret at 1.
    by destruct (from_text s).
  - unfold name_exists, bind. cbn [as_name]. unfold liftR, ret.
    by destruct (from_text s).
  - unfold set_serial, bind at 1 6. cbn [as_name]. unfold liftR at 1, ret at 1.
    by destruct (from_text s).
Qed.


Lemma _add_resolve_name_run method n rest w :
  _add_resolve method (AName n :: rest) w
  = (y <- _rdataset_from_args method false rest ;;
     let '(rdataset, args) := y in ret (n, rdataset, args)) w.
Proof. reflexivity. Qed.

Lemma _delete_resolve_name_run self exact method n a rest w :
  match a with AInt _ => False | _ => True end ->
  _delete_resolve self exact method (AName n :: a :: rest) w
  = (y <- _rdataset_from_args method true (a :: rest) ;;
     let '(rdataset, args) := y in ret (Some (n, rdataset, args))) w.
Proof. by destruct a. Qed.

End Names.

(* ===================================================================== *)
(** * More on [set_serial] *)
(* ===================================================================== *)

Section Serial.

Context {E : Externals} {S : Type} {B : Backend S}.

Import Transaction.

Lemma new_serial_range increment value current s :
  new_serial increment value current = inr s -> 1 <= s <= 0xffffffff.
Proof.
  unfold new_serial.
  destruct (match value with Some v => inr v | None => current end) as [e|x];
    [done|].
  intros [= <-].
  destruct (x + increment >? 4294967295) eqn:H1;
    destruct (x + increment <? 1) eqn:H2; cbn; lia.
Qed.

Lemma replace_serial_serial rd s rd' :
  Algebra.replace_serial rd s = inr rd' -> rd_serial rd' = Some s.
Proof.
  unfold Algebra.replace_serial. destruct (rd_serial rd); [|done]. by intros [= <-].
Qed.

(** X9.  Whatever the increment, the value, the stored record set and the
    backend, [set_serial] makes no call other than the lookup of the SOA
    record set at the name and, after it, the write of a record set with
    exactly one member whose serial is a number from 1 to [0xFFFFFFFF]:
    it never writes serial zero, a negative serial, or one that does not
    fit 32 bits. *)
Theorem set_serial_writes_valid_serial self increment value name c :
  logs_only (S:=S) serial_call (set_serial self increment value name c).
Proof.
  intros [h s lg]. unfold appends.
  unfold set_serial, bind at 1. rewrite as_name_run.
  destruct (name_of name) as [e|n]; [log_done|].
  unfold bind at 1, _get_rdataset, backend_call. cbn [heap store log].
  destruct (be_get_rdataset _ _ _ _ _ _ _) as [[e|[l|]] s1]; [log_done| |log_done].
  unfold bind at 1, on_heap at 1. cbn [heap store log].
  destruct (load l h) as [[e|r] h1] eqn:Hl; apply load_inv in Hl as [-> _];
    [log_done|].
  destruct (len r =? 0); [log_done|].
  unfold bind at 1, liftR at 1. destruct (Algebra.first r) as [e|rd0]; [log_done|].
  unfold bind at 1, liftR at 1.
  destruct (new_serial _ _ _) as [e|sn] eqn:Hsn; [log_done|].
  apply new_serial_range in Hsn.
  unfold bind at 1, liftR at 1.
  destruct (Algebra.replace_serial _ _) as [e|rd] eqn:Hrd; [log_done|].
  apply replace_serial_serial in Hrd.
  unfold bind at 1, on_heap at 1. cbn [heap store log Algebra.from_rdata alloc].
  destruct (read_only self) eqn:Hro.
  - destruct (read_only_guard (B:=B) self [AName n; ARef (length h)]
                (mkWorld (h ++ [mkObject KRdataset
                                  (mk_attrs (mkRdataset (rd_rdclass rd) (rd_rdtype rd)
                                                        (rd_covers rd) (ttl r) [rd]))])
                         s1 (lg ++ [CGet n c rdatatype_SOA rdatatype_NONE])) Hro)
      as (_ & -> & _).
    log_done.
  - rewrite (replace_name_rdataset_run self n (length h) _ s1 _ _ Hro (lookup_fresh _ _)).
    unfold except_IndexError, _put_rdataset, backend_call. cbn [heap store log].
    destruct (be_put_rdataset _ _ _ _ _) as [rp s2].
    rewrite view_at_fresh, view_mk_attrs.
    assert (Hput : serial_call
              (CPut n (length h)
                 (Some (mkRdataset (rd_rdclass rd) (rd_rdtype rd) (rd_covers rd)
                                   (ttl r) [rd])))).
    { cbn. eexists _, rd, sn. repeat split; [exact Hrd | lia | lia]. }
    destruct (is_IndexError rp); cbn [fst snd log raise];
      rewrite <- app_assoc; (eexists; split; [reflexivity|]);
      repeat constructor; exact Hput.
Qed.

(** X10.  Without a SOA record set there is no serial to set.  When the
    lookup at the name finds nothing, or finds a record set without
    members, [set_serial] raises [KeyError]; the lookup is the only call it
    has made, and nothing is written.  This is so on a read-only
    transaction too. *)
Theorem set_serial_needs_soa self increment value name c (w : World S) n found s1 :
  name_of name = inr n ->
  be_get_rdataset self (heap w) n c rdatatype_SOA rdatatype_NONE (store w)
  = (inr found, s1) ->
  match found with
  | None => True
  | Some l => exists r, view_at (heap w) l = Some r /\ items r = []
  end ->
  set_serial self increment value name c w
  = (inl KeyError,
     mkWorld (heap w) s1 (log w ++ [CGet n c rdatatype_SOA rdatatype_NONE])).
Proof.
  intros Hn Hget Hfound. destruct w as [h s lg]. cbn [heap store log] in *.
  unfold set_serial, bind at 1. rewrite as_name_run, Hn.
  unfold bind at 1, _get_rdataset, backend_call. cbn [heap store log].
  rewrite Hget. destruct found as [l|]; [|reflexivity].
  destruct Hfound as (r & Hr & Hempty).
  unfold bind at 1, on_heap at 1. cbn [heap store log].
  rewrite (load_run _ _ _ Hr). by rewrite (len_empty r Hempty).
Qed.

End Serial.

(* ===================================================================== *)
(** * Construction of an immutable object *)
(* ===================================================================== *)

Section Construction.

Implicit Types (h : Heap) (o : Object) (l self : loc) (d : list (string * Val)).

Lemma attr_get_None name d : attr_get name d = None <-> name ∉ d.*1.
Proof.
  induction d as [|[k v] d IH]; cbn.
  - split; [intros _; apply not_elem_of_nil | done].
  - rewrite not_elem_of_cons. destruct (String.eqb_spec k name) as [->|Hk].
    + split; [done | by intros [? _]].
    + rewrite IH. split; [by split | by intros [_ ?]].
Qed.

Lemma attr_set_keys name v d :
  (attr_set name v d).*1 = if decide (name ∈ d.*1) then d.*1 else d.*1 ++ [name].
Proof.
  induction d as [|[k v'] d IH]; cbn.
  - by rewrite decide_False by apply not_elem_of_nil.
  - destruct (String.eqb_spec k name) as [->|Hk]; cbn.
    + by rewrite decide_True by apply list_elem_of_here.
    + rewrite IH. destruct (decide (name ∈ d.*1)) as [Hin|Hin].
      * by rewrite decide_True by (by apply list_elem_of_further).
      * rewrite decide_False; [done|]. rewrite not_elem_of_cons. by split.
Qed.

Lemma attr_set_NoDup name v d : NoDup d.*1 -> NoDup (attr_set name v d).*1.
Proof.
  intros Hnd. rewrite attr_set_keys. destruct (decide (name ∈ d.*1)); [done|].
  apply NoDup_app. split; [done|]. split; [|apply NoDup_singleton].
  intros x Hx ->%list_elem_of_singleton. done.
Qed.

Lemma attr_get_del name d : NoDup d.*1 -> attr_get name (attr_del name d) = None.
Proof.
  induction d as [|[k v] d IH]; cbn; [done|].
  intros [Hk Hnd]%NoDup_cons. destruct (String.eqb_spec k name) as [->|Hne]; cbn.
  - by apply attr_get_None.
  - destruct (String.eqb_spec k name); [done|]. by apply IH.
Qed.

(** While an object is under construction, assignment to its attributes
    goes through, whatever its class. *)
Lemma setattr_under_construction h self o name v :
  h !! self = Some o -> under_construction self o ->
  setattr self name v h
  = (inr tt, <[self := mkObject (cls o) (attr_set name v (attrs o))]> h).
Proof.
  intros Ho [Hm _]. unfold setattr, Immutable.__setattr__, bind.
  rewrite (deref_run _ _ _ Ho).
  assert (Hset : object_setattr self name v h
                 = (inr tt, <[self := mkObject (cls o) (attr_set name v (attrs o))]> h)).
  { unfold object_setattr. by rewrite Ho. }
  destruct (has_Immutable_mixin (cls o)); [|exact Hset].
  rewrite (deref_run _ _ _ Ho). unfold Immutable.locked, hasattr. rewrite Hm.
  by rewrite bool_decide_eq_true_2.
Qed.

Lemma keeps_marker_pure {A} self (m : St Heap A) :
  (forall h, (m h).2 = h) -> keeps_marker self m.
Proof. intros Hm h o Ho Hu. rewrite Hm. by exists o. Qed.

Lemma keeps_marker_bind {A C} self (m : St Heap A) (f : A -> St Heap C) :
  keeps_marker self m -> (forall a, keeps_marker self (f a)) ->
  keeps_marker self (bind m f).
Proof.
  intros Hm Hf h o Ho Hu. unfold bind.
  destruct (Hm h o Ho Hu) as (o1 & Ho1 & Hc1 & Hu1).
  destruct (m h) as [[e|a] h1]; cbn in *; [by exists o1|].
  destruct (Hf a h1 o1 Ho1 Hu1) as (o2 & Ho2 & Hc2 & Hu2).
  exists o2. repeat split; [done | congruence | apply Hu2 | apply Hu2].
Qed.

Lemma keeps_marker_setattr self name v :
  name <> "_immutable_init" -> keeps_marker self (setattr self name v).
Proof.
  intros Hne h o Ho Hu. rewrite (setattr_under_construction _ _ _ _ _ Ho Hu).
  cbn. eexists. split; [apply list_lookup_insert_eq; by eapply lookup_lt_Some|].
  split; [done|]. destruct Hu as [Hm Hnd]. split; cbn.
  - rewrite attr_get_set. by destruct (String.eqb_spec name "_immutable_init").
  - by apply attr_set_NoDup.
Qed.

Lemma keeps_marker_ImmutableRdataset__init__ rdataset self :
  keeps_marker self (Algebra.ImmutableRdataset__init__ rdataset self).
Proof.
  unfold Algebra.ImmutableRdataset__init__.
  apply keeps_marker_bind; [apply keeps_marker_pure, load_pure|]. intros r.
  repeat (apply keeps_marker_bind; [by apply keeps_marker_setattr | intros _]).
  by apply keeps_marker_setattr.
Qed.

(** X11.  The protocol of [_immutable_init], for any initializer that
    leaves the [_immutable_init] attribute alone.  Called on an object of
    the immutable class that is not under construction, the wrapper marks
    the object, which opens it to assignment; runs the initializer; and
    removes the mark when the initializer is done, whether it returned or
    raised.  The outcome is that of the initializer, the object is what the
    initializer left without the mark, and from then on every assignment to
    and deletion of an attribute raises [TypeError] and changes nothing. *)
Theorem construction_ends_sealed (f : loc -> St Heap unit) self h o :
  h !! self = Some o ->
  cls o = KImmutableRdataset ->
  attr_get "_immutable_init" (attrs o) = None ->
  NoDup (attrs o).*1 ->
  keeps_marker self (f self) ->
  let h0 := <[self := started self o]> h in
  let out := _immutable_init f self h in
  (forall name v,
     setattr self name v h0
     = (inr tt, <[self := mkObject (cls o) (attr_set name v (attrs (started self o)))]> h0)) /\
  out.1 = (f self h0).1 /\
  (exists o1, (f self h0).2 !! self = Some o1 /\
              out.2 = <[self := finished o1]> (f self h0).2 /\
              sealed (finished o1)) /\
  (forall name v, setattr self name v out.2 = (inl Immutable.no_assignment, out.2)) /\
  (forall name, delattr self name out.2 = (inl Immutable.no_assignment, out.2)).
Proof.
  intros Ho Hc Hnone Hnd Hf h0 out.
  pose proof (lookup_lt_Some _ _ _ Ho) as Hlt.
  assert (Ho0 : h0 !! self = Some (started self o))
    by (by apply list_lookup_insert_eq).
  assert (Hu0 : under_construction self (started self o)).
  { split; cbn.
    - rewrite attr_get_set. by rewrite String.eqb_refl.
    - by apply attr_set_NoDup. }
  destruct (Hf h0 _ Ho0 Hu0) as (o1 & Ho1 & Hc1 & Hm1 & Hnd1).
  assert (Hrun : out = ((f self h0).1, <[self := finished o1]> (f self h0).2)).
  { subst out. unfold _immutable_init, bind.
    rewrite (deref_run _ _ _ Ho), Hnone.
    unfold object_setattr at 1. rewrite Ho. cbn [ret].
    fold (started self o). fold h0. unfold finally.
    destruct (f self h0) as [r h1] eqn:Hrun. cbn in Ho1.
    unfold truthy, ret. cbn [negb fst snd].
    unfold object_delattr. rewrite Ho1. unfold hasattr. by rewrite Hm1. }
  assert (Hsealed : sealed (finished o1)).
  { cbn in Hc1. split; cbn; [congruence | by apply attr_get_del]. }
  assert (Hlook : out.2 !! self = Some (finished o1)).
  { rewrite Hrun. cbn. apply list_lookup_insert_eq. by eapply lookup_lt_Some. }
  split; [|split; [|split; [|split]]].
  - intros name v.
    exact (setattr_under_construction h0 self (started self o) name v Ho0 Hu0).
  - by rewrite Hrun.
  - exists o1. by rewrite Hrun.
  - intros name v. by eapply setattr_sealed.
  - intros name. by eapply delattr_sealed.
Qed.

End Construction.

(* ===================================================================== *)
(** * Operations in sequence, over the reference backend *)
(* ===================================================================== *)

Section Sequences.

Context {E : Externals}.

Import Transaction MemBackend.

Implicit Types (h : Heap) (st : State) (lg : list Call) (o : Object)
  (w : World State) (r : Rdataset).

Lemma consistent_refs_valid w : consistent w -> refs_valid w.
Proof.
  intros Hc [n sel] l Hl. destruct (Hc n sel l Hl) as (r & Hr & _).
  by eapply view_at_valid.
Qed.

Lemma consistent_written h h' st lg lg' n r l :
  consistent (mkWorld h st lg) ->
  view_at (h ++ h') l = Some r -> NoDup (items r) ->
  consistent (mkWorld (h ++ h') (written st n r l) lg').
Proof.
  intros Hc Hv Hnd n' sel l'. unfold written. cbn [heap store nodes].
  destruct (decide ((n', sel) = (n, selector r))) as [[= -> ->]|Hk].
  - rewrite lookup_insert_eq. intros [= <-]. by exists r.
  - rewrite lookup_insert_ne by done. intros Hl.
    destruct (Hc n' sel l' Hl) as (r' & Hr' & Hs & Hn). exists r'.
    split; [|done]. cbn [heap] in Hr'.
    rewrite view_at_lt; [done | by eapply view_at_valid].
Qed.

Lemma consistent_without h h' st lg lg' k :
  consistent (mkWorld h st lg) ->
  consistent (mkWorld (h ++ h') (without st k) lg').
Proof.
  intros Hc n' sel l'. unfold without. cbn [heap store nodes].
  intros Hl%lookup_delete_Some. destruct Hl as [_ Hl].
  destruct (Hc n' sel l' Hl) as (r' & Hr' & Hs & Hn). exists r'.
  split; [|done]. cbn [heap] in Hr'.
  rewrite view_at_lt; [done | by eapply view_at_valid].
Qed.

Lemma consistent_grown h h' st lg lg' :
  consistent (mkWorld h st lg) -> consistent (mkWorld (h ++ h') st lg').
Proof.
  intros Hc n' sel l' Hl. cbn [heap store] in *.
  destruct (Hc n' sel l' Hl) as (r' & Hr' & Hs & Hn). exists r'.
  split; [|done]. cbn [heap] in Hr'.
  rewrite view_at_lt; [done | by eapply view_at_valid].
Qed.

Lemma stored_grown h h' st lg lg' k :
  consistent (mkWorld h st lg) ->
  stored (mkWorld (h ++ h') st lg') k = stored (mkWorld h st lg) k.
Proof.
  intros Hc. apply same_content_grown. by apply consistent_refs_valid.
Qed.

Lemma stored_written h st lg n r l :
  view_at h l = Some r ->
  stored (mkWorld h (written st n r l) lg) (n, selector r) = Some r.
Proof.
  intros Hv. unfold stored, written. cbn [heap store nodes].
  by rewrite lookup_insert_eq.
Qed.

Lemma stored_written_ne h h' st lg lg' n r l k :
  consistent (mkWorld h st lg) -> k <> (n, selector r) ->
  stored (mkWorld (h ++ h') (written st n r l) lg') k = stored (mkWorld h st lg) k.
Proof.
  intros Hc Hk. unfold stored, written. cbn [heap store nodes].
  rewrite lookup_insert_ne by done.
  destruct (nodes st !! k) as [l'|] eqn:Hl; [|done]. cbn.
  apply view_at_lt. exact (consistent_refs_valid _ Hc k l' Hl).
Qed.

Lemma stored_without h st lg k : stored (mkWorld h (without st k) lg) k = None.
Proof. unfold stored, without. cbn [heap store nodes]. by rewrite lookup_delete_eq. Qed.

Lemma stored_without_ne h h' st lg lg' k k' :
  consistent (mkWorld h st lg) -> k' <> k ->
  stored (mkWorld (h ++ h') (without st k) lg') k' = stored (mkWorld h st lg) k'.
Proof.
  intros Hc Hk. unfold stored, without. cbn [heap store nodes].
  rewrite lookup_delete_ne by done.
  destruct (nodes st !! k') as [l'|] eqn:Hl; [|done]. cbn.
  apply view_at_lt. exact (consistent_refs_valid _ Hc k' l' Hl).
Qed.

Lemma fold_add_item_NoDup its acc :
  NoDup acc -> NoDup (fold_left Algebra.add_item its acc).
Proof.
  revert acc. induction its as [|x its IH]; intros acc Hnd; cbn; [done|].
  apply IH. unfold Algebra.add_item, Algebra.member.
  destruct (bool_decide_reflect (x ∈ acc)) as [Hin|Hin]; [done|].
  apply NoDup_app. split; [done|]. split; [|apply NoDup_singleton].
  by intros y Hy ->%list_elem_of_singleton.
Qed.

Lemma fold_add_item_elem_of its acc x :
  x ∈ fold_left Algebra.add_item its acc <-> x ∈ acc \/ x ∈ its.
Proof.
  revert acc. induction its as [|y its IH]; intros acc; cbn.
  - split; [by left | intros [?|?%not_elem_of_nil]; done].
  - rewrite IH, elem_of_cons. unfold Algebra.add_item, Algebra.member.
    destruct (bool_decide_reflect (y ∈ acc)) as [Hin|Hin].
    + split; [tauto|]. intros [?|[->|?]]; tauto.
    + rewrite elem_of_app, list_elem_of_singleton. tauto.
Qed.

Lemma union_NoDup a b : NoDup (items a) -> NoDup (items (Algebra.union_rds a b)).
Proof. intros H. unfold Algebra.union_rds. cbn. by apply fold_add_item_NoDup. Qed.

Lemma union_elem_of a b x :
  x ∈ items (Algebra.union_rds a b) <-> x ∈ items a \/ x ∈ items b.
Proof. unfold Algebra.union_rds. cbn. apply fold_add_item_elem_of. Qed.

Lemma difference_NoDup a b :
  NoDup (items a) -> NoDup (items (Algebra.difference_rds a b)).
Proof.
  intros H. unfold Algebra.difference_rds. cbn.
  by apply NoDup_ListNoDup, List.NoDup_filter, NoDup_ListNoDup.
Qed.

Lemma difference_elem_of a b x :
  x ∈ items (Algebra.difference_rds a b) <-> x ∈ items a /\ x ∉ items b.
Proof.
  unfold Algebra.difference_rds, Algebra.member. cbn.
  rewrite list_elem_of_In, List.filter_In, <- list_elem_of_In.
  rewrite negb_true_iff, bool_decide_eq_false. tauto.
Qed.

(** What [add] with a name and a record set leaves behind. *)
Lemma add_effect self n b B w :
  read_only self = false -> consistent w ->
  view_at (heap w) b = Some B -> NoDup (items B) ->
  let out := add self [AName n; ARef b] w in
  out.1 = inr tt /\
  consistent out.2 /\
  (exists h', heap out.2 = heap w ++ h') /\
  stored out.2 (n, selector B)
  = Some (match stored w (n, selector B) with
          | Some A => Algebra.union_rds A B
          | None => B
          end) /\
  (forall k, k <> (n, selector B) -> stored out.2 k = stored w k).
Proof.
  intros Hro Hc Hv Hnd out. destruct w as [h st lg]. cbn [heap store log] in *.
  destruct (view_at_Some _ _ _ Hv) as (ob & Hob & Hvob).
  subst out. rewrite (add_name_rdataset_run self n b h st lg ob Hro Hob).
  unfold except_IndexError.
  destruct (nodes st !! (n, selector B)) as [e|] eqn:He.
  - destruct (Hc n (selector B) e He) as (A & HA & Hsel & HndA).
    cbn [heap] in HA.
    destruct (view_at_Some _ _ _ HA) as (oe & Hoe & Hvoe).
    rewrite (stored_Some _ _ _ _ _ He), HA.
    set (u := Algebra.union_rds A B).
    assert (Hkey : selector u = selector B) by exact Hsel.
    assert (Hndu : NoDup (items u)) by (by apply union_NoDup).
    destruct (decide (cls oe = KImmutableRdataset)) as [Hk|Hk].
    + rewrite (_add_apply_immutable self "add()" n b B e oe A h st lg
                 Hv He Hoe Hvoe Hk HndA).
      cbn [fst snd heap store log is_IndexError]. fold u.
      set (copy := mkObject KRdataset (mk_attrs A)).
      assert (Hvu : view_at (h ++ [copy; derived copy (ttl u) (items u)])
                            (S (length h)) = Some u).
      { change [copy; derived copy (ttl u) (items u)]
          with ([copy] ++ [derived copy (ttl u) (items u)]).
        rewrite app_assoc.
        replace (S (length h)) with (length (h ++ [copy]))
          by (rewrite length_app; cbn; lia).
        rewrite view_at_fresh.
        apply (view_derived_union copy A B (view_mk_attrs _ _)). }
      split; [done|]. split; [by eapply consistent_written|].
      split; [by eexists|]. split.
      * rewrite <- Hkey. by apply stored_written.
      * intros k Hk'. rewrite <- Hkey in Hk'. by eapply stored_written_ne.
    + rewrite (_add_apply_mutable self "add()" n b B e oe A h st lg
                 Hv He Hoe Hvoe Hk).
      cbn [fst snd heap store log is_IndexError]. fold u.
      assert (Hvu : view_at (h ++ [derived oe (ttl u) (items u)]) (length h) = Some u).
      { rewrite view_at_fresh. apply (view_derived_union oe A B Hvoe). }
      split; [done|]. split; [by eapply consistent_written|].
      split; [by eexists|]. split.
      * rewrite <- Hkey. by apply stored_written.
      * intros k Hk'. rewrite <- Hkey in Hk'. by eapply stored_written_ne.
  - rewrite (stored_None _ _ _ _ He).
    rewrite (_add_apply_absent self "add()" n b B h st lg Hv He).
    cbn [fst snd heap store log is_IndexError].
    split; [done|]. split.
    { rewrite <- (app_nil_r h). eapply consistent_written; [exact Hc| |done].
      by rewrite app_nil_r. }
    split; [exists []; by rewrite app_nil_r|]. split.
    * by apply stored_written.
    * intros k Hk'. rewrite <- (app_nil_r h) at 1. by eapply stored_written_ne.
Qed.

Lemma difference_applied_effect n d l h h' st lg lg' :
  consistent (mkWorld h st lg) ->
  view_at (h ++ h') l = Some d -> NoDup (items d) ->
  let w' := difference_applied n d l (h ++ h') st lg' in
  consistent w' /\
  heap w' = h ++ h' /\
  stored w' (n, selector d) = (if len d =? 0 then None else Some d) /\
  (forall k, k <> (n, selector d) -> stored w' k = stored (mkWorld h st lg) k).
Proof.
  intros Hc Hv Hnd w'. subst w'. unfold difference_applied.
  destruct (len d =? 0).
  - split; [by eapply consistent_without|]. split; [done|].
    split; [apply stored_without|]. intros k Hk. by eapply stored_without_ne.
  - split; [by eapply consistent_written|]. split; [done|].
    split; [by apply stored_written|]. intros k Hk. by eapply stored_written_ne.
Qed.

Lemma records_Some w k l r :
  nodes (store w) !! k = Some l -> view_at (heap w) l = Some r ->
  stored w k = Some r /\ records w k = items r.
Proof.
  intros Hl Hv. unfold records, stored. rewrite Hl. cbn. by rewrite Hv.
Qed.

Lemma records_None w k :
  nodes (store w) !! k = None -> stored w k = None /\ records w k = [].
Proof. intros Hl. unfold records, stored. by rewrite Hl. Qed.

(** What [delete] and [delete_exact] with a name and a record set that is
    not empty leave behind; for [delete_exact], when every requested record
    is stored. *)
Lemma delete_effect self exact n b B w :
  consistent w ->
  view_at (heap w) b = Some B -> items B <> [] ->
  (exact = true -> forall x, x ∈ items B -> x ∈ records w (n, selector B)) ->
  let out := _delete self exact [AName n; ARef b] w in
  out.1 = inr tt /\
  consistent out.2 /\
  (exists h', heap out.2 = heap w ++ h') /\
  stored out.2 (n, selector B)
  = match stored w (n, selector B) with
    | Some A =>
        let d := Algebra.difference_rds A B in
        if len d =? 0 then None else Some d
    | None => None
    end /\
  (forall k, k <> (n, selector B) -> stored out.2 k = stored w k).
Proof.
  intros Hc Hv Hne Hall out. destruct w as [h st lg]. cbn [heap store log] in *.
  destruct (view_at_Some _ _ _ Hv) as (ob & Hob & Hvob).
  subst out. rewrite (_delete_name_rdataset_run self exact n b h st lg ob Hob).
  unfold except_IndexError.
  destruct (nodes st !! (n, selector B)) as [e|] eqn:He.
  - destruct (Hc n (selector B) e He) as (A & HA & Hsel & HndA).
    cbn [heap] in HA.
    destruct (view_at_Some _ _ _ HA) as (oe & Hoe & Hvoe).
    destruct (records_Some (mkWorld h st lg) _ _ _ He HA) as [Hst Hrec].
    rewrite Hst. cbn zeta.
    set (d := Algebra.difference_rds A B).
    assert (Hseld : selector d = selector B) by exact Hsel.
    assert (Hndd : NoDup (items d)) by (by apply difference_NoDup).
    destruct exact.
    + rewrite (_delete_apply_stored_exact self _ n b B e oe A h st lg
                 Hv Hne He Hoe Hvoe).
      cbn zeta.
      assert (Hpass : Algebra.eq_rds (Algebra.intersection_rds A B) B = true).
      { apply exact_check_passes; [done|]. rewrite <- Hrec. by apply Hall. }
      rewrite Hpass. cbn [fst snd is_IndexError]. fold d.
      rewrite <- app_assoc.
      destruct (difference_applied_effect n d (S (length h)) h
                  ([derived oe (ttl (Algebra.intersection_rds A B))
                              (items (Algebra.intersection_rds A B))]
                   ++ [derived_items oe (items d)]) st lg
                  (lg ++ [CGet n (rdclass B) (rdtype B) (covers B)]) Hc)
        as (H1 & H2 & H3 & H4); [|done|].
      { rewrite app_assoc.
        replace (S (length h)) with (length (h ++ [derived oe (ttl (Algebra.intersection_rds A B))
                              (items (Algebra.intersection_rds A B))]))
          by (rewrite length_app; cbn; lia).
        rewrite view_at_fresh. by apply view_derived_difference. }
      split; [done|]. split; [done|]. split; [by eexists|].
      rewrite <- Hseld. split; [exact H3 | exact H4].
    + rewrite (_delete_apply_stored self _ n b B e oe A h st lg Hv Hne He Hoe Hvoe).
      cbn zeta. cbn [fst snd is_IndexError]. fold d.
      destruct (difference_applied_effect n d (length h) h
                  [derived_items oe (items d)] st lg
                  (lg ++ [CGet n (rdclass B) (rdtype B) (covers B)]) Hc)
        as (H1 & H2 & H3 & H4); [|done|].
      { rewrite view_at_fresh. by apply view_derived_difference. }
      split; [done|]. split; [done|]. split; [by eexists|].
      rewrite <- Hseld. split; [exact H3 | exact H4].
  - destruct (records_None (mkWorld h st lg) _ He) as [Hst Hrec].
    rewrite Hst.
    rewrite (_delete_apply_absent self exact _ n b B h st lg Hv Hne He).
    destruct exact.
    + exfalso. destruct (items B) as [|x xs] eqn:HB; [done|].
      specialize (Hall eq_refl x). rewrite Hrec in Hall.
      eapply not_elem_of_nil, Hall. by left.
    + cbn [fst snd is_IndexError heap].
      split; [done|]. split.
      { rewrite <- (app_nil_r h). by eapply consistent_grown. }
      split; [exists []; by rewrite app_nil_r|].
      split; [by apply stored_None|].
      intros k Hk. rewrite <- (app_nil_r h) at 1. by eapply stored_grown.
Qed.

Lemma fold_add_item_absorb its acc :
  (forall x, x ∈ its -> x ∈ acc) -> fold_left Algebra.add_item its acc = acc.
Proof.
  induction its as [|x its IH]; intros Hin; cbn; [done|].
  unfold Algebra.add_item at 2. unfold Algebra.member.
  rewrite bool_decide_eq_true_2 by (apply Hin; by left).
  apply IH. intros y Hy. apply Hin. by right.
Qed.

(** A union with a record set that brings nothing new changes nothing. *)
Lemma union_absorb a b :
  (forall x, x ∈ items b -> x ∈ items a) ->
  ttl a <= ttl b -> (items a = [] -> ttl a = ttl b) ->
  Algebra.union_rds a b = a.
Proof.
  intros Hin Hle Hempty. destruct a as [c t v tl its]. cbn in *.
  unfold Algebra.union_rds, Algebra.update_ttl, len. cbn.
  rewrite fold_add_item_absorb by done. f_equal.
  destruct its as [|x its]; cbn.
  - symmetry. by apply Hempty.
  - destruct (Z.ltb_spec (ttl b) tl); [lia|done].
Qed.

Lemma union_ttl_le a b : ttl (Algebra.union_rds a b) <= ttl b.
Proof.
  unfold Algebra.union_rds, Algebra.update_ttl. cbn.
  destruct (len a =? 0); [lia|]. destruct (Z.ltb_spec (ttl b) (ttl a)); lia.
Qed.

Lemma union_ttl_empty a b :
  items (Algebra.union_rds a b) = [] -> ttl (Algebra.union_rds a b) = ttl b.
Proof.
  intros Hu. unfold Algebra.union_rds, Algebra.update_ttl in *. cbn in *.
  destruct (items a) as [|x its] eqn:Ha.
  - by rewrite (len_empty a Ha).
  - exfalso. eapply (fold_add_item_nonempty (items b) (x :: its)); [by left|done].
Qed.

Lemma union_idempotent a b :
  Algebra.union_rds (Algebra.union_rds a b) b = Algebra.union_rds a b.
Proof.
  apply union_absorb.
  - intros x Hx. apply union_elem_of. by right.
  - apply union_ttl_le.
  - apply union_ttl_empty.
Qed.

Lemma union_self b : Algebra.union_rds b b = b.
Proof. apply union_absorb; [done | lia | done]. Qed.

Lemma filter_idempotent {A} (f : A -> bool) (l : list A) :
  List.filter f (List.filter f l) = List.filter f l.
Proof.
  induction l as [|x l IH]; cbn; [done|].
  destruct (f x) eqn:Hx; cbn; [|done]. by rewrite Hx, IH.
Qed.

Lemma difference_idempotent a b :
  Algebra.difference_rds (Algebra.difference_rds a b) b = Algebra.difference_rds a b.
Proof. unfold Algebra.difference_rds. cbn. by rewrite filter_idempotent. Qed.

Lemma difference_self b : items (Algebra.difference_rds b b) = [].
Proof.
  destruct (items (Algebra.difference_rds b b)) as [|x xs] eqn:Hd; [done|].
  assert (Hx : x ∈ items (Algebra.difference_rds b b)) by (rewrite Hd; by left).
  apply difference_elem_of in Hx as [? ?]. done.
Qed.

Lemma records_remainder w k d :
  stored w k = (if len d =? 0 then None else Some d) -> records w k = items d.
Proof.
  intros Hst. unfold records. rewrite Hst.
  destruct (len d =? 0) eqn:Hlen; [|done]. symmetry. by apply len_zero_items.
Qed.

Lemma guard_passes_add self args w :
  read_only self = false ->
  add self args w = _add self false args w /\
  replace self args w = _add self true args w.
Proof. intros Hro. unfold add, replace, _check_read_only, bind. by rewrite Hro. Qed.

(** X12.  [add] of a record set that is not empty, followed by
    [delete_exact] of the same record set, never fails: every record the
    exact delete asks for is there.  What the two leave at the name and
    selector are the records that were stored before and are not in the
    record set; when nothing was stored before, nothing is stored after.
    No other name or selector changes. *)
Theorem add_then_delete_exact self n b B w :
  read_only self = false -> consistent w ->
  view_at (heap w) b = Some B -> items B <> [] -> NoDup (items B) ->
  let w1 := (add self [AName n; ARef b] w).2 in
  let out := delete_exact self [AName n; ARef b] w1 in
  out.1 = inr tt /\
  (forall x, x ∈ records out.2 (n, selector B)
             <-> x ∈ records w (n, selector B) /\ x ∉ items B) /\
  (stored w (n, selector B) = None -> stored out.2 (n, selector B) = None) /\
  (forall k, k <> (n, selector B) -> stored out.2 k = stored w k).
Proof.
  intros Hro Hc Hv Hne Hnd w1 out.
  destruct (add_effect self n b B w Hro Hc Hv Hnd)
    as (_ & Hc1 & [h' Hh1] & Hst1 & Hother1).
  fold w1 in Hc1, Hh1, Hst1, Hother1.
  assert (Hv1 : view_at (heap w1) b = Some B) by (rewrite Hh1; by apply view_at_old).
  set (A' := match stored w (n, selector B) with
             | Some A => Algebra.union_rds A B
             | None => B
             end) in *.
  assert (Hrec1 : records w1 (n, selector B) = items A')
    by (unfold records; by rewrite Hst1).
  assert (HB : forall x, x ∈ items B -> x ∈ items A').
  { intros x Hx. subst A'. destruct (stored w (n, selector B)); [|done].
    apply union_elem_of. by right. }
  destruct (delete_effect self true n b B w1 Hc1 Hv1 Hne)
    as (Hr & Hc2 & _ & Hst2 & Hother2).
  { intros _ x Hx. rewrite Hrec1. by apply HB. }
  subst out. rewrite (proj2 (guard_passes_delete self _ _ Hro)).
  rewrite Hst1 in Hst2. cbn zeta in Hst2.
  split; [exact Hr|]. split; [|split].
  - intros x. rewrite (records_remainder _ _ _ Hst2), difference_elem_of.
    subst A'. unfold records. destruct (stored w (n, selector B)) as [A|].
    + rewrite union_elem_of. tauto.
    + split; [tauto|]. intros [[]%not_elem_of_nil _].
  - intros Hnone. rewrite Hst2. subst A'. rewrite Hnone.
    by rewrite (len_empty _ (difference_self B)).
  - intros k Hk. by rewrite Hother2, Hother1.
Qed.

(** X13.  [add] is idempotent: adding the same record set a second time
    succeeds and leaves at every name and selector the record set the
    first [add] left there, TTL included. *)
Theorem add_twice self n b B w :
  read_only self = false -> consistent w ->
  view_at (heap w) b = Some B -> NoDup (items B) ->
  let w1 := (add self [AName n; ARef b] w).2 in
  let out := add self [AName n; ARef b] w1 in
  out.1 = inr tt /\ forall k, stored out.2 k = stored w1 k.
Proof.
  intros Hro Hc Hv Hnd w1 out.
  destruct (add_effect self n b B w Hro Hc Hv Hnd)
    as (_ & Hc1 & [h' Hh1] & Hst1 & _).
  fold w1 in Hc1, Hh1, Hst1.
  assert (Hv1 : view_at (heap w1) b = Some B) by (rewrite Hh1; by apply view_at_old).
  destruct (add_effect self n b B w1 Hro Hc1 Hv1 Hnd)
    as (Hr & _ & _ & Hst2 & Hother2).
  fold out in Hr, Hst2, Hother2.
  split; [exact Hr|]. intros k.
  destruct (decide (k = (n, selector B))) as [->|Hk]; [|by apply Hother2].
  rewrite Hst2, Hst1. f_equal.
  destruct (stored w (n, selector B)) as [A|];
    [apply union_idempotent | apply union_self].
Qed.

(** X14.  [delete] is idempotent: deleting the same records a second time
    succeeds and changes nothing, whether the first [delete] removed some
    records, removed the whole record set, or found nothing to remove. *)
Theorem delete_twice self n b B w :
  read_only self = false -> consistent w ->
  view_at (heap w) b = Some B -> items B <> [] ->
  let w1 := (delete self [AName n; ARef b] w).2 in
  let out := delete self [AName n; ARef b] w1 in
  (delete self [AName n; ARef b] w).1 = inr tt /\
  out.1 = inr tt /\ forall k, stored out.2 k = stored w1 k.
Proof.
  intros Hro Hc Hv Hne w1 out. subst w1 out.
  rewrite !(proj1 (guard_passes_delete self _ _ Hro)).
  destruct (delete_effect self false n b B w Hc Hv Hne)
    as (Hr1 & Hc1 & [h' Hh1] & Hst1 & _); [done|].
  set (w1 := (_delete self false [AName n; ARef b] w).2) in *.
  assert (Hv1 : view_at (heap w1) b = Some B) by (rewrite Hh1; by apply view_at_old).
  destruct (delete_effect self false n b B w1 Hc1 Hv1 Hne)
    as (Hr & _ & _ & Hst2 & Hother2); [done|].
  split; [exact Hr1|]. split; [exact Hr|]. intros k.
  destruct (decide (k = (n, selector B))) as [->|Hk]; [|by apply Hother2].
  rewrite Hst2, Hst1.
  destruct (stored w (n, selector B)) as [A|]; [|done]. cbn zeta.
  destruct (len (Algebra.difference_rds A B) =? 0) eqn:Hlen; [done|].
  by rewrite difference_idempotent, Hlen.
Qed.

(** The record-data forms go on as the record-set forms do, on a new
    record set with one member. *)
Lemma _add_rdata_form self replace n tl rd rest h st lg :
  (tl >? MAX_TTL) = false ->
  _add self replace (AName n :: AInt tl :: ARdata rd :: rest) (mkWorld h st lg)
  = _add self replace (AName n :: ARef (length h) :: rest)
      (mkWorld (h ++ [singleton_obj tl rd]) st lg).
Proof.
  intros Htl. unfold _add, except_IndexError, bind.
  rewrite !_add_resolve_name_run. unfold bind.
  rewrite (_rdataset_from_args_ttl _ _ _ _ _ _ _ Htl).
  by rewrite (_rdataset_from_args_ref _ _ _ _ _ _ _ _ (lookup_fresh h _)).
Qed.

Lemma _delete_rdata_form self exact n rd rest h st lg :
  _delete self exact (AName n :: ARdata rd :: rest) (mkWorld h st lg)
  = _delete self exact (AName n :: ARef (length h) :: rest)
      (mkWorld (h ++ [singleton_obj 0 rd]) st lg).
Proof.
  unfold _delete, except_IndexError, bind.
  rewrite (_delete_resolve_name_run _ _ _ _ (ARdata rd) rest) by done.
  rewrite (_delete_resolve_name_run _ _ _ _ (ARef (length h)) rest) by done.
  unfold bind.
  rewrite _rdataset_from_args_rdata.
  by rewrite (_rdataset_from_args_ref _ _ _ _ _ _ _ _ (lookup_fresh h _)).
Qed.

(** X15.  One record at a time.  [add] with a name, a TTL that is not
    above the largest one and a record-data value succeeds, and afterwards
    the name and the selector of the value show the value beside the
    records they showed; with a TTL above the largest one it raises
    [ValueError] and changes nothing.  [delete] with a name and a
    record-data value succeeds, whether the value is stored or not, and
    afterwards the name and selector show the records they showed, except
    the value.  No other name or selector changes. *)
Theorem one_record_at_a_time self n rd w :
  read_only self = false -> consistent w ->
  let key := (n, (rd_rdclass rd, rd_rdtype rd, rd_covers rd)) in
  (forall tl, tl <= MAX_TTL ->
     let out := add self [AName n; AInt tl; ARdata rd] w in
     out.1 = inr tt /\
     (forall x, x ∈ records out.2 key <-> x = rd \/ x ∈ records w key) /\
     (forall k, k <> key -> stored out.2 k = stored w k)) /\
  (forall tl, MAX_TTL < tl ->
     add self [AName n; AInt tl; ARdata rd] w
     = (inl (ValueError "add(): TTL value too big"), w)) /\
  (let out := delete self [AName n; ARdata rd] w in
   out.1 = inr tt /\
   (forall x, x ∈ records out.2 key <-> x ∈ records w key /\ x <> rd) /\
   (forall k, k <> key -> stored out.2 k = stored w k)).
Proof.
  intros Hro Hc key. destruct w as [h st lg].
  split; [|split].
  - intros tl Htl out. subst out.
    assert (Hgt : (tl >? MAX_TTL) = false) by lia.
    rewrite (proj1 (guard_passes_add self _ _ Hro)), (_add_rdata_form _ _ _ _ _ _ _ _ _ Hgt).
    rewrite <- (proj1 (guard_passes_add self _ _ Hro)).
    destruct (add_effect self n (length h) (singleton_rds tl rd)
                (mkWorld (h ++ [singleton_obj tl rd]) st lg) Hro)
      as (Hr & _ & _ & Hst & Hother).
    { by eapply consistent_grown. }
    { cbn [heap]. rewrite view_at_fresh. apply view_mk_attrs. }
    { apply NoDup_singleton. }
    change (n, selector (singleton_rds tl rd)) with key in Hst, Hother.
    split; [exact Hr|]. split.
    + intros x. unfold records at 1. rewrite Hst.
      rewrite (stored_grown h _ st lg lg key Hc). unfold records.
      destruct (stored (mkWorld h st lg) key) as [A|].
      * rewrite union_elem_of. cbn. rewrite list_elem_of_singleton. tauto.
      * cbn. rewrite list_elem_of_singleton. split; [tauto|].
        intros [?|?%not_elem_of_nil]; done.
    + intros k Hk. rewrite (Hother k Hk). by apply stored_grown.
  - intros tl Htl.
    assert (Hgt : (tl >? MAX_TTL) = true) by lia.
    rewrite (proj1 (guard_passes_add self _ _ Hro)).
    unfold_core. cbn. by rewrite Hgt.
  - intros out. subst out.
    rewrite (proj1 (guard_passes_delete self _ _ Hro)), _delete_rdata_form.
    destruct (delete_effect self false n (length h) (singleton_rds 0 rd)
                (mkWorld (h ++ [singleton_obj 0 rd]) st lg))
      as (Hr & _ & _ & Hst & Hother).
    { by eapply consistent_grown. }
    { cbn [heap]. rewrite view_at_fresh. apply view_mk_attrs. }
    { done. }
    { done. }
    change (n, selector (singleton_rds 0 rd)) with key in Hst, Hother.
    rewrite (stored_grown h _ st lg lg key Hc) in Hst.
    split; [exact Hr|]. split.
    + intros x. unfold records at 2.
      destruct (stored (mkWorld h st lg) key) as [A|].
      * cbn zeta in Hst. rewrite (records_remainder _ _ _ Hst), difference_elem_of.
        cbn. rewrite list_elem_of_singleton. tauto.
      * unfold records. rewrite Hst. split; [by intros ?%not_elem_of_nil | tauto].
    + intros k Hk. rewrite (Hother k Hk). by apply stored_grown.
Qed.

Lemma without_name_lookup st n n' sel :
  nodes (without_name st n) !! (n', sel)
  = if decide (n' = n) then None else nodes st !! (n', sel).
Proof.
  unfold without_name. cbn [nodes].
  destruct (decide (n' = n)) as [->|Hn].
  - apply map_lookup_filter_None. right. intros l _ Hu. by apply Hu.
  - destruct (nodes st !! (n', sel)) as [l|] eqn:Hl.
    + apply map_lookup_filter_Some. split; [done|]. unfold under. cbn. congruence.
    + apply map_lookup_filter_None. by left.
Qed.

(** X16.  The forms of [delete] that name no record.  With a name only,
    [delete] succeeds and removes every record set under the name, so that
    the name no longer exists, and leaves every other name as it was.  With
    a name, a class and a type, and possibly a covered type, it succeeds and
    removes the record set at that selector, if there is one, and leaves
    every other selector and name as it was.  Neither fails when there is
    nothing to remove, and neither touches the heap. *)
Theorem delete_name_or_selector self n w :
  read_only self = false ->
  (let out := delete self [AName n] w in
   out.1 = inr tt /\ heap out.2 = heap w /\
   (forall sel, stored out.2 (n, sel) = None) /\
   (forall n' sel, n' <> n -> stored out.2 (n', sel) = stored w (n', sel)) /\
   (name_exists self (NName n) out.2).1 = inr false) /\
  (forall c ta covs c' t' v',
     RdataClass_make (AInt c) = inr c' -> RdataType_make ta = inr t' ->
     covers_of covs v' ->
     let out := delete self (AName n :: AInt c :: ta :: covs) w in
     out.1 = inr tt /\ heap out.2 = heap w /\
     stored out.2 (n, (c', t', v')) = None /\
     (forall k, k <> (n, (c', t', v')) -> stored out.2 k = stored w k)).
Proof.
  intros Hro. destruct w as [h st lg]. split.
  - intros out. subst out. rewrite (proj1 (guard_passes_delete self _ _ Hro)).
    rewrite _delete_name_only_run. unfold except_IndexError.
    rewrite _delete_apply_falsy by done. cbn [fst snd is_IndexError heap].
    split; [done|]. split; [done|]. split; [|split].
    + intros sel. apply stored_None. rewrite without_name_lookup.
      by rewrite decide_True.
    + intros n' sel Hn. unfold stored. cbn [heap store].
      rewrite without_name_lookup. by rewrite decide_False.
    + unfold name_exists, bind, as_name, ret, _name_exists, backend_call. cbn.
      unfold mem_name_exists. f_equal.
      apply (proj2 (known_false (without_name st n) n)). intros sel. rewrite without_name_lookup.
      by rewrite decide_True.
  - intros c ta covs c' t' v' Hmc Hmt Hcov out. subst out.
    rewrite (proj1 (guard_passes_delete self _ _ Hro)).
    rewrite (_delete_by_type_form_run self _ n c ta covs c' t' v' h st lg Hmc Hmt Hcov).
    destruct (nodes st !! (n, (c', t', v'))) as [l|] eqn:Hl;
      cbn [fst snd heap].
    + split; [done|]. split; [done|]. split; [apply stored_without|].
      intros k Hk. unfold stored, without. cbn [heap store nodes].
      by rewrite lookup_delete_ne.
    + split; [done|]. split; [done|]. split; [by apply stored_None|]. done.
Qed.

End Sequences.

(* ===================================================================== *)
(** * Blocks of operations, and errors in the arguments *)
(* ===================================================================== *)

Section Blocks.

Context {E : Externals} {S : Type} {B : Backend S}.

Import Transaction.

Implicit Types (w : World S).

Lemma perform_never_ends self op : logs_only (S:=S) not_end (perform self op).
Proof.
  destruct (api_never_ends (B:=B) self) as (Hg & Ha & Hr & Hd & Hx & Hn & Hs).
  destruct op; cbn; first [apply logs_only_bind; [|intros; apply logs_only_ret]|idtac];
    auto.
Qed.

Lemma perform_all_never_ends ops self :
  logs_only (S:=S) not_end (perform_all ops self).
Proof.
  induction ops as [|op ops IH]; cbn; [apply logs_only_ret|].
  apply logs_only_bind; [apply perform_never_ends | intros _; exact IH].
Qed.

Lemma with__run txn (body : Transaction -> St (World S) unit) w :
  with_ txn body w
  = let r1 := (body txn w).1 in
    let w1 := (body txn w).2 in
    let e := be_end_transaction txn (heap w1) (returned r1) (store w1) in
    (match e.1 with inl e' => inl e' | inr _ => r1 end,
     mkWorld (heap w1) e.2 (log w1 ++ [CEnd (returned r1)])).
Proof.
  unfold with_, __enter__, __exit__, bind, ret, _end_transaction, backend_call.
  destruct (body txn w) as [[e|[]] w1]; simpl;
    destruct (be_end_transaction _ _ _ _) as [[e'|[]] s']; reflexivity.
Qed.

(** X17.  Whatever operations a scoped block performs on its transaction,
    in whatever number and with whatever arguments, the transaction is
    ended exactly once, by the exit from the block: with a commit when
    every operation returned, and with a rollback when one of them raised,
    the operations after it being skipped.  The error reaches the caller
    unless ending the transaction raises one of its own. *)
Theorem block_of_operations_ends_once txn ops w :
  let body := perform_all ops in
  let r1 := (body txn w).1 in
  let out := with_ txn body w in
  ends (log out.2) = ends (log w) ++ [returned r1] /\
  (out.1 = r1 \/ exists e', out.1 = inl e' /\
     (be_end_transaction txn (heap (body txn w).2) (returned r1)
                         (store (body txn w).2)).1 = inl e').
Proof.
  intros body r1 out. subst out. rewrite with__run. cbn zeta. fold r1. split.
  - cbn [snd log].
    destruct (perform_all_never_ends ops txn w) as (lg & Hlg & Hne).
    fold body in Hlg. rewrite Hlg, !ends_app, (ends_not_end _ Hne). cbn.
    by rewrite app_nil_r.
  - cbn [fst]. destruct (be_end_transaction _ _ _ _) as [[e'|[]] s']; cbn.
    + right. by exists e'.
    + by left.
Qed.

(** X18.  The errors of malformed argument lists.  Each is raised before
    any call to the backend and leaves the world as it was: no argument at
    all; a first argument that is neither text, a name nor an RRset; a name
    with nothing after it, for [add] and [replace]; a name followed by
    something that is neither a record set nor a TTL, for [add] and
    [replace], or neither a record set, a class nor record data, for
    [delete]; a TTL followed by something that is not record data; and
    arguments left over after a record set. *)
Theorem argument_errors self (replace exact : bool) w :
  let m := if replace then "replace()" else "add()" in
  let d := if exact then "delete_exact()" else "delete()" in
  _add self replace [] w = (inl (not_enough_parameters m), w) /\
  _delete self exact [] w = (inl (not_enough_parameters d), w) /\
  (forall a rest,
     match a with AInt _ | ARdata _ | ANone => True | _ => False end ->
     _add self replace (a :: rest) w = (inl (requires_name_or_RRset m), w) /\
     _delete self exact (a :: rest) w = (inl (requires_name_or_RRset d), w)) /\
  (forall l o rest,
     heap w !! l = Some o -> cls o <> KRRset ->
     _add self replace (ARef l :: rest) w = (inl (requires_name_or_RRset m), w) /\
     _delete self exact (ARef l :: rest) w = (inl (requires_name_or_RRset d), w)) /\
  (forall n,
     _add self replace [AName n] w
     = (inl (TypeError (m +:+ ": expected more arguments")), w)) /\
  (forall n a rest,
     match a with AStr _ | AName _ | ARdata _ | ANone => True | _ => False end ->
     _add self replace (AName n :: a :: rest) w
     = (inl (TypeError (m +:+ ": expected a TTL")), w)) /\
  (forall n a rest,
     match a with AStr _ | AName _ | ANone => True | _ => False end ->
     _delete self exact (AName n :: a :: rest) w
     = (inl (TypeError (d +:+ ": expected an Rdata")), w)) /\
  (forall n tl a rest,
     tl <= MAX_TTL ->
     match a with ARdata _ => False | _ => True end ->
     _add self replace (AName n :: AInt tl :: a :: rest) w
     = (inl (TypeError (m +:+ ": expected an Rdata")), w)) /\
  (forall n l o a rest,
     heap w !! l = Some o ->
     _add self replace (AName n :: ARef l :: a :: rest) w
     = (inl (TypeError ("extra parameters to " +:+ m)), w) /\
     _delete self exact (AName n :: ARef l :: a :: rest) w
     = (inl (TypeError ("extra parameters to " +:+ d)), w)).
Proof.
  intros m d. destruct w as [h s lg]. cbn [heap].
  split; [done|]. split; [done|].
  split; [|split; [|split; [|split; [|split; [|split]]]]].
  - intros a rest Ha. by destruct a.
  - intros l o rest Ho Hk. unfold_core. cbn.
    rewrite (isinstance_run _ _ _ _ Ho).
    replace (issubclass (cls o) KRRset) with false by (by destruct (cls o)).
    done.
  - done.
  - intros n a rest Ha. by destruct a.
  - intros n a rest Ha. by destruct a.
  - intros n tl a rest Htl Ha.
    assert (Hgt : (tl >? MAX_TTL) = false) by lia.
    unfold_core. cbn. rewrite Hgt. by destruct a.
  - intros n l o a rest Ho. unfold_core. cbn.
    rewrite (isinstance_run _ _ _ _ Ho).
    replace (issubclass (cls o) KRdataset) with true by (by destruct (cls o)).
    done.
Qed.

(** X19.  An RRset stands for its name and its records.  Given an RRset
    first, [add] and [replace] go on exactly as they do when given the name
    of the RRset and a new plain record set with the records of the RRset;
    [delete] and [delete_exact] go on exactly as they do when given the name
    of the RRset and the RRset itself as the record set. *)
Theorem rrset_stands_for_name_and_records self (replace exact : bool) rrset rest
    h (s : S) lg o n r :
  h !! rrset = Some o -> cls o = KRRset ->
  attr_get "name" (attrs o) = Some (VName n) -> view o = Some r ->
  NoDup (items r) ->
  _add self replace (ARef rrset :: rest) (mkWorld h s lg)
  = _add self replace (AName n :: ARef (length h) :: rest)
      (mkWorld (h ++ [mkObject KRdataset (mk_attrs r)]) s lg) /\
  _delete self exact (ARef rrset :: rest) (mkWorld h s lg)
  = _delete self exact (AName n :: ARef rrset :: rest) (mkWorld h s lg).
Proof.
  intros Ho Hc Hn Hv Hnd. split.
  - unfold _add, except_IndexError, bind.
    rewrite (_add_resolve_rrset _ _ _ _ _ _ _ _ _ Ho Hc Hn Hv).
    rewrite union_rds_empty by done.
    rewrite _add_resolve_name_run. unfold bind.
    by rewrite (_rdataset_from_args_ref _ _ _ _ _ _ _ _ (lookup_fresh h _)).
  - unfold _delete, except_IndexError, bind.
    rewrite (_delete_resolve_rrset _ _ _ _ _ _ _ _ _ _ Ho Hc Hn).
    rewrite (_delete_resolve_name_run _ _ _ _ (ARef rrset) rest) by done.
    unfold bind.
    by rewrite (_rdataset_from_args_ref _ _ _ _ _ _ _ _ Ho).
Qed.

End Blocks.

(* ===================================================================== *)
(** * More statements at concrete inputs *)
(* ===================================================================== *)

Section MoreExamples.

Import Transaction Fixture.

Lemma consistent_decided (w : World MemBackend.State) :
  map_Forall (fun k l => entry_ok (heap w) k l = true) (MemBackend.nodes (store w)) ->
  consistent w.
Proof.
  intros H n sel l Hl. specialize (H (n, sel) l Hl). unfold entry_ok in H.
  destruct (view_at (heap w) l) as [r|]; [|done].
  apply andb_true_iff in H as [H1%bool_decide_eq_true H2%bool_decide_eq_true].
  by exists r.
Qed.

Lemma w_zone_consistent : consistent w_zone.
Proof.
  apply consistent_decided.
  refine (bool_decide_unpack _ _). vm_compute. exact I.
Qed.


Lemma failure_changes_nothing_witness :
  returned (delete_exact rw [AName www; ARdata a9] w_zone).1 = false /\
  store (delete_exact rw [AName www; ARdata a9] w_zone).2 = store w_zone.
Proof.
  assert (Hf : returned (delete_exact rw [AName www; ARdata a9] w_zone).1 = false)
    by (vm_compute; reflexivity).
  split; [exact Hf|].
  destruct (failure_changes_nothing (E:=externals) (B:=MemBackend.backend)
              rw MemBackend_Atomic) as (_ & _ & _ & Hexact & _).
  by apply Hexact.
Defined.

Lemma calls_need_well_formed_arguments_witness :
  called (add rw [AStr "www"; AInt 300; ARdata a3]) w_zone /\
  add_form (heap w_zone) [AStr "www"; AInt 300; ARdata a3].
Proof.
  assert (Hc : called (add rw [AStr "www"; AInt 300; ARdata a3]) w_zone).
  { unfold called. vm_compute. discriminate. }
  split; [exact Hc|].
  exact (proj2 (proj1 (calls_need_well_formed_arguments (E:=externals)
                         (B:=MemBackend.backend) rw _ w_zone) Hc)).
Defined.

Lemma construction_ends_sealed_witness :
  let h := h_demo ++ [mkObject KImmutableRdataset []] in
  let out := _immutable_init (Algebra.ImmutableRdataset__init__ 0%nat) 6%nat h in
  out.1 = inr tt /\
  view_at out.2 6%nat = Some (mkRdataset 1 1 0 300 [a1; a2]) /\
  setattr 6%nat "ttl" (VInt 0) out.2 = (inl Immutable.no_assignment, out.2).
Proof.
  intros h out.
  destruct (construction_ends_sealed (Algebra.ImmutableRdataset__init__ 0%nat)
              6%nat h (mkObject KImmutableRdataset []) eq_refl eq_refl eq_refl
              (NoDup_nil_2 (A:=string))
              (keeps_marker_ImmutableRdataset__init__ 0%nat 6%nat))
    as (_ & Hr & _ & Hset & _).
  split; [|split].
  - fold out in Hr. rewrite Hr. vm_compute. reflexivity.
  - vm_compute. reflexivity.
  - apply Hset.
Defined.

Lemma add_then_delete_exact_witness :
  let w1 := (add rw [AName www; ARef 1%nat] w_zone).2 in
  let out := delete_exact rw [AName www; ARef 1%nat] w1 in
  out.1 = inr tt /\
  (a1 ∈ records out.2 (www, (1, 1, 0)) /\ a2 ∉ records out.2 (www, (1, 1, 0))) /\
  MemBackend.stored out.2 (www, (1, 15, 0)) = MemBackend.stored w_zone (www, (1, 15, 0)).
Proof.
  intros w1 out.
  destruct (add_then_delete_exact (E:=externals) rw www 1%nat
              (mkRdataset 1 1 0 200 [a2; a3]) w_zone eq_refl w_zone_consistent
              eq_refl)
    as (Hr & Hrec & _ & Hother).
  { discriminate. }
  { refine (bool_decide_unpack _ _). vm_compute. exact I. }
  split; [exact Hr|]. split; [split|].
  - apply Hrec. split; [vm_compute; by left|].
    cbn. intros [[=]|[[=]|[]%not_elem_of_nil]%elem_of_cons]%elem_of_cons.
  - intros Hin. apply Hrec in Hin as [_ Hn]. apply Hn. cbn. by left.
  - apply Hother. discriminate.
Defined.

Lemma add_twice_witness :
  let w1 := (add rw [AName www; ARef 1%nat] w_zone).2 in
  let out := add rw [AName www; ARef 1%nat] w1 in
  out.1 = inr tt /\
  MemBackend.stored out.2 (www, (1, 1, 0)) = Some (mkRdataset 1 1 0 200 [a1; a2; a3]).
Proof.
  intros w1 out.
  destruct (add_twice (E:=externals) rw www 1%nat
              (mkRdataset 1 1 0 200 [a2; a3]) w_zone eq_refl w_zone_consistent
              eq_refl)
    as (Hr & Hsame).
  { refine (bool_decide_unpack _ _). vm_compute. exact I. }
  split; [exact Hr|].
  refine (eq_trans (Hsame _) _). vm_compute. reflexivity.
Defined.

Lemma delete_twice_witness :
  let w1 := (delete rw [AName www; ARef 1%nat] w_zone).2 in
  let out := delete rw [AName www; ARef 1%nat] w1 in
  out.1 = inr tt /\
  MemBackend.stored out.2 (www, (1, 1, 0)) = Some (mkRdataset 1 1 0 300 [a1]).
Proof.
  intros w1 out.
  destruct (delete_twice (E:=externals) rw www 1%nat
              (mkRdataset 1 1 0 200 [a2; a3]) w_zone eq_refl w_zone_consistent
              eq_refl)
    as (_ & Hr & Hsame).
  { discriminate. }
  split; [exact Hr|].
  refine (eq_trans (Hsame _) _). vm_compute. reflexivity.
Defined.

Lemma one_record_at_a_time_witness :
  (a3 ∈ records (add rw [AName www; AInt 60; ARdata a3] w_zone).2 (www, (1, 1, 0))) /\
  add rw [AName www; AInt 2147483648; ARdata a3] w_zone
  = (inl (ValueError "add(): TTL value too big"), w_zone) /\
  (a2 ∉ records (delete rw [AName www; ARdata a2] w_zone).2 (www, (1, 1, 0))).
Proof.
  destruct (one_record_at_a_time (E:=externals) rw www a3 w_zone eq_refl
              w_zone_consistent) as (Hadd & Hbig & _).
  destruct (one_record_at_a_time (E:=externals) rw www a2 w_zone eq_refl
              w_zone_consistent) as (_ & _ & Hdel).
  cbv zeta in Hadd, Hdel.
  split; [|split].
  - apply (Hadd 60); [cbn; lia | by left].
  - apply Hbig. cbn. lia.
  - intros Hin. apply (proj1 (proj2 Hdel)) in Hin as [_ Hne]. by apply Hne.
Defined.

Lemma delete_name_or_selector_witness :
  (let out := delete rw [AName www] w_zone in
   out.1 = inr tt /\ MemBackend.stored out.2 (www, (1, 15, 0)) = None /\
   MemBackend.stored out.2 (name_empty, (1, 6, 0))
   = MemBackend.stored w_zone (name_empty, (1, 6, 0))) /\
  (let out := delete rw [AName www; AInt 1; AInt 15] w_zone in
   out.1 = inr tt /\ MemBackend.stored out.2 (www, (1, 15, 0)) = None /\
   MemBackend.stored out.2 (www, (1, 1, 0)) = MemBackend.stored w_zone (www, (1, 1, 0))).
Proof.
  destruct (delete_name_or_selector (E:=externals) rw www w_zone eq_refl)
    as (Hname & Hsel).
  specialize (Hsel 1 (AInt 15) [] 1 15 0 eq_refl eq_refl eq_refl).
  cbv zeta in Hname, Hsel.
  destruct Hname as (H1 & _ & H2 & H3 & _). destruct Hsel as (H4 & _ & H5 & H6).
  split; (split; [assumption|]); split.
  - apply H2.
  - apply H3. discriminate.
  - exact H5.
  - apply H6. discriminate.
Defined.

Lemma argument_errors_witness :
  _add rw false [ARef 0%nat; AInt 5] w_zone
  = (inl (requires_name_or_RRset "add()"), w_zone) /\
  _delete rw true [AName www; ARef 0%nat; ANone] w_zone
  = (inl (TypeError "extra parameters to delete_exact()"), w_zone).
Proof.
  destruct (argument_errors (E:=externals) (B:=MemBackend.backend) rw false true
              w_zone) as (_ & _ & _ & Href & _ & _ & _ & _ & Hextra).
  cbv zeta in Href, Hextra. split.
  - apply (Href 0%nat (obj KRdataset (mkRdataset 1 1 0 300 [a1; a2])) [AInt 5]);
      [reflexivity | discriminate].
  - apply (Hextra www 0%nat (obj KRdataset (mkRdataset 1 1 0 300 [a1; a2])) ANone []).
    reflexivity.
Defined.

Lemma rrset_stands_for_name_and_records_witness :
  _add rw false [ARef 5%nat] w_zone
  = _add rw false [AName www; ARef (length (heap w_zone))]
      (mkWorld (heap w_zone ++ [obj KRdataset (mkRdataset 1 1 0 300 [a1])])
               (store w_zone) (log w_zone)) /\
  _delete rw true [ARef 5%nat] w_zone = _delete rw true [AName www; ARef 5%nat] w_zone.
Proof.
  apply (rrset_stands_for_name_and_records (E:=externals) (B:=MemBackend.backend)
           rw false true 5%nat [] (heap w_zone) (store w_zone) (log w_zone)
           (rrset_obj www (mkRdataset 1 1 0 300 [a1])) www
           (mkRdataset 1 1 0 300 [a1]) eq_refl eq_refl eq_refl eq_refl).
  apply NoDup_singleton.
Defined.

Lemma set_serial_needs_soa_witness :
  set_serial ro 1 None (NName www) rdataclass_IN w_zone
  = (inl KeyError,
     mkWorld (heap w_zone) (store w_zone) (log w_zone ++ [CGet www 1 6 0])).
Proof.
  exact (set_serial_needs_soa (E:=externals) (B:=MemBackend.backend)
           ro 1 None (NName www) rdataclass_IN w_zone www None (store w_zone)
           eq_refl eq_refl I).
Defined.

End MoreExamples.
